(** * ScribeAI: the realtime session pipeline and the recorder state machine

    A shallow embedding of

    - [server/index.ts]: the Socket.io handlers for [session:start],
      [session:audioChunk], [session:pause], [session:resume] and
      [session:stop];
    - [src/lib/db/sessions.ts]: the Prisma data-access helpers;
    - [src/lib/gemini.ts]: [transcribeChunk] and [summarizeTranscript];
    - [src/lib/state/recorderMachine.ts]: the XState recorder machine;
    - [app/api/sessions/[id]/export/route.ts]: the export route;
    - [app/(dashboard)/sessions/Recorder.tsx]: the socket listeners of the
      recorder component;

    followed by the properties of the pipeline proved over it.

    Text is modelled as [string], the UTF-8 bytes of the JavaScript string
    (a lone surrogate as the three bytes of its code point). A number is
    the double its decimal text denotes. Handlers run in a small
    state-and-exception monad over the database, the Socket.io rooms and the
    list of emitted events; the two Gemini models, the wall clock and the
    failures of the database connection are inputs held in an environment
    record. The database refuses what its columns cannot hold: an integer
    beyond 32 bits, a text with U+0000 or a lone surrogate. *)

From Stdlib Require Import ZArith Ascii String.
From stdpp Require Import gmap strings list sorting pretty.

Local Open Scope Z_scope.
#[local] Set Warnings "-register-all".

(** ** JavaScript strings *)

Module JS.

(** The character U+0022, which cannot be written inside a literal here. *)
Definition dquote : ascii := "034"%char.

(** [q s] is [s] with every apostrophe turned into a double quote: it lets
    JSON text be written as a literal. *)
Fixpoint q (s : string) : string :=
  match s with
  | EmptyString => EmptyString
  | String c s' => String (if Ascii.eqb c "'" then dquote else c) (q s')
  end.

(** [s.startsWith(p)], and what follows the prefix. *)
Fixpoint strip_prefix (p s : string) : option string :=
  match p with
  | EmptyString => Some s
  | String a p' =>
      match s with
      | String b s' => if Ascii.eqb a b then strip_prefix p' s' else None
      | EmptyString => None
      end
  end.

Definition startsWith (s p : string) : bool := bool_decide (is_Some (strip_prefix p s)).

(** Text of ASCII characters other than U+0000. *)
Fixpoint plain (s : string) : bool :=
  match s with
  | EmptyString => true
  | String c s' => (0 <? N_of_ascii c)%N && (N_of_ascii c <? 128)%N && plain s'
  end.

(** Whether [a] and [b] are the first two of the three bytes that stand for
    a surrogate (U+D800 to U+DFFF) that is not one half of a pair: a pair is
    one code point, of four bytes. *)
Definition lone_surrogate (a b : ascii) : bool :=
  Ascii.eqb a "237" && (160 <=? N_of_ascii b)%N.

(** UTF-8 bytes of a code point (surrogates are encoded like any other
    three-byte code point). *)
Definition byte_of (n : N) : ascii := ascii_of_N (n mod 256)%N.

Definition utf8 (cp : N) : string :=
  let cont (n : N) := byte_of (128 + n mod 64)%N in
  (if cp <? 128 then String (byte_of cp) EmptyString
   else if cp <? 2048 then
     String (byte_of (192 + cp / 64)) (String (cont cp) EmptyString)
   else if cp <? 65536 then
     String (byte_of (224 + cp / 4096))
       (String (cont (cp / 64)) (String (cont cp) EmptyString))
   else
     String (byte_of (240 + cp / 262144))
       (String (cont (cp / 4096)) (String (cont (cp / 64)) (String (cont cp) EmptyString))))%N.

(** ECMAScript's WhiteSpace and LineTerminator code points, the characters
    [String.prototype.trim] removes. *)
Definition white_space_code_points : list N :=
  [9; 10; 11; 12; 13; 32; 160; 5760;
   8192; 8193; 8194; 8195; 8196; 8197; 8198; 8199; 8200; 8201; 8202;
   8232; 8233; 8239; 8287; 12288; 65279]%N.

Definition white_space : list string := utf8 <$> white_space_code_points.

(** Length of the first token of [tokens] that [s] starts with. *)
Fixpoint token_length (tokens : list string) (s : string) : option nat :=
  match tokens with
  | [] => None
  | t :: ts => if startsWith s t then Some (String.length t) else token_length ts s
  end.

(** Drops leading tokens; [skip] counts the bytes of the current token that
    are still to be dropped. *)
Fixpoint drop_tokens (tokens : list string) (skip : nat) (s : string) : string :=
  match s with
  | EmptyString => EmptyString
  | String _ s' =>
      match skip with
      | S k => drop_tokens tokens k s'
      | O =>
          match token_length tokens s with
          | Some (S k) => drop_tokens tokens k s'
          | _ => s
          end
      end
  end.

Definition trimStart (s : string) : string := drop_tokens white_space 0 s.

Definition trimEnd (s : string) : string :=
  String.rev (drop_tokens (String.rev <$> white_space) 0 (String.rev s)).

(** [s.trim()] *)
Definition trim (s : string) : string := trimEnd (trimStart s).

(** [s.replace(/p1|p2|.../g, "")]: at each position the alternatives are tried
    in order, a match is removed and the scan resumes after it. *)
Fixpoint remove_all (alternatives : list string) (skip : nat) (s : string) : string :=
  match s with
  | EmptyString => EmptyString
  | String c s' =>
      match skip with
      | S k => remove_all alternatives k s'
      | O =>
          match token_length alternatives s with
          | Some (S k) => remove_all alternatives k s'
          | _ => String c (remove_all alternatives 0 s')
          end
      end
  end.

(** [xs.join(sep)] on an array of strings. *)
Fixpoint join (sep : string) (xs : list string) : string :=
  match xs with
  | [] => EmptyString
  | [x] => x
  | x :: rest => x +:+ sep +:+ join sep rest
  end.

(** ** JavaScript values

    The values JSON text denotes, which are also the values a Socket.io
    payload carries. A number is kept as the decimal [mant * 10 ^ expo] it
    was written as; the double it denotes is [to_double] of it, and that is
    what ToBoolean tests and Number::toString prints. An object is the list
    of its own properties in their order. *)

Record number := Number { mant : Z; expo : Z }.

(** A double: zero, an infinity, or [m * 2 ^ e] with its sign, where
    [0 < m < 2 ^ 53] and [-1074 <= e <= 971]. *)
Inductive double :=
| Zero
| Finite (negative : bool) (m e : Z)
| Infinite (negative : bool).

(** [floor (log2 (num / den))], for positive [num] and [den]. *)
Definition floor_log2 (num den : Z) : Z :=
  let l := Z.log2 num - Z.log2 den in
  let reached := if 0 <=? l then den * 2 ^ l <=? num else den <=? num * 2 ^ (- l) in
  if reached then l else l - 1.

(** [n / d] rounded to the nearest integer, ties to even. *)
Definition round_half_even (n d : Z) : Z :=
  let q := n / d in
  let r := n mod d in
  if (d <? 2 * r) || ((2 * r =? d) && Z.odd q) then q + 1 else q.

(** The double a decimal denotes: the nearest one, ties to even. The first
    two tests only spare the computation of a huge power: above [2 ^ 1100]
    every number rounds to an infinity, below [2 ^ -1100] to zero. *)
Definition to_double (x : number) : double :=
  let a := Z.abs (mant x) in
  let negative := mant x <? 0 in
  if a =? 0 then Zero
  else if (0 <=? expo x) && (1100 <? Z.log2 a + 3 * expo x) then Infinite negative
  else if (expo x <? 0) && (Z.log2 a + 1 + 3 * expo x <? -1100) then Zero
  else
    let num := if 0 <=? expo x then a * 10 ^ expo x else a in
    let den := if 0 <=? expo x then 1 else 10 ^ (- expo x) in
    let e := Z.max (floor_log2 num den - 52) (-1074) in
    let m :=
      if 0 <=? e then round_half_even num (den * 2 ^ e)
      else round_half_even (num * 2 ^ (- e)) den in
    let e := if m =? 2 ^ 53 then e + 1 else e in
    let m := if m =? 2 ^ 53 then 2 ^ 52 else m in
    if m =? 0 then Zero
    else if 971 <? e then Infinite negative
    else Finite negative m e.

Inductive value :=
| VNull
| VBool (b : bool)
| VNum (n : number)
| VStr (s : string)
| VArr (xs : list value)
| VObj (props : list (string * value)).

(** ToBoolean *)
Definition truthy (v : value) : bool :=
  match v with
  | VNull => false
  | VBool b => b
  | VNum n => match to_double n with Zero => false | _ => true end
  | VStr s => negb (String.eqb s EmptyString)
  | VArr _ | VObj _ => true
  end.

Fixpoint lookup_prop (k : string) (props : list (string * value)) : option value :=
  match props with
  | [] => None
  | (k', v) :: rest => if String.eqb k k' then Some v else lookup_prop k rest
  end.

(** [v.k]: [None] is [undefined]; a value that is no object has none of the
    properties read by the pipeline. *)
Definition get (v : value) (k : string) : option value :=
  match v with
  | VObj props => lookup_prop k props
  | _ => None
  end.

(** [x ?? d] *)
Definition nullish (x : option value) (d : value) : value :=
  match x with
  | None | Some VNull => d
  | Some v => v
  end.

(** Number.isInteger, and the integer a number denotes. *)
Definition to_integer (n : number) : option Z :=
  match to_double n with
  | Zero => Some 0
  | Finite negative m e =>
      let sign := if negative then -1 else 1 in
      if 0 <=? e then Some (sign * (m * 2 ^ e))
      else if m mod 2 ^ (- e) =? 0 then Some (sign * (m / 2 ^ (- e)))
      else None
  | Infinite _ => None
  end.

(** ** JSON.parse

    A recursive-descent reader of the JSON grammar (ECMA-404). Nesting and
    sequencing are bounded by [fuel]; [JSON_parse] supplies enough of it
    (see [parse_value_fuel]). *)

Inductive parsed (A : Type) :=
| OutOfFuel
| SyntaxError
| Parsed (a : A) (rest : string).
Arguments OutOfFuel {A}.
Arguments SyntaxError {A}.
Arguments Parsed {A} a rest.

Definition is_json_ws (c : ascii) : bool :=
  match c with
  | "009" | "010" | "013" | " " => true
  | _ => false
  end%char.

Fixpoint skip_ws (s : string) : string :=
  match s with
  | String c s' => if is_json_ws c then skip_ws s' else s
  | EmptyString => s
  end.

Definition digit_value (c : ascii) : option Z :=
  let n := Z.of_N (N_of_ascii c) in
  if (48 <=? n) && (n <=? 57) then Some (n - 48) else None.

Definition hex_value (c : ascii) : option N :=
  let n := N_of_ascii c in
  (if (48 <=? n) && (n <=? 57) then Some (n - 48)
   else if (65 <=? n) && (n <=? 70) then Some (n - 55)
   else if (97 <=? n) && (n <=? 102) then Some (n - 87)
   else None)%N.

(** [s] without its first character, when that is [c]. *)
Definition expect (c : ascii) (s : string) : option string :=
  match s with
  | String c' rest => if Ascii.eqb c c' then Some rest else None
  | EmptyString => None
  end.

(** Reads digits: the digits appended to [acc], how many were read, the
    rest. *)
Fixpoint read_digits (s : string) (acc count : Z) : Z * Z * string :=
  match s with
  | String c s' =>
      match digit_value c with
      | Some d => read_digits s' (10 * acc + d) (count + 1)
      | None => (acc, count, s)
      end
  | EmptyString => (acc, count, s)
  end.

(** An array index: the decimal text, without leading zero, of an integer
    below [2 ^ 32 - 1]. *)
Definition array_index (k : string) : option Z :=
  match k with
  | EmptyString => None
  | String c rest =>
      let '(n, _, others) := read_digits k 0 0 in
      if negb (String.eqb others EmptyString) then None
      else if Ascii.eqb c "0" && negb (String.eqb rest EmptyString) then None
      else if n <? 4294967295 then Some n else None
  end.

(** The order of the own properties of an object: the array indices first,
    in ascending order, then the other keys as they were created. [before
    k k'] tells whether a new key [k] comes before the key [k']. *)
Definition before (k k' : string) : bool :=
  match array_index k, array_index k' with
  | Some i, Some j => i <? j
  | Some _, None => true
  | None, _ => false
  end.

(** [o[k] = v], on properties in their order: a property the object has
    keeps its place and takes the value, a new one goes to its place. *)
Fixpoint set_prop (k : string) (v : value) (props : list (string * value)) :
    list (string * value) :=
  match props with
  | [] => [(k, v)]
  | (k', v') :: rest =>
      if String.eqb k k' then (k, v) :: rest
      else if before k k' then (k, v) :: props
      else (k', v') :: set_prop k v rest
  end.

(** The optional fraction of a number: a point and one digit or more. The
    digits are appended to [int]; the result counts them. *)
Definition parse_fraction (int : Z) (s : string) : option (Z * Z * string) :=
  match expect "." s with
  | Some s' =>
      let '(m, k, rest) := read_digits s' int 0 in
      if k =? 0 then None else Some (m, k, rest)
  | None => Some (int, 0, s)
  end.

(** The optional exponent of a number: [e] or [E], an optional sign and one
    digit or more. *)
Definition parse_exponent (s : string) : option (Z * string) :=
  match s with
  | String c s' =>
      if Ascii.eqb c "e" || Ascii.eqb c "E" then
        let '(neg, s'') :=
          match expect "-" s', expect "+" s' with
          | Some t, _ => (true, t)
          | None, Some t => (false, t)
          | None, None => (false, s')
          end in
        let '(e, k, rest) := read_digits s'' 0 0 in
        if k =? 0 then None else Some (if neg then - e else e, rest)
      else Some (0, s)
  | EmptyString => Some (0, s)
  end.

(** The integer part, [0] or a non-zero digit and more digits, followed by
    the fraction and the exponent. *)
Definition parse_unsigned (s : string) : option (number * string) :=
  match s with
  | EmptyString => None
  | String c s' =>
      d ← digit_value c;
      let '(int, _, s1) := if d =? 0 then (0, 0, s') else read_digits s' d 1 in
      '(m, fracs, s2) ← parse_fraction int s1;
      '(e, rest) ← parse_exponent s2;
      Some (Number m (e - fracs), rest)
  end.

(** A JSON number: an optional minus sign and an unsigned number. *)
Definition parse_number (s : string) : option (number * string) :=
  match expect "-" s with
  | Some s' =>
      '(n, rest) ← parse_unsigned s'; Some (Number (- mant n) (expo n), rest)
  | None => parse_unsigned s
  end.

(** A UTF-16 code unit read from a [\uXXXX] escape; [hi] is a high surrogate
    waiting for its low half, [acc] the bytes read so far, reversed. *)
Definition push_code_unit (u : N) (hi : option N) (acc : string) : option N * string :=
  let is_high := ((55296 <=? u) && (u <? 56320))%N in
  let is_low := ((56320 <=? u) && (u <? 57344))%N in
  match hi with
  | Some h =>
      if is_low then
        (None, String.rev_app (utf8 (65536 + (h - 55296) * 1024 + (u - 56320))%N) acc)
      else if is_high then (Some u, String.rev_app (utf8 h) acc)
      else (None, String.rev_app (utf8 u) (String.rev_app (utf8 h) acc))
  | None => if is_high then (Some u, acc) else (None, String.rev_app (utf8 u) acc)
  end.

Definition flush (hi : option N) (acc : string) : string :=
  match hi with
  | Some h => String.rev_app (utf8 h) acc
  | None => acc
  end.

Definition simple_escape (c : ascii) : option ascii :=
  match c with
  | "034" => Some "034"
  | "\" => Some "\"
  | "/" => Some "/"
  | "b" => Some "008"
  | "f" => Some "012"
  | "n" => Some "010"
  | "r" => Some "013"
  | "t" => Some "009"
  | _ => None
  end%char.

(** The characters of a string literal after its opening quote. *)
Fixpoint parse_string_body (s : string) (hi : option N) (acc : string) :
    option (string * string) :=
  match s with
  | EmptyString => None
  | String c s' =>
      if Ascii.eqb c dquote then Some (String.rev (flush hi acc), s')
      else if Ascii.eqb c "\" then
        match s' with
        | EmptyString => None
        | String e s'' =>
            if Ascii.eqb e "u" then
              match s'' with
              | String a (String b (String c (String d rest))) =>
                  match hex_value a, hex_value b, hex_value c, hex_value d with
                  | Some a, Some b, Some c, Some d =>
                      let '(hi', acc') :=
                        push_code_unit (a * 4096 + b * 256 + c * 16 + d)%N hi acc in
                      parse_string_body rest hi' acc'
                  | _, _, _, _ => None
                  end
              | _ => None
              end
            else
              match simple_escape e with
              | Some ch => parse_string_body s'' None (String ch (flush hi acc))
              | None => None
              end
        end
      else if (N_of_ascii c <? 32)%N then None
      else parse_string_body s' None (String c (flush hi acc))
  end.

(** A literal name ([true], [false], [null]) at the head of [s]. *)
Definition parse_literal (name : string) (v : value) (s : string) : parsed value :=
  match strip_prefix name s with
  | Some rest => Parsed v rest
  | None => SyntaxError
  end.

Fixpoint parse_value (fuel : nat) (s : string) : parsed value :=
  match fuel with
  | O => OutOfFuel
  | S fuel =>
      match skip_ws s with
      | EmptyString => SyntaxError
      | String c s' =>
          if Ascii.eqb c "[" then
            match expect "]" (skip_ws s') with
            | Some rest => Parsed (VArr []) rest
            | None =>
                match parse_elements fuel s' [] with
                | Parsed xs rest => Parsed (VArr xs) rest
                | OutOfFuel => OutOfFuel
                | SyntaxError => SyntaxError
                end
            end
          else if Ascii.eqb c "{" then
            match expect "}" (skip_ws s') with
            | Some rest => Parsed (VObj []) rest
            | None =>
                match parse_members fuel s' [] with
                | Parsed props rest => Parsed (VObj props) rest
                | OutOfFuel => OutOfFuel
                | SyntaxError => SyntaxError
                end
            end
          else if Ascii.eqb c dquote then
            match parse_string_body s' None EmptyString with
            | Some (str, rest) => Parsed (VStr str) rest
            | None => SyntaxError
            end
          else if Ascii.eqb c "t" then parse_literal "true" (VBool true) (String c s')
          else if Ascii.eqb c "f" then parse_literal "false" (VBool false) (String c s')
          else if Ascii.eqb c "n" then parse_literal "null" VNull (String c s')
          else
            match parse_number (String c s') with
            | Some (n, rest) => Parsed (VNum n) rest
            | None => SyntaxError
            end
      end
  end
(** The elements of an array after its opening bracket, [acc] in reverse. *)
with parse_elements (fuel : nat) (s : string) (acc : list value) : parsed (list value) :=
  match fuel with
  | O => OutOfFuel
  | S fuel =>
      match parse_value fuel s with
      | Parsed v rest =>
          match expect "," (skip_ws rest), expect "]" (skip_ws rest) with
          | Some rest', _ => parse_elements fuel rest' (v :: acc)
          | None, Some rest' => Parsed (rev (v :: acc)) rest'
          | None, None => SyntaxError
          end
      | OutOfFuel => OutOfFuel
      | SyntaxError => SyntaxError
      end
  end
(** The members of an object after its opening brace, in the order of its
    properties; a repeated key keeps its place and takes the last value. *)
with parse_members (fuel : nat) (s : string) (acc : list (string * value)) :
    parsed (list (string * value)) :=
  match fuel with
  | O => OutOfFuel
  | S fuel =>
      match expect dquote (skip_ws s) with
      | Some s' =>
          match parse_string_body s' None EmptyString with
          | Some (k, rest) =>
              match expect ":" (skip_ws rest) with
              | Some rest' =>
                  match parse_value fuel rest' with
                  | Parsed v rest'' =>
                      match expect "," (skip_ws rest''), expect "}" (skip_ws rest'') with
                      | Some t, _ => parse_members fuel t (set_prop k v acc)
                      | None, Some t => Parsed (set_prop k v acc) t
                      | None, None => SyntaxError
                      end
                  | OutOfFuel => OutOfFuel
                  | SyntaxError => SyntaxError
                  end
              | None => SyntaxError
              end
          | None => SyntaxError
          end
      | None => SyntaxError
      end
  end.

(** [JSON.parse(s)]; [None] is the SyntaxError it throws. *)
Definition JSON_parse (s : string) : option value :=
  match parse_value (2 * String.length s + 1) s with
  | Parsed v rest =>
      match skip_ws rest with
      | EmptyString => Some v
      | _ => None
      end
  | _ => None
  end.

(** ** JSON.stringify *)

Definition hex_digit (n : N) : ascii :=
  (if n <? 10 then ascii_of_N (48 + n) else ascii_of_N (87 + n))%N.

Definition quote_char (c : ascii) : string :=
  let n := N_of_ascii c in
  if Ascii.eqb c dquote then String "\" (String dquote EmptyString)
  else if Ascii.eqb c "\" then "\\"
  else if Ascii.eqb c "008" then "\b"
  else if Ascii.eqb c "012" then "\f"
  else if Ascii.eqb c "010" then "\n"
  else if Ascii.eqb c "013" then "\r"
  else if Ascii.eqb c "009" then "\t"
  else if (n <? 32)%N then
    "\u00" +:+ String (hex_digit (n / 16)) (String (hex_digit (n mod 16)) EmptyString)
  else String c EmptyString.

(** UnicodeEscape of the surrogate whose bytes are 0xED, [b] and [c]. *)
Definition escape_surrogate (b c : ascii) : string :=
  let low := ((N_of_ascii b mod 64) * 64 + N_of_ascii c mod 64)%N in
  "\ud" +:+
  String (hex_digit (low / 256)) (String (hex_digit (low / 16 mod 16))
    (String (hex_digit (low mod 16)) EmptyString)).

(** A lone surrogate is escaped, every other character goes through
    [quote_char]. *)
Fixpoint quote_body (s : string) : string :=
  match s with
  | EmptyString => EmptyString
  | String a s1 =>
      match s1 with
      | String b s2 =>
          if lone_surrogate a b then
            match s2 with
            | String c s3 => escape_surrogate b c +:+ quote_body s3
            | EmptyString => escape_surrogate b "128"
            end
          else quote_char a +:+ quote_body s1
      | EmptyString => quote_char a
      end
  end.

(** QuoteJSONString *)
Definition quote (s : string) : string :=
  String dquote (quote_body s +:+ String dquote EmptyString).

Fixpoint zeros (n : nat) : string :=
  match n with
  | O => EmptyString
  | S n => String "0" (zeros n)
  end.

(** Whether a double is the positive [m * 2 ^ e]. *)
Definition is_finite (d : double) (m e : Z) : bool :=
  match d with
  | Finite false m' e' => (m' =? m) && (e' =? e)
  | _ => false
  end.

(** [xn / xd < 10 ^ n] *)
Definition below_power (xn xd n : Z) : bool :=
  if 0 <=? n then xn <? xd * 10 ^ n else xn * 10 ^ (- n) <? xd.

Fixpoint first_power_above (fuel : nat) (xn xd n : Z) : Z :=
  match fuel with
  | O => n
  | S fuel => if below_power xn xd n then n else first_power_above fuel xn xd (n + 1)
  end.

(** The least [n] with [xn / xd < 10 ^ n]. *)
Definition decimal_exponent (xn xd : Z) : Z :=
  first_power_above 6 xn xd ((Z.log2 xn - Z.log2 xd) * 30103 / 100000 - 1).

(** [floor (xn / xd / 10 ^ p)] *)
Definition scaled (xn xd p : Z) : Z :=
  if 0 <=? p then xn / (xd * 10 ^ p) else (xn * 10 ^ (- p)) / xd.

(** [xn / xd] compared with [(2 * s + 1) / 2 * 10 ^ p], the middle between
    [s * 10 ^ p] and the next. *)
Definition against_middle (xn xd s p : Z) : comparison :=
  if 0 <=? p then 2 * xn ?= (2 * s + 1) * 10 ^ p * xd
  else 2 * xn * 10 ^ (- p) ?= (2 * s + 1) * xd.

(** The candidates with [k] digits for the double [m * 2 ^ e]: [(s, n)]
    stands for [s * 10 ^ (n - k)]. Those that denote the double are kept, the
    closest first, the even one first when they are as close. *)
Definition candidates (m e k : Z) : list (Z * Z) :=
  let xn := if 0 <=? e then m * 2 ^ e else m in
  let xd := if 0 <=? e then 1 else 2 ^ (- e) in
  let n := decimal_exponent xn xd in
  let low := scaled xn xd (n - k) in
  let high := if low + 1 =? 10 ^ k then (10 ^ (k - 1), n + 1) else (low + 1, n) in
  let ordered :=
    match against_middle xn xd low (n - k) with
    | Lt => [(low, n); high]
    | Gt => [high; (low, n)]
    | Eq => if Z.even low then [(low, n); high] else [high; (low, n)]
    end in
  List.filter (λ c, is_finite (to_double (Number c.1 (c.2 - k))) m e
                    && (10 ^ (k - 1) <=? c.1)) ordered.

Fixpoint shortest_from (fuel : nat) (m e k : Z) : Z * Z * Z :=
  match fuel with
  | O => (m, k, k)
  | S fuel =>
      match candidates m e k with
      | (s, n) :: _ => (s, k, n)
      | [] => shortest_from fuel m e (k + 1)
      end
  end.

(** The digits [s], their number [k] and the exponent [n] of Number::toString:
    [k] is as small as possible. Seventeen digits always suffice. *)
Definition shortest (m e : Z) : Z * Z * Z := shortest_from 17 m e 1.

(** Number::toString *)
Definition double_to_string (d : double) : string :=
  match d with
  | Zero => "0"
  | Infinite negative => if negative then "-Infinity" else "Infinity"
  | Finite negative m e =>
      let '(s, k, n) := shortest m e in
      let digits := pretty s in
      let sign := if negative then "-" else "" in
      sign +:+
      (if (k <=? n) && (n <=? 21) then digits +:+ zeros (Z.to_nat (n - k))
       else if (0 <? n) && (n <=? 21) then
         String.substring 0 (Z.to_nat n) digits +:+ "." +:+
         String.substring (Z.to_nat n) (Z.to_nat (k - n)) digits
       else if (-6 <? n) && (n <=? 0) then "0." +:+ zeros (Z.to_nat (- n)) +:+ digits
       else
         let exponent := (if n - 1 <? 0 then "-" else "+") +:+ pretty (Z.abs (n - 1)) in
         if k =? 1 then digits +:+ "e" +:+ exponent
         else
           String.substring 0 1 digits +:+ "." +:+
           String.substring 1 (Z.to_nat (k - 1)) digits +:+ "e" +:+ exponent)
  end.

(** Number::toString of the double a number denotes *)
Definition number_to_string (n : number) : string := double_to_string (to_double n).

(** [JSON.stringify(v)]; a number that is not finite is printed as null. *)
Fixpoint JSON_stringify (v : value) : string :=
  match v with
  | VNull => "null"
  | VBool true => "true"
  | VBool false => "false"
  | VNum n =>
      match to_double n with
      | Infinite _ => "null"
      | _ => number_to_string n
      end
  | VStr s => quote s
  | VArr xs => "[" +:+ join "," (map JSON_stringify xs) +:+ "]"
  | VObj props =>
      "{" +:+
      join "," (map (λ kv, quote (fst kv) +:+ ":" +:+ JSON_stringify (snd kv)) props)
      +:+ "}"
  end.

End JS.

(** ** Payload schemas ([server/index.ts], Zod)

    A Zod schema is embedded as its [safeParse]: [None] when
    [parseResult.success] is false, the parsed data otherwise. A field
    validator takes the property as [JS.get] returns it. *)

Inductive SessionSourceType := MIC | TAB.
Inductive SessionStatus := RECORDING | PAUSED | PROCESSING | COMPLETED | ERROR.

Global Instance SessionSourceType_eq_dec : EqDecision SessionSourceType.
Proof. solve_decision. Defined.
Global Instance SessionStatus_eq_dec : EqDecision SessionStatus.
Proof. solve_decision. Defined.

Module z.

(** [z.string()] *)
Definition string (v : option JS.value) : option string :=
  match v with
  | Some (JS.VStr s) => Some s
  | _ => None
  end.

Definition is_hex (c : ascii) : bool := bool_decide (is_Some (JS.hex_value c)).

Fixpoint matches_shape (shape s : String.string) : bool :=
  match shape, s with
  | EmptyString, EmptyString => true
  | String "x" shape', String c s' => is_hex c && matches_shape shape' s'
  | String "-" shape', String c s' => Ascii.eqb c "-" && matches_shape shape' s'
  | _, _ => false
  end.

(** The format [.uuid()] accepts: groups of 8, 4, 4, 4 and 12 hexadecimal
    digits separated by hyphens. *)
Definition uuid (s : String.string) : bool :=
  matches_shape "xxxxxxxx-xxxx-xxxx-xxxx-xxxxxxxxxxxx" s.

(** [z.string().uuid()] *)
Definition string_uuid (v : option JS.value) : option String.string :=
  s ← string v; if uuid s then Some s else None.

(** [z.string().min(1)] *)
Definition string_min1 (v : option JS.value) : option String.string :=
  s ← string v; if String.eqb s EmptyString then None else Some s.

(** [z.string().optional()] *)
Definition string_optional (v : option JS.value) : option (option String.string) :=
  match v with
  | None => Some None
  | Some (JS.VStr s) => Some (Some s)
  | Some _ => None
  end.

(** [z.enum(["MIC", "TAB"])] *)
Definition enum_MIC_TAB (v : option JS.value) : option SessionSourceType :=
  s ← string v;
  if String.eqb s "MIC" then Some MIC else if String.eqb s "TAB" then Some TAB else None.

(** [z.number().int().nonnegative()] *)
Definition number_int_nonnegative (v : option JS.value) : option Z :=
  match v with
  | Some (JS.VNum n) =>
      i ← JS.to_integer n; if 0 <=? i then Some i else None
  | _ => None
  end.

(** [z.object({...})] accepts objects only (and strips unknown keys). *)
Definition object (v : JS.value) : option JS.value :=
  match v with
  | JS.VObj _ => Some v
  | _ => None
  end.

End z.

Module SessionStartSchema.
Record data := Data {
  sessionId : string;
  userId : string;
  title : option string;
  sourceType : SessionSourceType;
}.
Definition safeParse (payload : JS.value) : option data :=
  o ← z.object payload;
  sessionId ← z.string_uuid (JS.get o "sessionId");
  userId ← z.string (JS.get o "userId");
  title ← z.string_optional (JS.get o "title");
  sourceType ← z.enum_MIC_TAB (JS.get o "sourceType");
  Some (Data sessionId userId title sourceType).
End SessionStartSchema.

Module AudioChunkSchema.
Record data := Data {
  sessionId : string;
  index : Z;
  audioBase64 : string;
  mimeType : string;
  startMs : Z;
  endMs : Z;
}.
Definition safeParse (payload : JS.value) : option data :=
  o ← z.object payload;
  sessionId ← z.string_uuid (JS.get o "sessionId");
  index ← z.number_int_nonnegative (JS.get o "index");
  audioBase64 ← z.string_min1 (JS.get o "audioBase64");
  mimeType ← z.string_min1 (JS.get o "mimeType");
  startMs ← z.number_int_nonnegative (JS.get o "startMs");
  endMs ← z.number_int_nonnegative (JS.get o "endMs");
  Some (Data sessionId index audioBase64 mimeType startMs endMs).
End AudioChunkSchema.

Module SessionControlSchema.
Record data := Data { sessionId : string }.
Definition safeParse (payload : JS.value) : option data :=
  o ← z.object payload;
  sessionId ← z.string_uuid (JS.get o "sessionId");
  Some (Data sessionId).
End SessionControlSchema.

(** ** The database ([prisma/migrations], [src/lib/db/sessions.ts])

    The tables of the migration. [Session] has the primary key [id], so it is
    a map from identifiers; [TranscriptChunk] and [Summary] are lists of rows
    in insertion order, and the unique index [Summary_sessionId_key] is kept
    by the operations (see [unique_summaries]). Of [User] only the primary
    keys matter here, as the target of [Session_userId_fkey]. A generated
    primary key is drawn from the counter [nextId]. *)

Record Session := {
  Session_id : string;
  Session_userId : string;
  Session_title : option string;
  Session_sourceType : SessionSourceType;
  Session_status : SessionStatus;
  Session_startedAt : Z;
  Session_completedAt : option Z;
  Session_createdAt : Z;
  Session_updatedAt : Z;
}.

Record TranscriptChunk := {
  Chunk_id : string;
  Chunk_sessionId : string;
  Chunk_index : Z;
  Chunk_text : string;
  Chunk_startMs : Z;
  Chunk_endMs : Z;
  Chunk_createdAt : Z;
}.

Record Summary := {
  Summary_id : string;
  Summary_sessionId : string;
  Summary_content : string;
  Summary_keyPoints : option string;
  Summary_actionItems : option string;
  Summary_decisions : option string;
  Summary_createdAt : Z;
  Summary_updatedAt : Z;
}.

Record SessionWithRelations := {
  session : Session;
  transcriptChunks : list TranscriptChunk;
  summary : option Summary;
}.

Global Instance Session_eq_dec : EqDecision Session.
Proof. solve_decision. Defined.
Global Instance TranscriptChunk_eq_dec : EqDecision TranscriptChunk.
Proof. solve_decision. Defined.
Global Instance Summary_eq_dec : EqDecision Summary.
Proof. solve_decision. Defined.

Inductive Error :=
| P2002   (* unique constraint failed *)
| P2003   (* foreign key constraint failed *)
| P2025   (* record to update or to find does not exist *)
| PrismaValidationError   (* an argument of the wrong type or range *)
| InvalidByteSequence   (* a text value holds U+0000 (Postgres 22021) or a lone surrogate *)
| ConnectionError   (* the database cannot be reached *)
| GeminiError.   (* generateContent rejected *)

Inductive Result (A : Type) :=
| Ok (a : A)
| Throw (e : Error).
Arguments Ok {A} a.
Arguments Throw {A} e.

Module prisma.

Record Db := {
  users : gset string;
  sessions : gmap string Session;
  chunks : list TranscriptChunk;
  summaries : list Summary;
  nextId : nat;
}.

Definition fresh_id (db : Db) : string := "c" +:+ pretty (nextId db).

Definition with_sessions (db : Db) (m : gmap string Session) : Db :=
  {| users := users db; sessions := m; chunks := chunks db;
     summaries := summaries db; nextId := nextId db |}.

(** The columns typed INTEGER hold 32-bit values. *)
Definition fits_Int (n : Z) : bool := (- 2147483648 <=? n) && (n <=? 2147483647).

(** The columns typed TEXT hold well-formed text without U+0000: a text
    value with U+0000 or with a lone surrogate is refused, whether it is to
    be stored or compared with. *)
Fixpoint fits_TEXT (s : string) : bool :=
  match s with
  | EmptyString => true
  | String c s' =>
      negb (Ascii.eqb c "000")
      && negb match s' with
              | String b _ => JS.lone_surrogate c b
              | EmptyString => false
              end
      && fits_TEXT s'
  end.

(** A text that fits after any other: it fits and does not start with the
    second byte of a surrogate. *)
Definition fits_next (s : string) : bool := fits_TEXT (String "237" s).

Definition fits_TEXT_or_null (s : option string) : bool :=
  match s with
  | Some s => fits_TEXT s
  | None => true
  end.

(** [prisma.session.create({ data })]; [id] is generated when absent. *)
Definition session_create (id : option string) (userId : string) (title : option string)
    (sourceType : SessionSourceType) (status : SessionStatus)
    (now : Z) (db : Db) : Result Session * Db :=
  let id' := default (fresh_id db) id in
  if negb (fits_TEXT id' && fits_TEXT userId && fits_TEXT_or_null title) then
    (Throw InvalidByteSequence, db)
  else if bool_decide (is_Some (sessions db !! id')) then (Throw P2002, db)
  else if bool_decide (userId ∈ users db) then
    let row :=
      {| Session_id := id'; Session_userId := userId; Session_title := title;
         Session_sourceType := sourceType; Session_status := status;
         Session_startedAt := now; Session_completedAt := None;
         Session_createdAt := now; Session_updatedAt := now |} in
    (Ok row,
     {| users := users db; sessions := <[id' := row]> (sessions db);
        chunks := chunks db; summaries := summaries db;
        nextId := match id with Some _ => nextId db | None => S (nextId db) end |})
  else (Throw P2003, db).

Definition set_status (status : SessionStatus) (now : Z) (row : Session) : Session :=
  {| Session_id := Session_id row; Session_userId := Session_userId row;
     Session_title := Session_title row; Session_sourceType := Session_sourceType row;
     Session_status := status; Session_startedAt := Session_startedAt row;
     Session_completedAt := Session_completedAt row;
     Session_createdAt := Session_createdAt row; Session_updatedAt := now |}.

Definition set_completed (status : SessionStatus) (completedAt now : Z) (row : Session) :
    Session :=
  {| Session_id := Session_id row; Session_userId := Session_userId row;
     Session_title := Session_title row; Session_sourceType := Session_sourceType row;
     Session_status := status; Session_startedAt := Session_startedAt row;
     Session_completedAt := Some completedAt;
     Session_createdAt := Session_createdAt row; Session_updatedAt := now |}.

(** [prisma.session.updateMany({ where: { id }, data: { status } })]: the
    number of rows updated, none when the row is missing. *)
Definition session_updateMany (id : string) (status : SessionStatus)
    (now : Z) (db : Db) : Result nat * Db :=
  match sessions db !! id with
  | Some row => (Ok 1%nat, with_sessions db (<[id := set_status status now row]> (sessions db)))
  | None => (Ok 0%nat, db)
  end.

(** [prisma.session.update({ where: { id }, data: { status, completedAt } })] *)
Definition session_update (id : string) (status : SessionStatus) (completedAt : Z)
    (now : Z) (db : Db) : Result Session * Db :=
  match sessions db !! id with
  | Some row =>
      let row' := set_completed status completedAt now row in
      (Ok row', with_sessions db (<[id := row']> (sessions db)))
  | None => (Throw P2025, db)
  end.

(** [prisma.transcriptChunk.create({ data })] *)
Definition transcriptChunk_create (sessionId : string) (index : Z) (text : string)
    (startMs endMs : Z) (now : Z) (db : Db) : Result TranscriptChunk * Db :=
  if negb (fits_Int index && fits_Int startMs && fits_Int endMs) then
    (Throw PrismaValidationError, db)
  else if negb (fits_TEXT sessionId && fits_TEXT text) then (Throw InvalidByteSequence, db)
  else if bool_decide (is_Some (sessions db !! sessionId)) then
    let row :=
      {| Chunk_id := fresh_id db; Chunk_sessionId := sessionId; Chunk_index := index;
         Chunk_text := text; Chunk_startMs := startMs; Chunk_endMs := endMs;
         Chunk_createdAt := now |} in
    (Ok row,
     {| users := users db; sessions := sessions db;
        chunks := chunks db ++ [row]; summaries := summaries db;
        nextId := S (nextId db) |})
  else (Throw P2003, db).

(** Rows ordered by [index] ascending. Rows of equal index stay in insertion
    order here; SQL leaves their order open. *)
Definition index_le (a b : TranscriptChunk) : Prop := Chunk_index a ≤ Chunk_index b.

Global Instance index_le_dec : RelDecision index_le.
Proof. intros a b. unfold index_le. apply _. Defined.

Global Instance index_le_trans : Transitive index_le.
Proof. intros a b c. unfold index_le. lia. Qed.

Global Instance index_le_total : Total index_le.
Proof. intros a b. unfold index_le. lia. Qed.

(** Strictly ascending indices. *)
Definition index_lt (a b : TranscriptChunk) : Prop := Chunk_index a < Chunk_index b.

Definition chunks_of (sessionId : string) (rows : list TranscriptChunk) :
    list TranscriptChunk :=
  filter (λ c, Chunk_sessionId c = sessionId) rows.

(** What a stored chunk contributes to the transcript of its session: the
    row identifier, the offsets and the creation time play no part. *)
Definition indexed_text (c : TranscriptChunk) : Z * string :=
  (Chunk_index c, Chunk_text c).

(** [prisma.transcriptChunk.findMany({ where: { sessionId },
    orderBy: { index: "asc" } })] *)
Definition transcriptChunk_findMany (sessionId : string) (db : Db) :
    list TranscriptChunk :=
  merge_sort index_le (chunks_of sessionId (chunks db)).

Definition summaries_of (sessionId : string) (rows : list Summary) : list Summary :=
  filter (λ r, Summary_sessionId r = sessionId) rows.

Definition set_summary (content : string) (keyPoints actionItems decisions : option string)
    (now : Z) (row : Summary) : Summary :=
  {| Summary_id := Summary_id row; Summary_sessionId := Summary_sessionId row;
     Summary_content := content; Summary_keyPoints := keyPoints;
     Summary_actionItems := actionItems; Summary_decisions := decisions;
     Summary_createdAt := Summary_createdAt row; Summary_updatedAt := now |}.

(** [prisma.summary.upsert({ where: { sessionId }, update, create })];
    [update] and [create] carry the same four columns. The column [content]
    is a string: Prisma rejects any other value, and a text that does not
    fit its column. *)
Definition summary_upsert (sessionId : string) (content : JS.value)
    (keyPoints actionItems decisions : option string)
    (now : Z) (db : Db) : Result unit * Db :=
  match content with
  | JS.VStr content =>
  if negb (fits_TEXT sessionId && fits_TEXT content && fits_TEXT_or_null keyPoints
           && fits_TEXT_or_null actionItems && fits_TEXT_or_null decisions)
  then (Throw InvalidByteSequence, db)
  else
  match summaries_of sessionId (summaries db) with
  | _ :: _ =>
      (Ok (),
       {| users := users db; sessions := sessions db;
          chunks := chunks db;
          summaries :=
            (λ r, if bool_decide (Summary_sessionId r = sessionId)
                  then set_summary content keyPoints actionItems decisions now r
                  else r) <$> summaries db;
          nextId := nextId db |})
  | [] =>
      if bool_decide (is_Some (sessions db !! sessionId)) then
        let row :=
          {| Summary_id := fresh_id db; Summary_sessionId := sessionId;
             Summary_content := content; Summary_keyPoints := keyPoints;
             Summary_actionItems := actionItems; Summary_decisions := decisions;
             Summary_createdAt := now; Summary_updatedAt := now |} in
        (Ok (),
         {| users := users db; sessions := sessions db;
            chunks := chunks db;
            summaries := summaries db ++ [row]; nextId := S (nextId db) |})
      else (Throw P2003, db)
  end
  | _ => (Throw PrismaValidationError, db)
  end.

(** [prisma.session.findUniqueOrThrow({ where: { id }, include: {
    transcriptChunks: { orderBy: { index: "asc" } }, summary: true } })] *)
Definition session_findUniqueOrThrow (id : string) (db : Db) :
    Result SessionWithRelations :=
  match sessions db !! id with
  | Some row =>
      Ok {| session := row;
            transcriptChunks := transcriptChunk_findMany id db;
            summary := head (summaries_of id (summaries db)) |}
  | None => Throw P2025
  end.

(** The unique index [Summary_sessionId_key]. *)
Definition unique_summaries (db : Db) : Prop :=
  NoDup (Summary_sessionId <$> summaries db).

End prisma.

(** ** Handlers as computations

    What a handler can do: read and write the database, call the Gemini
    models, join a room, emit to its own socket and emit to a room. [World]
    is what persists between handlers; [sent] lists the events emitted and
    the requests made to Gemini, oldest first; [tick] counts the database
    round trips made so far. [Env] is what the outside decides: the answers
    of the two models (each a function of its request), the base64 decoder
    of [Buffer.from], the clock, and which database round trips fail. *)

Inductive Emitted :=
| session_error (message : string)
| session_status (sessionId : string) (status : SessionStatus)
| session_partialTranscript (sessionId : string) (index : Z) (text : string)
    (startMs endMs : Z)
| session_completed (sessionId : string) (session : SessionWithRelations).

Inductive Effect :=
| socket_emit (socket : string) (event : Emitted)
| io_to_emit (room : string) (event : Emitted)
| transcribe_request (audioBytes : list Byte.byte) (mimeType : string)
| summary_request (prompt : string).

Record Env := {
  transcribeModel : list Byte.byte → string → Result string;
  summaryModel : string → Result string;
  Buffer_from_base64 : string → list Byte.byte;
  clock : nat → Z;
  connection_fails : nat → bool;
}.

Record World := {
  db : prisma.Db;
  rooms : gmap string (gset string);
  sent : list Effect;
  tick : nat;
}.

Definition M (A : Type) : Type := World → Result A * World.

Global Instance M_ret : MRet M := λ A a w, (Ok a, w).

Global Instance M_bind : MBind M := λ A B f m w,
  match m w with
  | (Ok a, w') => f a w'
  | (Throw e, w') => (Throw e, w')
  end.

(** [try { body } catch { handler }] *)
Definition try_catch {A} (body handler : M A) : M A := λ w,
  match body w with
  | (Ok a, w') => (Ok a, w')
  | (Throw _, w') => handler w'
  end.

Definition with_db (w : World) (d : prisma.Db) : World :=
  {| db := d; rooms := rooms w; sent := sent w; tick := tick w |}.

Definition emit_effect (e : Effect) : M unit := λ w,
  (Ok (), {| db := db w; rooms := rooms w; sent := sent w ++ [e]; tick := tick w |}).

(** [socket.join(room)] *)
Definition socket_join (socket room : string) : M unit := λ w,
  (Ok (),
   {| db := db w;
      rooms := <[room := {[socket]} ∪ default ∅ (rooms w !! room)]> (rooms w);
      sent := sent w; tick := tick w |}).

Section Environment.
Variable env : Env.

(** [new Date()] *)
Definition new_Date : M Z := λ w, (Ok (clock env (tick w)), w).

(** One round trip to the database: it fails as a whole, leaving the
    database as it was, or runs the operation at the time of the clock. *)
Definition query {A} (op : Z → prisma.Db → Result A * prisma.Db) : M A := λ w,
  let w' := {| db := db w; rooms := rooms w; sent := sent w; tick := S (tick w) |} in
  if connection_fails env (tick w) then (Throw ConnectionError, w')
  else
    let '(r, d) := op (clock env (tick w)) (db w) in
    (r, with_db w' d).

Fixpoint sequence (ops : list (M unit)) : M unit :=
  match ops with
  | [] => mret ()
  | op :: rest => op;; sequence rest
  end.

(** [prisma.$transaction([...])]: the operations run in order and are
    committed together; when one of them or the commit fails, the database
    is left as it was before the first. *)
Definition transaction (ops : list (M unit)) : M unit := λ w,
  match (sequence ops;; query (λ _ d, (Ok (), d))) w with
  | (Ok _, w') => (Ok (), w')
  | (Throw e, w') => (Throw e, with_db w' (db w))
  end.

(** *** [src/lib/db/sessions.ts] *)

(** [createSession]: the [id] is left to the database when it is falsy. *)
Definition createSession (id : option string) (userId : string) (title : option string)
    (sourceType : SessionSourceType) : M Session :=
  let id := match id with Some EmptyString => None | _ => id end in
  query (prisma.session_create id userId title sourceType RECORDING).

(** [updateSessionStatus]: [updateMany], so a missing row is no error. *)
Definition updateSessionStatus (sessionId : string) (status : SessionStatus) : M unit :=
  query (prisma.session_updateMany sessionId status);; mret ().

Definition appendTranscriptChunk (sessionId : string) (index : Z) (text : string)
    (startMs endMs : Z) : M TranscriptChunk :=
  query (prisma.transcriptChunk_create sessionId index text startMs endMs).

(** [v ? JSON.stringify(v) : null] *)
Definition stringify_or_null (v : JS.value) : option string :=
  if JS.truthy v then Some (JS.JSON_stringify v) else None.

Definition completeSessionWithSummary (sessionId : string) (summaryContent : JS.value)
    (keyPoints actionItems decisions : JS.value) (status : option SessionStatus) :
    M SessionWithRelations :=
  let status := default COMPLETED status in
  completedAt ← new_Date;
  transaction [
    query (prisma.session_update sessionId status completedAt);; mret ();
    query (prisma.summary_upsert sessionId summaryContent
             (stringify_or_null keyPoints) (stringify_or_null actionItems)
             (stringify_or_null decisions))
  ];;
  query (λ _ d, (prisma.session_findUniqueOrThrow sessionId d, d)).

(** *** [src/lib/gemini.ts] *)

(** [transcribeModel.generateContent] followed by [result.response.text()].
    The request carries a fixed instruction, the audio bytes in base64 and
    the mime type. *)
Definition transcribe_generateContent (audioBytes : list Byte.byte) (mimeType : string) :
    M string := λ w,
  (transcribeModel env audioBytes mimeType,
   {| db := db w; rooms := rooms w;
      sent := sent w ++ [transcribe_request audioBytes mimeType]; tick := tick w |}).

Definition transcribeChunk (sessionId : string) (audioBytes : list Byte.byte)
    (mimeType : string) (index : Z) : M string :=
  text ← transcribe_generateContent audioBytes mimeType;
  mret (JS.trim text).

Record SummarizeTranscriptResult := {
  content : JS.value;
  keyPoints : JS.value;
  actionItems : JS.value;
  decisions : JS.value;
}.

Definition summary_prompt : string :=
  "You are an expert meeting assistant. You will be given the full transcript " +:+
  "of a meeting. Produce a concise but information-dense summary with:
" +:+
  "1) A 3–6 sentence overview.
" +:+
  "2) A bullet list of key points.
" +:+
  "3) A bullet list of concrete action items with owners if mentioned.
" +:+
  "4) A bullet list of explicit decisions.

" +:+
  "Return JSON with the shape:
" +:+
  JS.q "{
  'summary': string,
" +:+
  JS.q "  'keyPoints': string[],
" +:+
  JS.q "  'actionItems': string[],
" +:+
  JS.q "  'decisions': string[]
}
" +:+
  "Do not include any extra keys or commentary. Here is the transcript:

".

(** [summaryModel.generateContent(prompt)] followed by
    [result.response.text()]. *)
Definition summary_generateContent (prompt : string) : M string := λ w,
  (summaryModel env prompt,
   {| db := db w; rooms := rooms w;
      sent := sent w ++ [summary_request prompt]; tick := tick w |}).

Definition summarizeTranscript (transcript : string) : M SummarizeTranscriptResult :=
  let prompt := summary_prompt +:+ transcript in
  text ← summary_generateContent prompt;
  let raw := JS.trim text in
  let normalized := JS.trim (JS.remove_all ["```json"; "```"] 0 raw) in
  match JS.JSON_parse normalized with
  | None =>
      mret {| content := JS.VStr raw; keyPoints := JS.VNull;
              actionItems := JS.VNull; decisions := JS.VNull |}
  | Some parsed =>
      let safe := JS.nullish (Some parsed) (JS.VObj []) in
      mret {| content := JS.nullish (JS.get safe "summary") (JS.VStr raw);
              keyPoints := JS.nullish (JS.get safe "keyPoints") JS.VNull;
              actionItems := JS.nullish (JS.get safe "actionItems") JS.VNull;
              decisions := JS.nullish (JS.get safe "decisions") JS.VNull |}
  end.

(** *** [server/index.ts]

    Each handler takes the socket it was registered on and the payload of
    the event. The [console] calls are left out. *)

Definition on_session_start (socket : string) (payload : JS.value) : M unit :=
  match SessionStartSchema.safeParse payload with
  | None => emit_effect (socket_emit socket (session_error "Invalid session:start payload"))
  | Some data =>
      let sessionId := SessionStartSchema.sessionId data in
      try_catch
        (createSession (Some sessionId) (SessionStartSchema.userId data)
           (SessionStartSchema.title data) (SessionStartSchema.sourceType data);;
         socket_join socket sessionId;;
         emit_effect (io_to_emit sessionId (session_status sessionId RECORDING)))
        (emit_effect (socket_emit socket (session_error "Failed to create session")))
  end.

Definition audioChunk_try (data : AudioChunkSchema.data) : M unit :=
  let sessionId := AudioChunkSchema.sessionId data in
  let index := AudioChunkSchema.index data in
  let mimeType := AudioChunkSchema.mimeType data in
  let startMs := AudioChunkSchema.startMs data in
  let endMs := AudioChunkSchema.endMs data in
  let audioBytes := Buffer_from_base64 env (AudioChunkSchema.audioBase64 data) in
  text ← transcribeChunk sessionId audioBytes mimeType index;
  if String.eqb text EmptyString then mret ()
  else
    appendTranscriptChunk sessionId index text startMs endMs;;
    emit_effect
      (io_to_emit sessionId (session_partialTranscript sessionId index text startMs endMs)).

Definition on_session_audioChunk (socket : string) (payload : JS.value) : M unit :=
  match AudioChunkSchema.safeParse payload with
  | None =>
      emit_effect (socket_emit socket (session_error "Invalid session:audioChunk payload"))
  | Some data =>
      try_catch (audioChunk_try data)
        (emit_effect (socket_emit socket (session_error "Failed to process audio chunk")))
  end.

Definition on_session_pause (socket : string) (payload : JS.value) : M unit :=
  match SessionControlSchema.safeParse payload with
  | None => emit_effect (socket_emit socket (session_error "Invalid session:pause payload"))
  | Some data =>
      let sessionId := SessionControlSchema.sessionId data in
      try_catch
        (updateSessionStatus sessionId PAUSED;;
         emit_effect (io_to_emit sessionId (session_status sessionId PAUSED)))
        (emit_effect (socket_emit socket (session_error "Failed to pause session")))
  end.

Definition on_session_resume (socket : string) (payload : JS.value) : M unit :=
  match SessionControlSchema.safeParse payload with
  | None => emit_effect (socket_emit socket (session_error "Invalid session:resume payload"))
  | Some data =>
      let sessionId := SessionControlSchema.sessionId data in
      try_catch
        (updateSessionStatus sessionId RECORDING;;
         emit_effect (io_to_emit sessionId (session_status sessionId RECORDING)))
        (emit_effect (socket_emit socket (session_error "Failed to resume session")))
  end.

(** [chunks.map((chunk) => chunk.text).join(" ")] *)
Definition fullTranscript (chunks : list TranscriptChunk) : string :=
  JS.join " " (Chunk_text <$> chunks).

(** The [try] block of the [session:stop] handler: finalization. *)
Definition stop_try (sessionId : string) : M unit :=
  updateSessionStatus sessionId PROCESSING;;
  emit_effect (io_to_emit sessionId (session_status sessionId PROCESSING));;
  chunks ← query (λ _ d, (Ok (prisma.transcriptChunk_findMany sessionId d), d));
  summary ← summarizeTranscript (fullTranscript chunks);
  completedSession ←
    completeSessionWithSummary sessionId (content summary) (keyPoints summary)
      (actionItems summary) (decisions summary) (Some COMPLETED);
  emit_effect (io_to_emit sessionId (session_completed sessionId completedSession)).

(** Its [catch] block. *)
Definition stop_catch (socket sessionId : string) : M unit :=
  try_catch (updateSessionStatus sessionId ERROR) (mret ());;
  emit_effect (io_to_emit sessionId (session_status sessionId ERROR));;
  emit_effect (socket_emit socket (session_error "Failed to finalize session")).

Definition on_session_stop (socket : string) (payload : JS.value) : M unit :=
  match SessionControlSchema.safeParse payload with
  | None => emit_effect (socket_emit socket (session_error "Invalid session:stop payload"))
  | Some data =>
      let sessionId := SessionControlSchema.sessionId data in
      try_catch (stop_try sessionId) (stop_catch socket sessionId)
  end.

(** The five inbound events and their dispatch, as [socket.on] registers
    them. *)
Inductive Inbound :=
| session_start
| session_audioChunk
| session_pause
| session_resume
| session_stop.

Definition handle (event : Inbound) (socket : string) (payload : JS.value) : M unit :=
  match event with
  | session_start => on_session_start socket payload
  | session_audioChunk => on_session_audioChunk socket payload
  | session_pause => on_session_pause socket payload
  | session_resume => on_session_resume socket payload
  | session_stop => on_session_stop socket payload
  end.

(** *** Handlers that overlap

    The handlers are [async] functions registered with [socket.on]: the
    handler of an event starts when the event arrives and runs up to its
    next [await]; it is resumed when the awaited promise settles, and the
    handlers of the events that arrive in between run in between. No queue
    or worker stands between [socket.on] and the handlers. The longest
    [await] is the one of the summary, in [session:stop]; the [try] block of
    that handler is split there. *)

(** The [try] block of [session:stop] up to its [await
    summarizeTranscript(...)], with the answer the handler is resumed with. *)
Definition stop_head (sessionId : string) : M SummarizeTranscriptResult :=
  updateSessionStatus sessionId PROCESSING;;
  emit_effect (io_to_emit sessionId (session_status sessionId PROCESSING));;
  chunks ← query (λ _ d, (Ok (prisma.transcriptChunk_findMany sessionId d), d));
  summarizeTranscript (fullTranscript chunks).

(** The rest of the [try] block. *)
Definition stop_tail (sessionId : string) (summary : SummarizeTranscriptResult) : M unit :=
  completedSession ←
    completeSessionWithSummary sessionId (content summary) (keyPoints summary)
      (actionItems summary) (decisions summary) (Some COMPLETED);
  emit_effect (io_to_emit sessionId (session_completed sessionId completedSession)).

(** [session:stop] with [meanwhile], the handlers of the events that arrive
    while it is suspended where [stop_head] ends, run at that point. What
    those handlers return goes to no one. A [session:stop] whose payload is
    refused awaits nothing, so that [meanwhile] runs after it. *)
Definition on_session_stop_meanwhile (socket : string) (payload : JS.value)
    (meanwhile : M unit) : M unit :=
  match SessionControlSchema.safeParse payload with
  | None =>
      emit_effect (socket_emit socket (session_error "Invalid session:stop payload"));;
      meanwhile
  | Some data =>
      let sessionId := SessionControlSchema.sessionId data in
      λ w,
        let '(answer, w1) := stop_head sessionId w in
        let w2 := (meanwhile w1).2 in
        match answer with
        | Ok summary =>
            try_catch (stop_tail sessionId summary) (stop_catch socket sessionId) w2
        | Throw _ => stop_catch socket sessionId w2
        end
  end.



End Environment.

(** ** The recorder machine ([src/lib/state/recorderMachine.ts])

    The XState configuration as data: [on] is the [on] table of each state
    node, [entry] its entry actions, [exec] the implementation of each named
    action on the context. [transition] is what the interpreter does with an
    event: an event the current state has no transition for leaves state and
    context as they are, and raises only in [strict] mode. *)

Module recorderMachine.

Inductive RecorderSourceType := MIC | TAB.

Record RecorderContext := {
  sessionId : option string;
  sourceType : RecorderSourceType;
  statusMessage : string;
  errorMessage : option string;
}.

Inductive RecorderEvent :=
| START (sessionId : string) (sourceType : RecorderSourceType)
| PAUSE
| RESUME
| STOP
| PROCESSING
| COMPLETED
| SOCKET_DISCONNECTED
| SOCKET_RECONNECTED
| ERROR (message : string)
| RESET.

Inductive State :=
| idle
| recording
| paused
| reconnecting
| processing
| completed
| error.

Inductive Action :=
| assignStart
| assignError
| clearError
| setStatusRecording
| setStatusPaused
| setStatusProcessing
| setStatusCompleted
| setStatusReconnecting
| setStatusError.

Definition context : RecorderContext :=
  {| sessionId := None; sourceType := MIC; statusMessage := "Idle"; errorMessage := None |}.

Definition initial : State := idle.

(** The configuration does not set [strict]. *)
Definition strict : bool := false.

Definition on (state : State) (event : RecorderEvent) : option (State * list Action) :=
  match state, event with
  | idle, START _ _ => Some (recording, [assignStart])
  | recording, PAUSE => Some (paused, [setStatusPaused])
  | recording, STOP => Some (processing, [])
  | recording, SOCKET_DISCONNECTED => Some (reconnecting, [setStatusReconnecting])
  | recording, ERROR _ => Some (error, [assignError])
  | paused, RESUME => Some (recording, [setStatusRecording])
  | paused, STOP => Some (processing, [])
  | reconnecting, SOCKET_RECONNECTED => Some (recording, [setStatusRecording])
  | reconnecting, STOP => Some (processing, [])
  | processing, COMPLETED => Some (completed, [])
  | processing, ERROR _ => Some (error, [assignError])
  | completed, START _ _ => Some (recording, [assignStart])
  | completed, RESET => Some (idle, [])
  | error, RESET => Some (idle, [clearError])
  | _, _ => None
  end.

Definition entry (state : State) : list Action :=
  match state with
  | processing => [setStatusProcessing]
  | completed => [setStatusCompleted]
  | error => [setStatusError]
  | _ => []
  end.

Definition set_statusMessage (c : RecorderContext) (m : string) : RecorderContext :=
  {| sessionId := sessionId c; sourceType := sourceType c; statusMessage := m;
     errorMessage := errorMessage c |}.

Definition set_errorMessage (c : RecorderContext) (m : option string) : RecorderContext :=
  {| sessionId := sessionId c; sourceType := sourceType c;
     statusMessage := statusMessage c; errorMessage := m |}.

Definition exec (action : Action) (c : RecorderContext) (event : RecorderEvent) :
    RecorderContext :=
  match action with
  | assignStart =>
      match event with
      | START sid src =>
          {| sessionId := Some sid; sourceType := src; statusMessage := "Recording";
             errorMessage := None |}
      | _ => c
      end
  | assignError =>
      match event with
      | ERROR message => set_statusMessage (set_errorMessage c (Some message)) "Error"
      | _ => c
      end
  | clearError => set_statusMessage (set_errorMessage c None) "Idle"
  | setStatusRecording => set_statusMessage c "Recording"
  | setStatusPaused => set_statusMessage c "Paused"
  | setStatusProcessing => set_statusMessage c "Processing summary…"
  | setStatusCompleted => set_statusMessage c "Completed"
  | setStatusReconnecting => set_statusMessage c "Reconnecting…"
  | setStatusError =>
      match errorMessage c with
      | None | Some EmptyString => set_errorMessage c (Some "Unexpected error")
      | Some _ => c
      end
  end.

(** One event: the transition's actions run first, then the entry actions
    of the target. [None] is the error a strict machine raises. *)
Definition transition (current : State * RecorderContext) (event : RecorderEvent) :
    option (State * RecorderContext) :=
  match on (fst current) event with
  | Some (target, actions) =>
      Some (target, foldl (λ c a, exec a c event) (snd current) (actions ++ entry target))
  | None => if strict then None else Some current
  end.

(** The lifecycle table of the specification (section 4.3), event by event:
    [start], [pause], [resume], [stop], [transport-disconnected],
    [transport-reconnected], [reset], and the outcome of finalization, which
    reaches the client as [COMPLETED] or [ERROR]. *)
Definition lifecycle_table (state : State) (event : RecorderEvent) : option State :=
  match state, event with
  | idle, START _ _ => Some recording
  | recording, PAUSE => Some paused
  | recording, STOP => Some processing
  | recording, SOCKET_DISCONNECTED => Some reconnecting
  | reconnecting, SOCKET_RECONNECTED => Some recording
  | reconnecting, STOP => Some processing
  | paused, RESUME => Some recording
  | paused, STOP => Some processing
  | processing, COMPLETED => Some completed
  | processing, ERROR _ => Some error
  | completed, START _ _ => Some recording
  | completed, RESET => Some idle
  | error, RESET => Some idle
  | _, _ => None
  end.

End recorderMachine.

(** The shape the summary prompt asks for: [summary] a string, [keyPoints],
    [actionItems] and [decisions] arrays of strings. *)
Definition strings (xs : list string) : JS.value := JS.VArr (JS.VStr <$> xs).

Definition expected_shape (v : JS.value) (summary : string)
    (keyPoints actionItems decisions : list string) : Prop :=
  JS.get v "summary" = Some (JS.VStr summary)
  ∧ JS.get v "keyPoints" = Some (strings keyPoints)
  ∧ JS.get v "actionItems" = Some (strings actionItems)
  ∧ JS.get v "decisions" = Some (strings decisions).

(** The schema each handler validates its payload against, and the name
    under which the handler is registered. *)
Definition valid (event : Inbound) (payload : JS.value) : bool :=
  match event with
  | session_start => bool_decide (is_Some (SessionStartSchema.safeParse payload))
  | session_audioChunk => bool_decide (is_Some (AudioChunkSchema.safeParse payload))
  | session_pause | session_resume | session_stop =>
      bool_decide (is_Some (SessionControlSchema.safeParse payload))
  end.

Definition event_name (event : Inbound) : string :=
  match event with
  | session_start => "session:start"
  | session_audioChunk => "session:audioChunk"
  | session_pause => "session:pause"
  | session_resume => "session:resume"
  | session_stop => "session:stop"
  end.

(** The world after one more event was emitted to [socket] and nothing else
    happened. *)
Definition only_emitted (socket : string) (event : Emitted) (w : World) : World :=
  {| db := db w; rooms := rooms w; sent := sent w ++ [socket_emit socket event];
     tick := tick w |}.

(** The events a handler emitted, to a socket or to a room, among what was
    sent; the requests made to Gemini are left out. *)
Definition is_event (e : Effect) : bool :=
  match e with
  | socket_emit _ _ | io_to_emit _ _ => true
  | transcribe_request _ _ | summary_request _ => false
  end.

Definition events (w : World) : list Effect := filter (λ e, is_event e = true) (sent w).

(** The two writes of [completeSessionWithSummary], both applied to the
    database of [w]: the session update at the clock of the call, then the
    summary upsert one round trip later, leading to [after]. *)
Definition both_written (env : Env) (sessionId : string) (status : SessionStatus)
    (summaryContent keyPoints actionItems decisions : JS.value) (w : World)
    (after : prisma.Db) : Prop :=
  ∃ row d,
    prisma.session_update sessionId status (clock env (tick w)) (clock env (tick w)) (db w)
    = (Ok row, d)
    ∧ prisma.summary_upsert sessionId summaryContent (stringify_or_null keyPoints)
        (stringify_or_null actionItems) (stringify_or_null decisions)
        (clock env (S (tick w))) d
      = (Ok (), after).

(** Frame conditions. [keeps R m]: however [m] ends, the database it leaves
    is related by [R] to the one it started from. [untouched]: the same
    stored chunks, and the same sessions in existence. *)
Definition keeps {A} (R : relation prisma.Db) (m : M A) : Prop :=
  ∀ w r w', m w = (r, w') → R (db w) (db w').

Definition untouched (before after : prisma.Db) : Prop :=
  prisma.chunks after = prisma.chunks before
  ∧ ∀ id, is_Some (prisma.sessions after !! id) ↔ is_Some (prisma.sessions before !! id).

(** The unique index on summaries, if it held before, holds after. *)
Definition index_kept (before after : prisma.Db) : Prop :=
  prisma.unique_summaries before → prisma.unique_summaries after.

(** ** Sample data

    A session identifier, an environment in which nothing fails, payloads
    and database states on which the properties below are exercised. In the
    sample environment the recording of a chunk is its own transcription,
    except for the recording [boom], on which the model fails. *)

Module sample.

Definition S1 : string := "123e4567-e89b-12d3-a456-426614174000".

Definition env : Env :=
  {| transcribeModel := λ audioBytes _,
       let text := string_of_list_byte audioBytes in
       if String.eqb text "boom" then Throw GeminiError else Ok text;
     summaryModel := λ _, Ok "not json";
     Buffer_from_base64 := list_byte_of_string;
     clock := λ n, 1000 + Z.of_nat n;
     connection_fails := λ _, false |}.

(** The same environment with a summary model that fails. *)
Definition env_summary_fails : Env :=
  {| transcribeModel := transcribeModel env;
     summaryModel := λ _, Throw GeminiError;
     Buffer_from_base64 := Buffer_from_base64 env;
     clock := clock env;
     connection_fails := connection_fails env |}.

Definition chunk (id : string) (index : Z) (text : string) : TranscriptChunk :=
  {| Chunk_id := id; Chunk_sessionId := S1; Chunk_index := index; Chunk_text := text;
     Chunk_startMs := 0; Chunk_endMs := 10; Chunk_createdAt := 1000 |}.

Definition recording_session : Session :=
  {| Session_id := S1; Session_userId := "u1"; Session_title := None;
     Session_sourceType := MIC; Session_status := RECORDING;
     Session_startedAt := 1000; Session_completedAt := None;
     Session_createdAt := 1000; Session_updatedAt := 1000 |}.

Definition db_of (rows : list TranscriptChunk) : prisma.Db :=
  {| prisma.users := {["u1"]}; prisma.sessions := {[S1 := recording_session]};
     prisma.chunks := rows; prisma.summaries := []; prisma.nextId := 2 |}.

(** The same two chunks, stored in the two possible arrival orders. *)
Definition hello_world : prisma.Db := db_of [chunk "c0" 0 "hello"; chunk "c1" 1 "world"].
Definition world_hello : prisma.Db := db_of [chunk "c0" 1 "world"; chunk "c1" 0 "hello"].

Definition world (d : prisma.Db) : World :=
  {| db := d; rooms := {[S1 := {["socket-1"]}]}; sent := []; tick := 0 |}.

Definition control_payload : JS.value := JS.VObj [("sessionId", JS.VStr S1)].

Definition audioChunk_payload (index : Z) (audioBase64 : string) : JS.value :=
  JS.VObj [("sessionId", JS.VStr S1); ("index", JS.VNum (JS.Number index 0));
           ("audioBase64", JS.VStr audioBase64); ("mimeType", JS.VStr "audio/webm");
           ("startMs", JS.VNum (JS.Number 0 0)); ("endMs", JS.VNum (JS.Number 10 0))].

End sample.

(** ** Reading sessions back ([src/lib/db/sessions.ts]) *)

(** Rows ordered by [createdAt] descending. *)
Definition createdAt_ge (a b : Session) : Prop := Session_createdAt b ≤ Session_createdAt a.

Global Instance createdAt_ge_dec : RelDecision createdAt_ge.
Proof. intros a b. unfold createdAt_ge. apply _. Defined.

Global Instance createdAt_ge_trans : Transitive createdAt_ge.
Proof. intros a b c. unfold createdAt_ge. lia. Qed.

Global Instance createdAt_ge_total : Total createdAt_ge.
Proof. intros a b. unfold createdAt_ge. lia. Qed.

(** [prisma.session.findMany({ where: { userId }, orderBy: { createdAt:
    "desc" } })] *)
Definition session_findMany (userId : string) (d : prisma.Db) : list Session :=
  merge_sort createdAt_ge
    (filter (λ row, Session_userId row = userId) ((map_to_list (prisma.sessions d)).*2)).



Section Readers.
Variable env : Env.
Variable first_of : list (string * Session) → nat.

Definition listUserSessions (userId : string) : M (list Session) :=
  query env (λ _ d, (Ok (session_findMany userId d), d)).


End Readers.

(** ** The export route ([app/api/sessions/[id]/export/route.ts])

    [GET] takes the user the auth service reports for the request's cookies
    ([None] when it reports none), the [context.params] the framework hands
    it and the [format] parameter of the query ([None] when absent). A
    response is a plain message with its status, or a download; the JSON
    download is given by the object handed to [NextResponse.json]. An
    exception of [GET] is left to the framework.

    The handler declares [context.params] as the object of the path
    parameters and reads [context.params.id] without awaiting. The framework
    of the repository is Next.js 16 (README), which hands a route a promise
    of that object, as the page of a session, which awaits [params], has
    it. A promise has no property [id]: the read gives [undefined]. *)

Module export_route.











End export_route.

(** ** The recorder component ([app/(dashboard)/sessions/Recorder.tsx])

    The part of the component that listens to the socket: the machine
    ([useMachine]), the live transcript ([transcriptChunks]) and the summary
    text, and the handler it registers for each event. [transcriptChunks] is
    a JavaScript array written by index, so it can have empty slots; the
    indices written are those of the server's events, natural numbers. *)

Module Recorder.

Record PartialTranscriptChunk := {
  index : Z;
  text : string;
}.

Record Client := {
  state : recorderMachine.State * recorderMachine.RecorderContext;
  transcriptChunks : list (option PartialTranscriptChunk);
  summaryText : option string;
}.

(** What [useMachine] starts from, with the initial [useState] values. *)
Definition initial : Client :=
  {| state := (recorderMachine.initial, recorderMachine.context);
     transcriptChunks := []; summaryText := None |}.

(** [send(event)] *)
Definition send (event : recorderMachine.RecorderEvent) (c : Client) : Client :=
  match recorderMachine.transition (state c) event with
  | Some next =>
      {| state := next; transcriptChunks := transcriptChunks c;
         summaryText := summaryText c |}
  | None => c
  end.

(** [next[i] = x] on an array: a write past the end leaves empty slots. *)
Definition array_set {A} (i : nat) (x : A) (l : list (option A)) : list (option A) :=
  if decide (i < length l)%nat then <[i := Some x]> l
  else l ++ replicate (i - length l) None ++ [Some x].

(** The three [if]s of [handleStatus], in order. *)
Definition handleStatus (status : SessionStatus) (c : Client) : Client :=
  let c := if decide (status = PROCESSING) then send recorderMachine.PROCESSING c else c in
  let c := if decide (status = COMPLETED) then send recorderMachine.COMPLETED c else c in
  if decide (status = ERROR)
  then send (recorderMachine.ERROR "Session failed while processing on the server.") c
  else c.

Definition handlePartialTranscript (index : Z) (text : string) (c : Client) : Client :=
  {| state := state c;
     transcriptChunks :=
       array_set (Z.to_nat index) {| index := index; text := text |} (transcriptChunks c);
     summaryText := summaryText c |}.

(** [payload.session.summary?.content ?? null] *)
Definition handleCompleted (session : SessionWithRelations) (c : Client) : Client :=
  {| state := state c; transcriptChunks := transcriptChunks c;
     summaryText := Summary_content <$> summary session |}.

(** [payload.message ?? "An unknown error occurred."] *)
Definition handleError (message : option string) (c : Client) : Client :=
  send (recorderMachine.ERROR (default "An unknown error occurred." message)) c.

Definition handleDisconnect (c : Client) : Client :=
  send recorderMachine.SOCKET_DISCONNECTED c.

Definition handleConnect (c : Client) : Client :=
  send recorderMachine.SOCKET_RECONNECTED c.

(** An event of the server reaching the socket of the component: the handler
    registered under the name of the event. *)
Definition on (event : Emitted) (c : Client) : Client :=
  match event with
  | session_status _ status => handleStatus status c
  | session_partialTranscript _ index text _ _ => handlePartialTranscript index text c
  | session_completed _ session => handleCompleted session c
  | session_error message => handleError (Some message) c
  end.

(** [transcriptChunks.map((chunk) => chunk?.text ?? "").join(" ")] *)
Definition transcriptText (c : Client) : string :=
  JS.join " " ((λ chunk, default "" (text <$> chunk)) <$> transcriptChunks c).

(** [state.matches("processing")] *)
Definition isProcessing (c : Client) : bool :=
  match fst (state c) with
  | recorderMachine.processing => true
  | _ => false
  end.

(** What the summary panel renders: the notice that the summary is being
    generated while the machine is processing; otherwise the summary text
    when there is one, and a placeholder when there is none. *)
Inductive SummaryPanel :=
| generating_summary
| summary_shown (text : string)
| summary_placeholder.

Definition summaryPanel (c : Client) : SummaryPanel :=
  if isProcessing c then generating_summary
  else
    match summaryText c with
    | Some (String _ _ as text) => summary_shown text
    | _ => summary_placeholder
    end.

End Recorder.

(** The events among [effects], in order, whoever they were sent to. *)
Definition emitted (effects : list Effect) : list Emitted :=
  omap (λ e, match e with
             | socket_emit _ event | io_to_emit _ event => Some event
             | _ => None
             end) effects.

(** What a handler sent in going from [w] to [w']. *)
Definition newly_sent (w w' : World) : list Effect := drop (length (sent w)) (sent w').

(** [sends P m]: whatever [m] adds to what was sent satisfies [P]. *)
Definition sends {A} (P : Effect → Prop) (m : M A) : Prop :=
  ∀ w r w', m w = (r, w') → ∃ new, sent w' = sent w ++ new ∧ Forall P new.

(** ** What the handlers keep, store and send *)

(** What never changes in a session row once it is created. *)
Definition same_origin (row row' : Session) : Prop :=
  Session_id row' = Session_id row
  ∧ Session_userId row' = Session_userId row
  ∧ Session_title row' = Session_title row
  ∧ Session_sourceType row' = Session_sourceType row
  ∧ Session_startedAt row' = Session_startedAt row
  ∧ Session_createdAt row' = Session_createdAt row.

(** What never changes in a summary row. *)
Definition summary_key (row : Summary) : string * string * Z :=
  (Summary_id row, Summary_sessionId row, Summary_createdAt row).

(** [grows before after]: nothing stored was discarded. The users are the
    same; the stored chunks are still there, unchanged and in place, new ones
    coming after them; every session is still there, of the same origin;
    every summary row is still there, for the same session; identifiers are
    not handed out again. *)
Definition grows (before after : prisma.Db) : Prop :=
  prisma.users after = prisma.users before
  ∧ prisma.chunks before `prefix_of` prisma.chunks after
  ∧ (∀ id row, prisma.sessions before !! id = Some row →
       ∃ row', prisma.sessions after !! id = Some row' ∧ same_origin row row')
  ∧ (summary_key <$> prisma.summaries before) `prefix_of`
      (summary_key <$> prisma.summaries after)
  ∧ (prisma.nextId before ≤ prisma.nextId after)%nat.

(** What the schema of [session:audioChunk] and the test on the text leave
    through to [appendTranscriptChunk]. *)
Definition well_formed (c : TranscriptChunk) : Prop :=
  0 ≤ Chunk_index c ∧ 0 ≤ Chunk_startMs c ∧ 0 ≤ Chunk_endMs c ∧ Chunk_text c ≠ "".

Definition chunks_well_formed (before after : prisma.Db) : Prop :=
  Forall well_formed (prisma.chunks before) → Forall well_formed (prisma.chunks after).

(** The events each handler broadcasts to the room of a session. *)
Definition broadcast_by (event : Inbound) (e : Emitted) : Prop :=
  match event, e with
  | session_start, session_status _ RECORDING
  | session_audioChunk, session_partialTranscript _ _ _ _ _
  | session_pause, session_status _ PAUSED
  | session_resume, session_status _ RECORDING
  | session_stop, session_status _ (PROCESSING | ERROR)
  | session_stop, session_completed _ _ => True
  | _, _ => False
  end.

(** The session an event is about. *)
Definition about (e : Emitted) : option string :=
  match e with
  | session_error _ => None
  | session_status sessionId _
  | session_partialTranscript sessionId _ _ _ _
  | session_completed sessionId _ => Some sessionId
  end.

(** [scoped event socket payload e]: what the handler of [event], run for
    [socket] on [payload], may send. To the socket itself, errors only; to a
    room, an event of the handler's about the session the payload names, the
    room being that of the session; and requests to Gemini. *)
Definition scoped (event : Inbound) (socket : string) (payload : JS.value) (e : Effect) :
    Prop :=
  match e with
  | socket_emit s (session_error _) => s = socket
  | socket_emit _ _ => False
  | io_to_emit room e =>
      JS.get payload "sessionId" = Some (JS.VStr room)
      ∧ about e = Some room ∧ broadcast_by event e
  | transcribe_request _ _ => event = session_audioChunk
  | summary_request _ => event = session_stop
  end.

(** The status [session:pause] and [session:resume] write and broadcast. *)
Definition control_status (event : Inbound) : option SessionStatus :=
  match event with
  | session_pause => Some PAUSED
  | session_resume => Some RECORDING
  | _ => None
  end.

(** [same_rooms m]: [m] lets no socket join or leave a room. *)
Definition same_rooms {A} (m : M A) : Prop := ∀ w, rooms (m w).2 = rooms w.

(** ** The recorder, from outside *)

(** What the context of the machine holds in each state; [previous] is the
    state the machine was in before the last transition it took, [None]
    when it has taken none. *)
Definition coherent (previous : option recorderMachine.State)
    (current : recorderMachine.State * recorderMachine.RecorderContext) : Prop :=
  let c := snd current in
  match fst current with
  | recorderMachine.idle =>
      (is_Some (recorderMachine.sessionId c) ↔ is_Some previous)
      ∧ recorderMachine.errorMessage c = None
      ∧ recorderMachine.statusMessage c
        = match previous with
          | Some recorderMachine.completed => "Completed"
          | _ => "Idle"
          end
  | recorderMachine.recording =>
      is_Some (recorderMachine.sessionId c)
      ∧ recorderMachine.errorMessage c = None
      ∧ recorderMachine.statusMessage c = "Recording"
  | recorderMachine.paused =>
      is_Some (recorderMachine.sessionId c)
      ∧ recorderMachine.errorMessage c = None
      ∧ recorderMachine.statusMessage c = "Paused"
  | recorderMachine.reconnecting =>
      is_Some (recorderMachine.sessionId c)
      ∧ recorderMachine.errorMessage c = None
      ∧ recorderMachine.statusMessage c = "Reconnecting…"
  | recorderMachine.processing =>
      is_Some (recorderMachine.sessionId c)
      ∧ recorderMachine.errorMessage c = None
      ∧ recorderMachine.statusMessage c = "Processing summary…"
  | recorderMachine.completed =>
      is_Some (recorderMachine.sessionId c)
      ∧ recorderMachine.errorMessage c = None
      ∧ recorderMachine.statusMessage c = "Completed"
  | recorderMachine.error =>
      is_Some (recorderMachine.sessionId c)
      ∧ (∃ message, recorderMachine.errorMessage c = Some message ∧ message ≠ "")
      ∧ recorderMachine.statusMessage c = "Error"
  end.

(** The machine after a sequence of events, from its initial state, with
    the state it was in before the last transition it took. An event that
    has no transition in the state it arrives in is ignored and counts for
    none. *)
Definition recorder_history (events : list recorderMachine.RecorderEvent) :
    option recorderMachine.State
    * (recorderMachine.State * recorderMachine.RecorderContext) :=
  foldl (λ history event,
           let current := snd history in
           (match recorderMachine.on (fst current) event with
            | Some _ => Some (fst current)
            | None => fst history
            end,
            default current (recorderMachine.transition current event)))
    (None, (recorderMachine.initial, recorderMachine.context)) events.

Definition recorder_run (events : list recorderMachine.RecorderEvent) :
    recorderMachine.State * recorderMachine.RecorderContext :=
  snd (recorder_history events).

(** The events among [effects] that reach the socket [client]: those emitted
    to it, and those emitted to a room it is in. *)
Definition received_by (rooms : gmap string (gset string)) (client : string)
    (effects : list Effect) : list Emitted :=
  omap (λ e, match e with
             | socket_emit socket event =>
                 if decide (socket = client) then Some event else None
             | io_to_emit room event =>
                 if decide (client ∈ default ∅ (rooms !! room)) then Some event else None
             | _ => None
             end) effects.

(** The component after the events [events] reached its socket, in order. *)
Definition deliver (events : list Emitted) (c : Recorder.Client) : Recorder.Client :=
  foldl (λ c event, Recorder.on event c) c events.

(** The event the server broadcasts when it has stored the chunk [row]. *)
Definition partial_of (row : TranscriptChunk) : Emitted :=
  session_partialTranscript (Chunk_sessionId row) (Chunk_index row) (Chunk_text row)
    (Chunk_startMs row) (Chunk_endMs row).

(** The slot of the live transcript a chunk is written to, and what is
    written there. *)
Definition slot_of (row : TranscriptChunk) : nat := Z.to_nat (Chunk_index row).

Definition shown_of (row : TranscriptChunk) : Recorder.PartialTranscriptChunk :=
  {| Recorder.index := Chunk_index row; Recorder.text := Chunk_text row |}.

(** ** More sample data

    A database with a user and no session yet, the payload that starts the
    sample session, a summary model that answers with JSON whose summary is
    a number, and recorders that are recording and processing. *)

Module scenario.

Definition no_session : prisma.Db :=
  {| prisma.users := {["u1"]}; prisma.sessions := ∅; prisma.chunks := [];
     prisma.summaries := []; prisma.nextId := 0 |}.

Definition lobby : World := {| db := no_session; rooms := ∅; sent := []; tick := 0 |}.

Definition start_payload : JS.value :=
  JS.VObj [("sessionId", JS.VStr sample.S1); ("userId", JS.VStr "u1");
           ("sourceType", JS.VStr "MIC")].

Definition env_summary_number : Env :=
  {| transcribeModel := transcribeModel sample.env;
     summaryModel := λ _, Ok (JS.q "{'summary': 42}");
     Buffer_from_base64 := Buffer_from_base64 sample.env;
     clock := clock sample.env;
     connection_fails := connection_fails sample.env |}.

Definition recording : Recorder.Client :=
  Recorder.send (recorderMachine.START sample.S1 recorderMachine.MIC) Recorder.initial.

Definition processing : Recorder.Client := Recorder.send recorderMachine.STOP recording.

End scenario.

(** [answered w w']: in going from [w] to [w'] something was sent, and the
    last thing sent is an event, to a socket or to a room. *)
Definition answered (w w' : World) : Prop :=
  ∃ rest e, sent w' = sent w ++ rest ++ [e] ∧ is_event e = true.

(** Two worlds with the same database at the same time: they may differ in
    what was sent and in who is in which room. *)
Definition same_store (w1 w2 : World) : Prop := db w1 = db w2 ∧ tick w1 = tick w2.

(** [alike m1 m2]: from worlds with the same store, [m1] and [m2] end the
    same way, in worlds with the same store. *)
Definition alike {A} (m1 m2 : M A) : Prop :=
  ∀ w1 w2, same_store w1 w2 → (m1 w1).1 = (m2 w2).1 ∧ same_store (m1 w1).2 (m2 w2).2.

(** * Properties *)

(** ** The platform functions on examples *)

Example trim_example : JS.trim "  hello world
 " = "hello world".
Proof. vm_compute. reflexivity. Qed.

Example remove_all_example :
  JS.remove_all ["```json"; "```"] 0 "```json{}```" = "{}".
Proof. vm_compute. reflexivity. Qed.

Example join_example : JS.join " " ["hello"; "world"] = "hello world".
Proof. reflexivity. Qed.

Example JSON_parse_object :
  JS.JSON_parse (JS.q "{'summary': 'ok', 'keyPoints': ['a', 'b'], 'n': -12.50e1} ")
  = Some (JS.VObj [("summary", JS.VStr "ok");
                   ("keyPoints", JS.VArr [JS.VStr "a"; JS.VStr "b"]);
                   ("n", JS.VNum (JS.Number (-1250) (-1)))]).
Proof. vm_compute. reflexivity. Qed.

Example JSON_parse_not_json : JS.JSON_parse "not json" = None.
Proof. vm_compute. reflexivity. Qed.

Example JSON_parse_escape :
  JS.JSON_parse (JS.q "'aé\n😀'")
  = Some (JS.VStr (String "a" (String "195" (String "169" (String "010"
            (String "240" (String "159" (String "152" (String "128" EmptyString))))))))).
Proof. vm_compute. reflexivity. Qed.

Example JSON_parse_trailing : JS.JSON_parse "[1,2] x" = None.
Proof. vm_compute. reflexivity. Qed.

Example JSON_stringify_array :
  JS.JSON_stringify (JS.VArr [JS.VStr "a"; JS.VStr (JS.q "say 'x'"); JS.VNum (JS.Number (-1250) (-1))])
  = JS.q "['a','say \'x\'',-125]".
Proof. vm_compute. reflexivity. Qed.

(** Numbers are doubles: 2^53 + 1 is not one, 1e21 and 1e-7 print with an
    exponent, 1e400 is an infinity, which JSON has no text for, 1e-400 is
    zero, and 0.99999999999999999999 is the integer 1. *)
Example JSON_stringify_numbers :
  JS.JSON_stringify
    (JS.VArr [JS.VNum (JS.Number 9007199254740993 0); JS.VNum (JS.Number 1 21);
              JS.VNum (JS.Number 1 (-7)); JS.VNum (JS.Number 1 400);
              JS.VNum (JS.Number 1 (-400)); JS.VNum (JS.Number 15 (-1));
              JS.VNum (JS.Number (-123456789012345678901) 0);
              JS.VNum (JS.Number 1 (-1))])
  = "[9007199254740992,1e+21,1e-7,null,0,1.5,-123456789012345680000,0.1]".
Proof. vm_compute. reflexivity. Qed.

Example truthy_numbers :
  JS.truthy (JS.VNum (JS.Number 1 (-400))) = false
  ∧ JS.truthy (JS.VNum (JS.Number 1 (-300))) = true
  ∧ JS.to_integer (JS.Number 99999999999999999999 (-20)) = Some 1
  ∧ JS.to_integer (JS.Number 15 (-1)) = None
  ∧ JS.to_integer (JS.Number 1 400) = None.
Proof. vm_compute. repeat split; reflexivity. Qed.

Example JSON_parse_surrogates :
  JS.JSON_parse (JS.q "'\ud83d\ude00 \u00e9'") = Some (JS.VStr "😀 é").
Proof. vm_compute. reflexivity. Qed.

(** The properties of an object are printed in their order: array indices
    first. *)
Example JSON_stringify_object :
  JS.JSON_stringify
  <$> JS.JSON_parse (JS.q "{'b': 1, '10': 2, 'a': 3, '9': 4, '01': 5, 'b': 6, '9': 7}")
  = Some (JS.q "{'9':7,'10':2,'b':6,'a':3,'01':5}").
Proof. vm_compute. reflexivity. Qed.

(** A lone surrogate is printed as its escape, a pair as the character it
    stands for. *)
Example JSON_stringify_surrogates :
  JS.JSON_stringify <$> JS.JSON_parse (JS.q "['\ud83d x', '\ud83d\ude00', '\udE00']")
  = Some (JS.q "['\ud83d x','😀','\ude00']").
Proof. vm_compute. reflexivity. Qed.

(** A text read from JSON may hold U+0000 or a lone surrogate, which the
    database refuses. *)
Example fits_TEXT_examples :
  prisma.fits_TEXT_or_null (JS.JSON_parse (JS.q "'a\u0000b'") ≫= λ v, z.string (Some v))
  = false
  ∧ prisma.fits_TEXT_or_null (JS.JSON_parse (JS.q "'\ud83d x'") ≫= λ v, z.string (Some v))
    = false
  ∧ prisma.fits_TEXT_or_null
      (JS.JSON_parse (JS.q "'\ud83d\ude00 é'") ≫= λ v, z.string (Some v))
    = true.
Proof. vm_compute. repeat split; reflexivity. Qed.

(** ** What the schemas let through *)

(** The [sessionId] a schema accepted is the one the payload carries, a UUID. *)
Lemma string_uuid_Some (v : option JS.value) (s : string) :
  z.string_uuid v = Some s → v = Some (JS.VStr s) ∧ z.uuid s = true.
Proof.
  unfold z.string_uuid, z.string. destruct v as [[| | |s'| |]|]; simpl; try done.
  destruct (z.uuid s') eqn:Hu; [|done]. by intros [= <-].
Qed.

Lemma object_Some (payload o : JS.value) : z.object payload = Some o → o = payload.
Proof. destruct payload; simpl; congruence. Qed.

Lemma SessionControlSchema_sessionId (payload : JS.value) (data : SessionControlSchema.data) :
  SessionControlSchema.safeParse payload = Some data →
  JS.get payload "sessionId" = Some (JS.VStr (SessionControlSchema.sessionId data))
  ∧ z.uuid (SessionControlSchema.sessionId data) = true.
Proof.
  unfold SessionControlSchema.safeParse.
  destruct (z.object payload) as [o|] eqn:Ho; [|done]. apply object_Some in Ho as ->. simpl.
  destruct (z.string_uuid _) as [sid|] eqn:Hsid; [|done]. simpl. intros [= <-]. simpl.
  by apply string_uuid_Some.
Qed.

Lemma SessionStartSchema_sessionId (payload : JS.value) (data : SessionStartSchema.data) :
  SessionStartSchema.safeParse payload = Some data →
  JS.get payload "sessionId" = Some (JS.VStr (SessionStartSchema.sessionId data))
  ∧ z.uuid (SessionStartSchema.sessionId data) = true.
Proof.
  unfold SessionStartSchema.safeParse.
  destruct (z.object payload) as [o|] eqn:Ho; [|done]. apply object_Some in Ho as ->. simpl.
  destruct (z.string_uuid _) as [sid|] eqn:Hsid; [|done]. simpl.
  destruct (z.string _); [|done]. simpl.
  destruct (z.string_optional _); [|done]. simpl.
  destruct (z.enum_MIC_TAB _); [|done]. simpl. intros [= <-]. simpl.
  by apply string_uuid_Some.
Qed.

Lemma AudioChunkSchema_accepts (payload : JS.value) (data : AudioChunkSchema.data) :
  AudioChunkSchema.safeParse payload = Some data →
  JS.get payload "sessionId" = Some (JS.VStr (AudioChunkSchema.sessionId data))
  ∧ z.uuid (AudioChunkSchema.sessionId data) = true
  ∧ 0 ≤ AudioChunkSchema.index data
  ∧ 0 ≤ AudioChunkSchema.startMs data
  ∧ 0 ≤ AudioChunkSchema.endMs data
  ∧ AudioChunkSchema.audioBase64 data ≠ ""
  ∧ AudioChunkSchema.mimeType data ≠ "".
Proof.
  unfold AudioChunkSchema.safeParse.
  destruct (z.object payload) as [o|] eqn:Ho; [|done]. apply object_Some in Ho as ->. simpl.
  destruct (z.string_uuid _) as [sid|] eqn:Hsid; [|done]. simpl.
  assert (Hnum : ∀ v i, z.number_int_nonnegative v = Some i → 0 ≤ i).
  { intros v i. unfold z.number_int_nonnegative. destruct v as [[| |n| | |]|]; try done.
    destruct (JS.to_integer n) as [j|]; [|done]. simpl.
    destruct (0 <=? j) eqn:Hj; [|done]. intros [= <-]. lia. }
  assert (Hmin : ∀ v s, z.string_min1 v = Some s → s ≠ "").
  { intros v s. unfold z.string_min1. destruct (z.string v) as [s'|]; [|done]. simpl.
    destruct (String.eqb s' "") eqn:Hs; [done|]. intros [= <-].
    by apply String.eqb_neq. }
  destruct (z.number_int_nonnegative (JS.get payload "index")) as [i|] eqn:Hi; [|done]. simpl.
  destruct (z.string_min1 (JS.get payload "audioBase64")) as [a|] eqn:Ha; [|done]. simpl.
  destruct (z.string_min1 (JS.get payload "mimeType")) as [m|] eqn:Hm; [|done]. simpl.
  destruct (z.number_int_nonnegative (JS.get payload "startMs")) as [s0|] eqn:Hs0; [|done].
  simpl.
  destruct (z.number_int_nonnegative (JS.get payload "endMs")) as [e0|] eqn:He0; [|done].
  simpl. intros [= <-]. simpl. apply string_uuid_Some in Hsid as [-> ->].
  repeat split; eauto.
Qed.

(** ** What the database can store *)

Lemma append_assoc (s1 s2 s3 : string) : (s1 +:+ s2) +:+ s3 = s1 +:+ s2 +:+ s3.
Proof.
  induction s1 as [|c s1 IH]; [done|].
  change (String c ((s1 +:+ s2) +:+ s3) = String c (s1 +:+ s2 +:+ s3)). by f_equal.
Qed.

Lemma plain_app (s1 s2 : string) : JS.plain (s1 +:+ s2) = JS.plain s1 && JS.plain s2.
Proof.
  induction s1 as [|c s1 IH]; simpl; [done|]. rewrite IH. by rewrite andb_assoc.
Qed.

Lemma fits_next_fits (s : string) : prisma.fits_next s = true → prisma.fits_TEXT s = true.
Proof. unfold prisma.fits_next. simpl. by intros [_ ?]%andb_true_iff. Qed.

(** One text after another fits when both do and no surrogate arises where
    they meet. *)
Lemma fits_TEXT_app (s1 s2 : string) :
  prisma.fits_TEXT s1 = true → prisma.fits_next s2 = true →
  prisma.fits_TEXT (s1 +:+ s2) = true.
Proof.
  intros H1 H2. induction s1 as [|c s1 IH]; simpl; [by apply fits_next_fits|].
  simpl in H1. apply andb_true_iff in H1 as [[Hc Hnext]%andb_true_iff H1].
  rewrite Hc, (IH H1). simpl. rewrite andb_true_r.
  destruct s1 as [|b s1]; simpl; [|exact Hnext].
  unfold prisma.fits_next in H2. simpl in H2.
  apply andb_true_iff in H2 as [H2 _]. destruct s2 as [|b s2]; [done|].
  unfold JS.lone_surrogate in *. simpl in H2 |- *.
  destruct (160 <=? N_of_ascii b)%N; [done|]. by destruct (Ascii.eqb c "237").
Qed.

Lemma fits_next_app (s1 s2 : string) :
  prisma.fits_next s1 = true → prisma.fits_next s2 = true →
  prisma.fits_next (s1 +:+ s2) = true.
Proof. unfold prisma.fits_next at 1 3. intros H1 H2. by apply (fits_TEXT_app (String _ _)). Qed.

Lemma plain_fits_next (s : string) : JS.plain s = true → prisma.fits_next s = true.
Proof.
  assert (∀ s, JS.plain s = true → prisma.fits_TEXT s = true) as Hfits.
  { clear s. induction s as [|c s IH]; [done|]. simpl.
    intros [[Hpos Hlow]%andb_true_iff Hs]%andb_true_iff. rewrite (IH Hs), andb_true_r.
    apply andb_true_iff. split.
    - destruct (Ascii.eqb_spec c "000") as [->|]; [done|done].
    - destruct s as [|b s]; [done|]. unfold JS.lone_surrogate.
      destruct (Ascii.eqb_spec c "237") as [->|]; [done|done]. }
  intros Hs. unfold prisma.fits_next. simpl. rewrite (Hfits s Hs), andb_true_r.
  destruct s as [|b s]; [done|]. simpl in Hs.
  apply andb_true_iff in Hs as [[_ Hlow]%andb_true_iff _].
  unfold JS.lone_surrogate. simpl. apply negb_true_iff, N.leb_gt.
  apply N.ltb_lt in Hlow. lia.
Qed.

Lemma plain_fits (s : string) : JS.plain s = true → prisma.fits_TEXT s = true.
Proof. intros. by apply fits_next_fits, plain_fits_next. Qed.

Lemma matches_shape_plain (shape s : string) :
  z.matches_shape shape s = true → JS.plain s = true.
Proof.
  revert s. induction shape as [|x shape IH]; intros [|c s]; simpl; try done.
  intros H.
  assert (((0 <? N_of_ascii c)%N && (N_of_ascii c <? 128)%N = true)
          ∧ z.matches_shape shape s = true) as [-> Hrest].
  { destruct x as [[] [] [] [] [] [] [] []]; try done;
      apply andb_true_iff in H as [Hc ?]; (split; [|done]); clear -Hc;
      destruct c as [[] [] [] [] [] [] [] []]; done. }
  simpl. by apply IH.
Qed.

(** A UUID is well-formed text without U+0000. *)
Lemma uuid_fits (s : string) : z.uuid s = true → prisma.fits_TEXT s = true.
Proof. intros. by eapply plain_fits, matches_shape_plain. Qed.

(** So is what [JSON.stringify] prints: it escapes the control characters
    and the lone surrogates of a string, and writes numbers in digits. *)
Lemma pretty_N_go_plain (x : N) (s : string) :
  JS.plain s = true → JS.plain (pretty_N_go x s) = true.
Proof.
  revert s. induction (N.lt_wf_0 x) as [x _ IH]; intros s Hs.
  destruct (decide (x = 0)%N) as [->|Hx]; [by rewrite pretty_N_go_0|].
  rewrite pretty_N_go_step by lia. apply IH; [apply N.div_lt; lia|].
  simpl. rewrite Hs. unfold pretty_N_char. by repeat case_match.
Qed.

Lemma pretty_Z_plain (x : Z) : JS.plain (pretty x) = true.
Proof.
  assert (∀ p : positive, JS.plain (pretty p) = true) as Hpositive.
  { intros p. unfold pretty, pretty_positive, pretty, pretty_N.
    case_decide; [done|]. by apply pretty_N_go_plain. }
  destruct x as [|p|p]; [done|apply Hpositive|].
  unfold pretty, pretty_Z. rewrite plain_app. by rewrite Hpositive.
Qed.

Lemma zeros_plain (n : nat) : JS.plain (JS.zeros n) = true.
Proof. induction n as [|n IH]; [done|exact IH]. Qed.

Lemma substring_plain (n m : nat) (s : string) :
  JS.plain s = true → JS.plain (String.substring n m s) = true.
Proof.
  revert n m. induction s as [|c s IH]; intros [|n] [|m]; simpl; try done.
  - intros [-> Hs]%andb_true_iff. simpl. by apply IH.
  - intros [_ Hs]%andb_true_iff. by apply IH.
  - intros [_ Hs]%andb_true_iff. by apply IH.
Qed.

Lemma double_to_string_plain (d : JS.double) : JS.plain (JS.double_to_string d) = true.
Proof.
  destruct d as [|negative m e|[]]; try done. unfold JS.double_to_string.
  destruct (JS.shortest m e) as [[s k] n].
  assert (∀ i j, JS.plain (String.substring i j (pretty s)) = true) as Hsub
    by (intros; apply substring_plain, pretty_Z_plain).
  repeat (rewrite plain_app || case_match || rewrite Hsub || rewrite pretty_Z_plain
          || rewrite zeros_plain || simpl); done.
Qed.

(** A character is escaped in ASCII or stands for itself. *)
Lemma quote_char_cases (c : ascii) :
  (JS.plain (JS.quote_char c) = true ∧ JS.quote_char c ≠ "")
  ∨ (JS.quote_char c = String c "" ∧ (128 <=? N_of_ascii c)%N = true).
Proof. destruct c as [[] [] [] [] [] [] [] []]; (by left) || (by right). Qed.

Lemma escape_surrogate_plain (b c : ascii) : JS.plain (JS.escape_surrogate b c) = true.
Proof.
  unfold JS.escape_surrogate.
  assert (∀ n, (n < 16)%N → (0 <? N_of_ascii (JS.hex_digit n))%N
                             && (N_of_ascii (JS.hex_digit n) <? 128)%N = true) as Hhex.
  { intros n Hn. unfold JS.hex_digit.
    assert (n = 0 ∨ n = 1 ∨ n = 2 ∨ n = 3 ∨ n = 4 ∨ n = 5 ∨ n = 6 ∨ n = 7 ∨ n = 8 ∨ n = 9
            ∨ n = 10 ∨ n = 11 ∨ n = 12 ∨ n = 13 ∨ n = 14 ∨ n = 15)%N as H by lia.
    repeat (destruct H as [->|H]; [done|]). by subst n. }
  simpl. rewrite !Hhex; [done|..].
  - apply N.mod_lt. done.
  - apply N.mod_lt. done.
  - apply N.Div0.div_lt_upper_bound.
    pose proof (N.mod_lt (N_of_ascii b) 64). pose proof (N.mod_lt (N_of_ascii c) 64). lia.
Qed.

Lemma plain_then_fits (p rest : string) :
  JS.plain p = true → prisma.fits_TEXT rest = true →
  prisma.fits_TEXT (p +:+ rest) = true
  ∧ (p ≠ "" → prisma.fits_next (p +:+ rest) = true).
Proof.
  intros Hp Hrest.
  assert (∀ p, JS.plain p = true → prisma.fits_TEXT (p +:+ rest) = true) as Hfits.
  { clear p Hp. induction p as [|x p IH]; [done|]. simpl.
    intros [[Hpos Hlow]%andb_true_iff Hp]%andb_true_iff. rewrite (IH Hp), andb_true_r.
    apply andb_true_iff. split.
    - by destruct (Ascii.eqb_spec x "000") as [->|].
    - unfold JS.lone_surrogate. destruct (Ascii.eqb_spec x "237") as [->|]; [done|].
      by destruct (p +:+ rest). }
  split; [by apply Hfits|]. intros Hne. destruct p as [|x p]; [done|].
  unfold prisma.fits_next. change (String "237" (String x p +:+ rest))
    with (String "237" (String x (p +:+ rest))).
  change (prisma.fits_TEXT (String "237" (String x (p +:+ rest))))
    with (negb (Ascii.eqb "237" "000") && negb (JS.lone_surrogate "237" x)
          && prisma.fits_TEXT (String x p +:+ rest)).
  rewrite (Hfits _ Hp), andb_true_r. simpl in Hp.
  apply andb_true_iff in Hp as [[_ Hlow]%andb_true_iff _].
  unfold JS.lone_surrogate. simpl. apply negb_true_iff, N.leb_gt.
  apply N.ltb_lt in Hlow. lia.
Qed.

Lemma fits_TEXT_cons (a : ascii) (rest : string) :
  prisma.fits_TEXT rest = true → (a = "237"%char → prisma.fits_next rest = true) →
  a ≠ "000"%char →
  prisma.fits_TEXT (String a rest) = true
  ∧ ((160 <=? N_of_ascii a)%N = false → prisma.fits_next (String a rest) = true).
Proof.
  intros Hrest Hnext Ha.
  assert (prisma.fits_TEXT (String a rest) = true) as Hfits.
  { simpl. rewrite Hrest, andb_true_r. apply andb_true_iff. split.
    - by destruct (Ascii.eqb_spec a "000").
    - destruct rest as [|b rest]; [done|]. unfold JS.lone_surrogate.
      destruct (Ascii.eqb_spec a "237") as [->|]; [|done].
      specialize (Hnext eq_refl). unfold prisma.fits_next in Hnext. simpl in Hnext.
      by apply andb_true_iff in Hnext as [Hnext _]. }
  split; [done|]. intros Hlow. unfold prisma.fits_next.
  change (prisma.fits_TEXT (String "237" (String a rest)))
    with (negb (Ascii.eqb "237" "000") && negb (JS.lone_surrogate "237" a)
          && prisma.fits_TEXT (String a rest)).
  rewrite Hfits, andb_true_r. unfold JS.lone_surrogate. by rewrite Hlow.
Qed.

(** The characters of a string, quoted, followed by a text that fits after
    any other: the whole fits, and it fits after any other when the string
    does not start with the second byte of a surrogate. *)
Lemma quote_body_fits (s t : string) :
  prisma.fits_next t = true →
  prisma.fits_TEXT (JS.quote_body s +:+ t) = true
  ∧ (match s with
     | String b _ => (160 <=? N_of_ascii b)%N = false
     | EmptyString => True
     end → prisma.fits_next (JS.quote_body s +:+ t) = true).
Proof.
  intros Ht.
  cut (∀ n s, (String.length s < n)%nat →
         prisma.fits_TEXT (JS.quote_body s +:+ t) = true
         ∧ (match s with
            | String b _ => (160 <=? N_of_ascii b)%N = false
            | EmptyString => True
            end → prisma.fits_next (JS.quote_body s +:+ t) = true)).
  { intros H. apply (H (S (String.length s))). lia. }
  clear s. induction n as [|n IHn]; intros s Hn; [lia|].
  assert (IH : ∀ s', (String.length s' < String.length s)%nat →
            prisma.fits_TEXT (JS.quote_body s' +:+ t) = true
            ∧ (match s' with
               | String b _ => (160 <=? N_of_ascii b)%N = false
               | EmptyString => True
               end → prisma.fits_next (JS.quote_body s' +:+ t) = true)).
  { intros s' Hs'. apply IHn. lia. }
  clear IHn Hn. destruct s as [|a s1].
  { simpl. split; [by apply fits_next_fits|done]. }
  assert (Hstep : ∀ rest,
            prisma.fits_TEXT rest = true →
            (a = "237"%char → prisma.fits_next rest = true) →
            prisma.fits_TEXT (JS.quote_char a +:+ rest) = true
            ∧ ((160 <=? N_of_ascii a)%N = false →
               prisma.fits_next (JS.quote_char a +:+ rest) = true)).
  { intros rest Hrest Hnext.
    destruct (quote_char_cases a) as [[Hplain Hne]|[-> Hhigh]].
    - destruct (plain_then_fits _ rest Hplain Hrest) as [Hfits Hfits_next].
      split; [done|]. intros _. by apply Hfits_next.
    - apply fits_TEXT_cons; [done|done|]. intros ->. done. }
  destruct s1 as [|b s2].
  { simpl. apply Hstep; [by apply fits_next_fits|done]. }
  destruct (IH (String b s2)) as [Hrest Hnext]; [simpl; lia|].
  change (JS.quote_body (String a (String b s2)))
    with (if JS.lone_surrogate a b then
            match s2 with
            | String c s3 => JS.escape_surrogate b c +:+ JS.quote_body s3
            | EmptyString => JS.escape_surrogate b "128"
            end
          else JS.quote_char a +:+ JS.quote_body (String b s2)).
  destruct (JS.lone_surrogate a b) eqn:Hlone.
  - destruct s2 as [|c s3].
    + destruct (plain_then_fits _ t (escape_surrogate_plain b "128")
                  (fits_next_fits _ Ht)) as [Hfits Hfits_next].
      split; [done|]. intros _. by apply Hfits_next.
    + destruct (IH s3) as [Hrest3 _]; [simpl; lia|]. rewrite append_assoc.
      destruct (plain_then_fits _ _ (escape_surrogate_plain b c) Hrest3)
        as [Hfits Hfits_next].
      split; [done|]. intros _. by apply Hfits_next.
  - rewrite append_assoc. apply Hstep; [done|].
    intros ->. apply Hnext. unfold JS.lone_surrogate in Hlone. by simpl in Hlone.
Qed.

Lemma quote_fits (s : string) : prisma.fits_next (JS.quote s) = true.
Proof.
  unfold JS.quote.
  destruct (quote_body_fits s (String JS.dquote EmptyString)) as [Hfits _]; [done|].
  by apply fits_TEXT_cons.
Qed.

Lemma join_fits (sep : string) (xs : list string) :
  JS.plain sep = true → sep ≠ "" → Forall (λ x, prisma.fits_next x = true) xs →
  prisma.fits_next (JS.join sep xs) = true.
Proof.
  intros Hsep Hne. induction 1 as [|x xs Hx Hxs IH]; [done|]. simpl.
  destruct xs as [|y ys]; [done|].
  apply fits_next_app; [done|].
  by apply plain_then_fits; [|apply fits_next_fits|].
Qed.

Lemma JSON_stringify_fits_next (v : JS.value) :
  prisma.fits_next (JS.JSON_stringify v) = true.
Proof.
  revert v. fix IH 1. intros [|[]|n|s|xs|props]; simpl; try done.
  - unfold JS.number_to_string. destruct (JS.to_double n) eqn:Hd; try done;
      apply plain_fits_next, double_to_string_plain.
  - apply quote_fits.
  - apply (fits_next_app "["); [done|]. apply fits_next_app; [|done].
    apply join_fits; [done|done|].
    clear -IH. revert xs. fix IHxs 1. intros [|x xs]; simpl; constructor;
      [apply IH|apply IHxs].
  - apply (fits_next_app "{"); [done|]. apply fits_next_app; [|done].
    apply join_fits; [done|done|].
    clear -IH. revert props. fix IHprops 1. intros [|[k x] props]; simpl; constructor.
    + apply fits_next_app; [apply quote_fits|]. apply (fits_next_app ":"); [done|apply IH].
    + apply IHprops.
Qed.

Lemma JSON_stringify_fits (v : JS.value) : prisma.fits_TEXT (JS.JSON_stringify v) = true.
Proof. apply fits_next_fits, JSON_stringify_fits_next. Qed.

Lemma stringify_or_null_fits (v : JS.value) :
  prisma.fits_TEXT_or_null (stringify_or_null v) = true.
Proof.
  unfold stringify_or_null. destruct (JS.truthy v); [|done]. apply JSON_stringify_fits.
Qed.

(** ** Aggregation of the transcript *)

Lemma NoDup_fmap_eq {A B} (f : A → B) (l : list A) (x y : A) :
  NoDup (f <$> l) → x ∈ l → y ∈ l → f x = f y → x = y.
Proof.
  induction l as [|a l IH]; intros Hnd Hx Hy Hf; [by inv Hx|].
  rewrite fmap_cons in Hnd. apply NoDup_cons in Hnd as [Ha Hnd].
  inv Hx; inv Hy; auto.
  - exfalso. apply Ha. rewrite Hf. by apply list_elem_of_fmap_2.
  - exfalso. apply Ha. rewrite <- Hf. by apply list_elem_of_fmap_2.
Qed.

Lemma findMany_sorted (sessionId : string) (d : prisma.Db) :
  StronglySorted prisma.index_le (prisma.transcriptChunk_findMany sessionId d).
Proof. apply StronglySorted_merge_sort; apply _. Qed.

Lemma findMany_Permutation (sessionId : string) (d : prisma.Db) :
  prisma.transcriptChunk_findMany sessionId d ≡ₚ prisma.chunks_of sessionId (prisma.chunks d).
Proof. apply merge_sort_Permutation. Qed.

Lemma index_lt_le (l : list TranscriptChunk) :
  StronglySorted prisma.index_lt l → StronglySorted prisma.index_le l.
Proof.
  induction 1 as [|x l ? IH Hx]; constructor; [done|].
  eapply Forall_impl; [exact Hx|]. unfold prisma.index_lt, prisma.index_le. intros; lia.
Qed.

Lemma fullTranscript_fmap (l : list TranscriptChunk) :
  fullTranscript l = JS.join " " (snd <$> (prisma.indexed_text <$> l)).
Proof. unfold fullTranscript. by rewrite <- list_fmap_compose. Qed.

(** C1. For a session whose stored chunks have unique indices, the transcript
    computed by finalization is the chunks' text in ascending index order
    joined by single spaces: it equals the join over any strictly ascending
    arrangement of the session's chunks, so two databases holding for the
    session the same chunks (index and text) in any order, under any row
    identifiers, give the same transcript; with no chunk the transcript is
    the empty string. *)
Theorem fullTranscript_by_index (sessionId : string) (d1 d2 : prisma.Db) :
  NoDup (Chunk_index <$> prisma.chunks_of sessionId (prisma.chunks d1)) →
  prisma.indexed_text <$> prisma.chunks_of sessionId (prisma.chunks d1)
  ≡ₚ prisma.indexed_text <$> prisma.chunks_of sessionId (prisma.chunks d2) →
  (∀ ascending,
     ascending ≡ₚ prisma.chunks_of sessionId (prisma.chunks d1) →
     StronglySorted prisma.index_lt ascending →
     fullTranscript (prisma.transcriptChunk_findMany sessionId d1)
     = JS.join " " (Chunk_text <$> ascending))
  ∧ fullTranscript (prisma.transcriptChunk_findMany sessionId d1)
    = fullTranscript (prisma.transcriptChunk_findMany sessionId d2)
  ∧ (prisma.chunks_of sessionId (prisma.chunks d1) = [] →
     fullTranscript (prisma.transcriptChunk_findMany sessionId d1) = "").
Proof.
  intros Hnd Hperm. split; [|split].
  - intros asc Hasc Hsorted.
    assert (prisma.transcriptChunk_findMany sessionId d1 = asc) as ->; [|done].
    apply (StronglySorted_unique_strong prisma.index_le).
    + intros x1 x2 Hx1 Hx2 H12 H21.
      rewrite findMany_Permutation in Hx1. rewrite Hasc in Hx2.
      apply (NoDup_fmap_eq Chunk_index _ _ _ Hnd Hx1 Hx2).
      unfold prisma.index_le in *. lia.
    + apply findMany_sorted.
    + by apply index_lt_le.
    + by rewrite findMany_Permutation.
  - rewrite !fullTranscript_fmap. do 2 f_equal.
    apply (StronglySorted_unique_strong (λ a b : Z * string, a.1 ≤ b.1)).
    + intros x1 x2 Hx1 Hx2 H12 H21.
      rewrite findMany_Permutation in Hx1. rewrite findMany_Permutation, <- Hperm in Hx2.
      apply (NoDup_fmap_eq fst
               (prisma.indexed_text <$> prisma.chunks_of sessionId (prisma.chunks d1)));
        try done.
      * by rewrite <- list_fmap_compose.
      * lia.
    + eapply StronglySorted_fmap; [|apply findMany_sorted]. intros x y Hxy. exact Hxy.
    + eapply StronglySorted_fmap; [|apply findMany_sorted]. intros x y Hxy. exact Hxy.
    + by rewrite !findMany_Permutation.
  - intros Hempty. unfold prisma.transcriptChunk_findMany. by rewrite Hempty.
Qed.

Lemma fullTranscript_by_index_witness :
  NoDup (Chunk_index <$> prisma.chunks_of sample.S1 (prisma.chunks sample.world_hello))
  ∧ prisma.indexed_text <$> prisma.chunks_of sample.S1 (prisma.chunks sample.world_hello)
    ≡ₚ prisma.indexed_text <$> prisma.chunks_of sample.S1 (prisma.chunks sample.hello_world)
  ∧ fullTranscript (prisma.transcriptChunk_findMany sample.S1 sample.world_hello)
    = fullTranscript (prisma.transcriptChunk_findMany sample.S1 sample.hello_world).
Proof.
  assert (H1 : NoDup (Chunk_index <$>
                 prisma.chunks_of sample.S1 (prisma.chunks sample.world_hello))).
  { apply (bool_decide_unpack _). vm_compute. exact I. }
  assert (H2 : prisma.indexed_text <$>
                 prisma.chunks_of sample.S1 (prisma.chunks sample.world_hello)
               ≡ₚ prisma.indexed_text <$>
                    prisma.chunks_of sample.S1 (prisma.chunks sample.hello_world)).
  { vm_compute. apply perm_swap. }
  split; [exact H1|]. split; [exact H2|].
  exact (proj1 (proj2 (fullTranscript_by_index sample.S1 _ _ H1 H2))).
Defined.

Example fullTranscript_hello_world :
  fullTranscript (prisma.transcriptChunk_findMany sample.S1 sample.world_hello)
  = "hello world".
Proof. vm_compute. reflexivity. Qed.

(** ** The recorder machine *)

(** The machine's [on] table is the lifecycle table of the specification
    plus one transition: [ERROR] while recording. *)
Lemma on_lifecycle_table (s : recorderMachine.State) (e : recorderMachine.RecorderEvent) :
  fst <$> recorderMachine.on s e =
  match s, e with
  | recorderMachine.recording, recorderMachine.ERROR _ => Some recorderMachine.error
  | _, _ => recorderMachine.lifecycle_table s e
  end.
Proof. destruct s, e; reflexivity. Qed.

(** C8, as stated, fails: [ERROR] is not listed for [recording] in the
    lifecycle table, yet the machine handles it there, moving to [error] and
    recording the message. *)
Lemma recording_ERROR_is_handled :
  recorderMachine.lifecycle_table recorderMachine.recording (recorderMachine.ERROR "lost")
  = None
  ∧ recorderMachine.transition (recorderMachine.recording, recorderMachine.context)
      (recorderMachine.ERROR "lost")
    = Some (recorderMachine.error,
            {| recorderMachine.sessionId := None;
               recorderMachine.sourceType := recorderMachine.MIC;
               recorderMachine.statusMessage := "Error";
               recorderMachine.errorMessage := Some "lost" |})
  ∧ recorderMachine.transition (recorderMachine.recording, recorderMachine.context)
      (recorderMachine.ERROR "lost")
    ≠ Some (recorderMachine.recording, recorderMachine.context).
Proof. split; [reflexivity|]. split; [reflexivity|]. discriminate. Qed.

(** C8, amended. An event that the lifecycle table does not list for the
    current state, other than [ERROR] while recording, is ignored: the
    machine answers with the same state and the same context, and raises
    nothing. *)
Theorem unlisted_event_is_ignored (s : recorderMachine.State)
    (c : recorderMachine.RecorderContext) (e : recorderMachine.RecorderEvent) :
  recorderMachine.lifecycle_table s e = None →
  (s = recorderMachine.recording → ∀ message, e ≠ recorderMachine.ERROR message) →
  recorderMachine.transition (s, c) e = Some (s, c).
Proof.
  intros Hunlisted Hnot. unfold recorderMachine.transition.
  destruct s, e; simpl in *; try discriminate; try reflexivity.
  exfalso. by eapply Hnot.
Qed.

Lemma unlisted_event_is_ignored_witness :
  recorderMachine.transition (recorderMachine.idle, recorderMachine.context)
    recorderMachine.PAUSE
  = Some (recorderMachine.idle, recorderMachine.context).
Proof.
  apply (unlisted_event_is_ignored recorderMachine.idle recorderMachine.context
           recorderMachine.PAUSE).
  - reflexivity.
  - discriminate.
Defined.

(** ** JSON.parse never runs out of fuel *)

Section JSON_fuel.
Import JS.

Lemma skip_ws_length (s : string) : (String.length (skip_ws s) ≤ String.length s)%nat.
Proof. induction s as [|c s IH]; simpl; [lia|]. destruct (is_json_ws c); simpl; lia. Qed.

Lemma expect_length (c : ascii) (s rest : string) :
  expect c s = Some rest → String.length s = S (String.length rest).
Proof.
  destruct s as [|c' s]; simpl; [done|].
  destruct (Ascii.eqb c c'); [|done]. by intros [= ->].
Qed.

Lemma strip_prefix_length (p s rest : string) :
  strip_prefix p s = Some rest →
  String.length s = (String.length p + String.length rest)%nat.
Proof.
  revert s. induction p as [|a p IH]; intros s; simpl.
  - by intros [= ->].
  - destruct s as [|b s]; [done|]. destruct (Ascii.eqb a b); [|done].
    intros H. apply IH in H. simpl. lia.
Qed.

Lemma read_digits_length (s : string) (acc count : Z) :
  (String.length (read_digits s acc count).2 ≤ String.length s)%nat.
Proof.
  revert acc count. induction s as [|c s IH]; intros acc count; simpl; [lia|].
  destruct (digit_value c); simpl; [|lia]. specialize (IH (10 * acc + z) (count + 1)). lia.
Qed.

Lemma parse_string_body_length (s : string) (hi : option N) (acc str rest : string) :
  parse_string_body s hi acc = Some (str, rest) →
  (String.length rest < String.length s)%nat.
Proof.
  remember (String.length s) as n eqn:Hn.
  revert s hi acc Hn. induction n as [n IH] using lt_wf_ind.
  intros s hi acc -> H. destruct s as [|c s']; simpl in H; [done|].
  destruct (Ascii.eqb c dquote); [injection H as _ <-; simpl; lia|].
  destruct (Ascii.eqb c "\").
  - destruct s' as [|e s'']; [done|].
    destruct (Ascii.eqb e "u").
    + destruct s'' as [|a [|b [|c' [|d rest']]]]; try done.
      destruct (hex_value a), (hex_value b), (hex_value c'), (hex_value d); try done.
      destruct (push_code_unit _ hi acc) as [hi' acc'].
      eapply IH in H; [| |reflexivity]; simpl in *; lia.
    + destruct (simple_escape e); [|done].
      eapply IH in H; [| |reflexivity]; simpl in *; lia.
  - destruct (N_of_ascii c <? 32)%N; [done|].
    eapply IH in H; [| |reflexivity]; simpl in *; lia.
Qed.

Lemma parse_fraction_length (int : Z) (s : string) (m k : Z) (rest : string) :
  parse_fraction int s = Some (m, k, rest) → (String.length rest ≤ String.length s)%nat.
Proof.
  unfold parse_fraction. destruct (expect "." s) as [s'|] eqn:Hpoint.
  - apply expect_length in Hpoint.
    pose proof (read_digits_length s' int 0) as Hlen.
    destruct (read_digits s' int 0) as [[m' k'] rest'].
    destruct (k' =? 0); [done|]. intros [= _ _ <-]. simpl in Hlen. lia.
  - intros [= _ _ <-]. lia.
Qed.

Lemma parse_exponent_length (s : string) (e : Z) (rest : string) :
  parse_exponent s = Some (e, rest) → (String.length rest ≤ String.length s)%nat.
Proof.
  unfold parse_exponent. destruct s as [|c s']; [by intros [= _ <-]|].
  destruct (Ascii.eqb c "e" || Ascii.eqb c "E"); [|by intros [= _ <-]].
  assert (∀ b s'', (String.length s'' ≤ String.length s')%nat →
            (let '(e0, k, rest0) := read_digits s'' 0 0 in
             if k =? 0 then None else Some (if b : bool then - e0 else e0, rest0))
            = Some (e, rest) →
            (String.length rest ≤ String.length (String c s'))%nat) as Haux.
  { intros b s'' Hs''. pose proof (read_digits_length s'' 0 0) as Hlen.
    destruct (read_digits s'' 0 0) as [[e0 k] rest0].
    destruct (k =? 0); [done|]. intros [= _ <-]. simpl in *. lia. }
  destruct (expect "-" s') as [t|] eqn:Hminus.
  - apply expect_length in Hminus. intros H. apply (Haux true t); [lia|exact H].
  - destruct (expect "+" s') as [t|] eqn:Hplus.
    + apply expect_length in Hplus. intros H. apply (Haux false t); [lia|exact H].
    + intros H. apply (Haux false s'); [lia|exact H].
Qed.

Lemma parse_unsigned_length (s : string) (n : number) (rest : string) :
  parse_unsigned s = Some (n, rest) → (String.length rest < String.length s)%nat.
Proof.
  unfold parse_unsigned. destruct s as [|c s']; [done|].
  destruct (digit_value c) as [d|]; [|done]. simpl.
  assert (∃ int k s1, (if d =? 0 then (0, 0, s') else read_digits s' d 1) = (int, k, s1)
                      ∧ (String.length s1 ≤ String.length s')%nat) as (int & k & s1 & -> & Hs1).
  { destruct (d =? 0); [by eexists _, _, _|].
    pose proof (read_digits_length s' d 1).
    destruct (read_digits s' d 1) as [[int k] s1]. by eexists _, _, _. }
  destruct (parse_fraction int s1) as [[[m fracs] s2]|] eqn:Hfrac; [|done].
  apply parse_fraction_length in Hfrac. simpl.
  destruct (parse_exponent s2) as [[e rest']|] eqn:Hexp; [|done].
  apply parse_exponent_length in Hexp. simpl. intros [= _ <-]. lia.
Qed.

Lemma parse_number_length (s : string) (n : number) (rest : string) :
  parse_number s = Some (n, rest) → (String.length rest < String.length s)%nat.
Proof.
  unfold parse_number. destruct (expect "-" s) as [s'|] eqn:Hminus.
  - apply expect_length in Hminus.
    destruct (parse_unsigned s') as [[n' rest']|] eqn:Hu; [|done].
    apply parse_unsigned_length in Hu. simpl. intros [= _ <-]. lia.
  - apply parse_unsigned_length.
Qed.

(** A value, an element list and a member list each consume at least one
    character. *)
Lemma parse_consumes (fuel : nat) :
  (∀ s v rest, parse_value fuel s = Parsed v rest →
     (String.length rest < String.length s)%nat)
  ∧ (∀ s acc xs rest, parse_elements fuel s acc = Parsed xs rest →
     (String.length rest < String.length s)%nat)
  ∧ (∀ s acc props rest, parse_members fuel s acc = Parsed props rest →
     (String.length rest < String.length s)%nat).
Proof.
  induction fuel as [|fuel (IHv & IHe & IHm)]; [by repeat split|].
  split; [|split].
  - intros s v rest. simpl. pose proof (skip_ws_length s) as Hws.
    destruct (skip_ws s) as [|c s'] eqn:Hs; [done|]. simpl in Hws.
    destruct (Ascii.eqb c "[").
    { pose proof (skip_ws_length s') as Hws'.
      destruct (expect "]" (skip_ws s')) as [r|] eqn:Hclose.
      - apply expect_length in Hclose. intros [= _ <-]. lia.
      - destruct (parse_elements fuel s' []) as [| |xs r] eqn:He; try done.
        apply IHe in He. intros [= _ <-]. lia. }
    destruct (Ascii.eqb c "{").
    { pose proof (skip_ws_length s') as Hws'.
      destruct (expect "}" (skip_ws s')) as [r|] eqn:Hclose.
      - apply expect_length in Hclose. intros [= _ <-]. lia.
      - destruct (parse_members fuel s' []) as [| |xs r] eqn:He; try done.
        apply IHm in He. intros [= _ <-]. lia. }
    destruct (Ascii.eqb c dquote).
    { destruct (parse_string_body s' None "") as [[str r]|] eqn:Hstr; [|done].
      apply parse_string_body_length in Hstr. intros [= _ <-]. lia. }
    assert (∀ name lit, parse_literal name lit (String c s') = Parsed v rest →
              name ≠ "" → (String.length rest < String.length s)%nat) as Hlit.
    { intros name lit. unfold parse_literal.
      destruct (strip_prefix name (String c s')) as [r|] eqn:Hp; [|done].
      apply strip_prefix_length in Hp. intros [= _ <-] Hne.
      destruct name; [done|]. simpl in *. lia. }
    destruct (Ascii.eqb c "t"); [intros H; by eapply Hlit|].
    destruct (Ascii.eqb c "f"); [intros H; by eapply Hlit|].
    destruct (Ascii.eqb c "n"); [intros H; by eapply Hlit|].
    destruct (parse_number (String c s')) as [[n r]|] eqn:Hnum; [|done].
    apply parse_number_length in Hnum. intros [= _ <-]. simpl in *. lia.
  - intros s acc xs rest. simpl.
    destruct (parse_value fuel s) as [| |v r] eqn:Hv; try done.
    apply IHv in Hv. pose proof (skip_ws_length r) as Hws.
    destruct (expect "," (skip_ws r)) as [r'|] eqn:Hcomma.
    + apply expect_length in Hcomma. intros He. apply IHe in He. lia.
    + destruct (expect "]" (skip_ws r)) as [r'|] eqn:Hclose; [|done].
      apply expect_length in Hclose. intros [= _ <-]. lia.
  - intros s acc props rest. simpl. pose proof (skip_ws_length s) as Hws.
    destruct (expect dquote (skip_ws s)) as [s'|] eqn:Hq; [|done].
    apply expect_length in Hq.
    destruct (parse_string_body s' None "") as [[k r]|] eqn:Hk; [|done].
    apply parse_string_body_length in Hk. pose proof (skip_ws_length r) as Hwr.
    destruct (expect ":" (skip_ws r)) as [r'|] eqn:Hcolon; [|done].
    apply expect_length in Hcolon.
    destruct (parse_value fuel r') as [| |v r''] eqn:Hv; try done.
    apply IHv in Hv. pose proof (skip_ws_length r'') as Hwr''.
    destruct (expect "," (skip_ws r'')) as [t|] eqn:Hcomma.
    + apply expect_length in Hcomma. intros Hm. apply IHm in Hm. lia.
    + destruct (expect "}" (skip_ws r'')) as [t|] eqn:Hclose; [|done].
      apply expect_length in Hclose. intros [= _ <-]. lia.
Qed.

(** Fuel twice the length of the text, and one more, is never used up. *)
Lemma parse_fuel (fuel : nat) :
  (∀ s, (2 * String.length s + 1 ≤ fuel)%nat → parse_value fuel s ≠ OutOfFuel)
  ∧ (∀ s acc, (2 * String.length s + 2 ≤ fuel)%nat → parse_elements fuel s acc ≠ OutOfFuel)
  ∧ (∀ s acc, (2 * String.length s + 2 ≤ fuel)%nat → parse_members fuel s acc ≠ OutOfFuel).
Proof.
  induction fuel as [|fuel (IHv & IHe & IHm)]; [repeat split; intros; lia|].
  split; [|split].
  - intros s Hfuel. simpl. pose proof (skip_ws_length s) as Hws.
    destruct (skip_ws s) as [|c s'] eqn:Hs; [done|]. simpl in Hws.
    destruct (Ascii.eqb c "[").
    { destruct (expect "]" (skip_ws s')); [done|].
      specialize (IHe s' []). destruct (parse_elements fuel s' []); try done.
      exfalso. apply IHe; [lia|done]. }
    destruct (Ascii.eqb c "{").
    { destruct (expect "}" (skip_ws s')); [done|].
      specialize (IHm s' []). destruct (parse_members fuel s' []); try done.
      exfalso. apply IHm; [lia|done]. }
    destruct (Ascii.eqb c dquote).
    { by destruct (parse_string_body s' None "") as [[??]|]. }
    unfold parse_literal.
    destruct (Ascii.eqb c "t"); [by destruct (strip_prefix _ _)|].
    destruct (Ascii.eqb c "f"); [by destruct (strip_prefix _ _)|].
    destruct (Ascii.eqb c "n"); [by destruct (strip_prefix _ _)|].
    by destruct (parse_number _) as [[??]|].
  - intros s acc Hfuel. simpl.
    pose proof (IHv s) as Hv. pose proof (proj1 (parse_consumes fuel) s) as Hc.
    destruct (parse_value fuel s) as [| |v r]; [exfalso; apply Hv; [lia|done]|done|].
    specialize (Hc _ _ eq_refl). pose proof (skip_ws_length r) as Hws.
    destruct (expect "," (skip_ws r)) as [r'|] eqn:Hcomma.
    + apply expect_length in Hcomma. apply IHe. lia.
    + by destruct (expect "]" (skip_ws r)).
  - intros s acc Hfuel. simpl. pose proof (skip_ws_length s) as Hws.
    destruct (expect dquote (skip_ws s)) as [s'|] eqn:Hq; [|done].
    apply expect_length in Hq.
    destruct (parse_string_body s' None "") as [[k r]|] eqn:Hk; [|done].
    apply parse_string_body_length in Hk. pose proof (skip_ws_length r) as Hwr.
    destruct (expect ":" (skip_ws r)) as [r'|] eqn:Hcolon; [|done].
    apply expect_length in Hcolon.
    pose proof (IHv r') as Hv. pose proof (proj1 (parse_consumes fuel) r') as Hc.
    destruct (parse_value fuel r') as [| |v r'']; [exfalso; apply Hv; [lia|done]|done|].
    specialize (Hc _ _ eq_refl). pose proof (skip_ws_length r'') as Hwr''.
    destruct (expect "," (skip_ws r'')) as [t|] eqn:Hcomma.
    + apply expect_length in Hcomma. apply IHm. lia.
    + by destruct (expect "}" (skip_ws r'')).
Qed.

(** [JSON_parse] answers [None] only for text that is not JSON. *)
Lemma parse_value_fuel (s : string) :
  parse_value (2 * String.length s + 1) s ≠ OutOfFuel.
Proof. by apply (parse_fuel (2 * String.length s + 1)). Qed.

End JSON_fuel.

(** ** The summarization gateway *)

Example JSON_parse_fenced :
  JS.JSON_parse (JS.trim (JS.remove_all ["```json"; "```"] 0
    (JS.q "```json
{'summary': 'Kickoff.', 'keyPoints': ['scope'], 'actionItems': [], 'decisions': ['ship']}
```")))
  = Some (JS.VObj [("summary", JS.VStr "Kickoff."); ("keyPoints", strings ["scope"]);
                   ("actionItems", strings []); ("decisions", strings ["ship"])]).
Proof. vm_compute. reflexivity. Qed.

(** C6. Whatever text the summary model answers with: when the text, cleared
    of Markdown fences, parses as JSON of the expected shape, the structured
    fields are returned; when it does not parse, the result is still a
    success, with the raw text as content and the three lists null. The
    answer [not json] is of the second kind. *)
Theorem summarizeTranscript_structured_or_raw (env : Env) (transcript text : string)
    (w : World) :
  summaryModel env (summary_prompt +:+ transcript) = Ok text →
  let raw := JS.trim text in
  let parsed := JS.JSON_parse (JS.trim (JS.remove_all ["```json"; "```"] 0 raw)) in
  let result := (summarizeTranscript env transcript w).1 in
  (∀ v summary keyPoints actionItems decisions,
     parsed = Some v →
     expected_shape v summary keyPoints actionItems decisions →
     result = Ok {| content := JS.VStr summary; keyPoints := strings keyPoints;
                    actionItems := strings actionItems; decisions := strings decisions |})
  ∧ (parsed = None →
     result = Ok {| content := JS.VStr raw; keyPoints := JS.VNull;
                    actionItems := JS.VNull; decisions := JS.VNull |})
  ∧ (text = "not json" →
     result = Ok {| content := JS.VStr "not json"; keyPoints := JS.VNull;
                    actionItems := JS.VNull; decisions := JS.VNull |}).
Proof.
  intros Hmodel raw parsed result.
  assert (Hrun : result =
    match parsed with
    | None => Ok {| content := JS.VStr raw; keyPoints := JS.VNull;
                    actionItems := JS.VNull; decisions := JS.VNull |}
    | Some v =>
        let safe := JS.nullish (Some v) (JS.VObj []) in
        Ok {| content := JS.nullish (JS.get safe "summary") (JS.VStr raw);
              keyPoints := JS.nullish (JS.get safe "keyPoints") JS.VNull;
              actionItems := JS.nullish (JS.get safe "actionItems") JS.VNull;
              decisions := JS.nullish (JS.get safe "decisions") JS.VNull |}
    end).
  { unfold result, summarizeTranscript, mbind, M_bind, summary_generateContent.
    rewrite Hmodel. fold raw. fold parsed. by destruct parsed. }
  split; [|split].
  - intros v summary kp ai dc Hv (Hs & Hk & Ha & Hd). rewrite Hrun, Hv.
    destruct v; try discriminate Hs. simpl in *. by rewrite Hs, Hk, Ha, Hd.
  - intros Hnone. by rewrite Hrun, Hnone.
  - intros ->. rewrite Hrun. unfold parsed, raw. vm_compute. reflexivity.
Qed.

Lemma summarizeTranscript_structured_or_raw_witness :
  summaryModel sample.env (summary_prompt +:+ "hello world") = Ok "not json"
  ∧ (summarizeTranscript sample.env "hello world" (sample.world sample.hello_world)).1
    = Ok {| content := JS.VStr "not json"; keyPoints := JS.VNull;
            actionItems := JS.VNull; decisions := JS.VNull |}.
Proof.
  split; [reflexivity|].
  exact (proj2 (proj2 (summarizeTranscript_structured_or_raw sample.env "hello world"
                         "not json" (sample.world sample.hello_world) eq_refl)) eq_refl).
Defined.

(** ** Validation of inbound events *)

Lemma bool_decide_is_Some_false {A} (o : option A) :
  bool_decide (is_Some o) = false → o = None.
Proof. destruct o; [|done]. intros H. apply bool_decide_eq_false in H. by destruct H. Qed.

(** C5. A payload that fails the schema of its event makes the handler emit
    one error event, to the sender, and do nothing else: the database, the
    rooms and the count of database round trips are unchanged, and the only
    addition to what was sent is that error event (no request to Gemini, no
    broadcast). *)
Theorem invalid_payload_only_reports (env : Env) (event : Inbound) (socket : string)
    (payload : JS.value) (w : World) :
  valid event payload = false →
  handle env event socket payload w
  = (Ok (),
     only_emitted socket
       (session_error ("Invalid " +:+ event_name event +:+ " payload")) w).
Proof.
  intros Hinvalid.
  destruct event; simpl in Hinvalid; apply bool_decide_is_Some_false in Hinvalid;
    unfold handle, on_session_start, on_session_audioChunk, on_session_pause,
      on_session_resume, on_session_stop; rewrite Hinvalid; reflexivity.
Qed.

Lemma invalid_payload_only_reports_witness :
  valid session_audioChunk (sample.audioChunk_payload (-1) "AAAA") = false
  ∧ handle sample.env session_audioChunk "socket-1" (sample.audioChunk_payload (-1) "AAAA")
      (sample.world sample.hello_world)
    = (Ok (),
       only_emitted "socket-1" (session_error "Invalid session:audioChunk payload")
         (sample.world sample.hello_world)).
Proof.
  split; [reflexivity|].
  apply (invalid_payload_only_reports sample.env session_audioChunk). reflexivity.
Defined.

Lemma not_uuid_invalid (event : Inbound) (payload : JS.value) :
  z.string_uuid (JS.get payload "sessionId") = None → valid event payload = false.
Proof.
  intros Hid.
  destruct event; simpl; apply bool_decide_eq_false_2; intros [data Hdata];
    unfold SessionStartSchema.safeParse, AudioChunkSchema.safeParse,
      SessionControlSchema.safeParse in Hdata;
    destruct (z.object payload) as [o|] eqn:Ho; simpl in Hdata; try discriminate;
    (assert (o = payload) as -> by (destruct payload; simpl in Ho; congruence));
    rewrite Hid in Hdata; discriminate.
Qed.

(** C10. Whatever the event, a payload whose [sessionId] is missing, is not a
    string, or is a string that is not in UUID format is rejected: an error
    event goes to the sender and nothing else happens, so such a token
    neither creates a session nor reaches one. *)
Theorem non_uuid_sessionId_is_rejected (env : Env) (event : Inbound) (socket : string)
    (payload : JS.value) (w : World) :
  (∀ s, JS.get payload "sessionId" = Some (JS.VStr s) → z.uuid s = false) →
  handle env event socket payload w
  = (Ok (),
     only_emitted socket
       (session_error ("Invalid " +:+ event_name event +:+ " payload")) w).
Proof.
  intros Hid. apply invalid_payload_only_reports, not_uuid_invalid.
  unfold z.string_uuid, z.string.
  destruct (JS.get payload "sessionId") as [[| | |s| |]|] eqn:Hget; try reflexivity.
  simpl. by rewrite (Hid s).
Qed.

Lemma non_uuid_sessionId_is_rejected_witness :
  handle sample.env session_start "socket-1"
    (JS.VObj [("sessionId", JS.VStr "S1"); ("userId", JS.VStr "u1");
              ("sourceType", JS.VStr "MIC")])
    (sample.world sample.hello_world)
  = (Ok (),
     only_emitted "socket-1" (session_error "Invalid session:start payload")
       (sample.world sample.hello_world)).
Proof.
  apply (non_uuid_sessionId_is_rejected sample.env session_start).
  intros s [= <-]. reflexivity.
Defined.

(** ** Live transcription *)

(** A chunk whose transcription succeeds with some text that the database
    can store, for a session that exists, is stored and broadcast. *)
Lemma audioChunk_stored (env : Env) (socket : string) (payload : JS.value)
    (data : AudioChunkSchema.data) (text : string) (w : World) :
  AudioChunkSchema.safeParse payload = Some data →
  transcribeModel env (Buffer_from_base64 env (AudioChunkSchema.audioBase64 data))
    (AudioChunkSchema.mimeType data) = Ok text →
  JS.trim text ≠ "" →
  prisma.fits_TEXT (JS.trim text) = true →
  connection_fails env (tick w) = false →
  is_Some (prisma.sessions (db w) !! AudioChunkSchema.sessionId data) →
  prisma.fits_Int (AudioChunkSchema.index data)
  && prisma.fits_Int (AudioChunkSchema.startMs data)
  && prisma.fits_Int (AudioChunkSchema.endMs data) = true →
  let sessionId := AudioChunkSchema.sessionId data in
  let index := AudioChunkSchema.index data in
  let startMs := AudioChunkSchema.startMs data in
  let endMs := AudioChunkSchema.endMs data in
  ∃ w',
    handle env session_audioChunk socket payload w = (Ok (), w')
    ∧ prisma.chunks (db w')
      = prisma.chunks (db w)
        ++ [{| Chunk_id := prisma.fresh_id (db w); Chunk_sessionId := sessionId;
               Chunk_index := index; Chunk_text := JS.trim text;
               Chunk_startMs := startMs; Chunk_endMs := endMs;
               Chunk_createdAt := clock env (tick w) |}]
    ∧ prisma.sessions (db w') = prisma.sessions (db w)
    ∧ sent w'
      = sent w
        ++ [transcribe_request
              (Buffer_from_base64 env (AudioChunkSchema.audioBase64 data))
              (AudioChunkSchema.mimeType data);
            io_to_emit sessionId
              (session_partialTranscript sessionId index (JS.trim text) startMs endMs)].
Proof.
  intros Hparse Hmodel Htext Hstorable Hconn Hsession Hfits. simpl.
  pose proof (AudioChunkSchema_accepts _ _ Hparse) as (_ & Huuid%uuid_fits & _).
  unfold handle, on_session_audioChunk. rewrite Hparse.
  unfold try_catch, audioChunk_try, transcribeChunk, mbind, M_bind,
    transcribe_generateContent, mret, M_ret.
  rewrite Hmodel.
  destruct (String.eqb (JS.trim text) "") eqn:Hempty.
  { by apply String.eqb_eq in Hempty. }
  unfold appendTranscriptChunk, query, emit_effect. simpl. rewrite Hconn.
  unfold prisma.transcriptChunk_create. rewrite Hfits, Huuid, Hstorable. simpl.
  rewrite (bool_decide_eq_true_2 _ Hsession). simpl.
  eexists. split; [reflexivity|]. simpl. rewrite <- app_assoc. done.
Qed.

(** C7, as stated, fails: the failure is not silent. On a chunk whose
    transcription fails, the handler emits a [session:error] event to the
    sender. *)
Lemma failed_transcription_is_reported :
  let w := sample.world sample.hello_world in
  let w' :=
    (handle sample.env session_audioChunk "socket-1" (sample.audioChunk_payload 2 "boom")
       w).2 in
  transcribeModel sample.env (Buffer_from_base64 sample.env "boom") "audio/webm"
  = Throw GeminiError
  ∧ events w = []
  ∧ events w' = [socket_emit "socket-1" (session_error "Failed to process audio chunk")].
Proof. vm_compute. repeat split; reflexivity. Qed.

(** C7, amended. When the transcription model fails on a chunk, the handler
    tells the sender, and the sender alone, with a [session:error] event, and
    otherwise tolerates the failure: it ends normally, having changed neither
    the database (no chunk is stored, the status stays as it was) nor the
    rooms, and it broadcasts nothing. A later chunk of the same session is
    then processed as usual: once transcribed to a text the database can
    store (some well-formed text without U+0000) it is stored and
    broadcast. *)
Theorem failed_transcription_is_tolerated (env : Env) (socket : string)
    (payload : JS.value) (data : AudioChunkSchema.data) (e : Error) (w : World) :
  AudioChunkSchema.safeParse payload = Some data →
  transcribeModel env (Buffer_from_base64 env (AudioChunkSchema.audioBase64 data))
    (AudioChunkSchema.mimeType data) = Throw e →
  let w' :=
    {| db := db w; rooms := rooms w;
       sent := sent w
               ++ [transcribe_request
                     (Buffer_from_base64 env (AudioChunkSchema.audioBase64 data))
                     (AudioChunkSchema.mimeType data);
                   socket_emit socket (session_error "Failed to process audio chunk")];
       tick := tick w |} in
  handle env session_audioChunk socket payload w = (Ok (), w')
  ∧ ∀ socket2 payload2 data2 text2,
      AudioChunkSchema.safeParse payload2 = Some data2 →
      AudioChunkSchema.sessionId data2 = AudioChunkSchema.sessionId data →
      transcribeModel env (Buffer_from_base64 env (AudioChunkSchema.audioBase64 data2))
        (AudioChunkSchema.mimeType data2) = Ok text2 →
      JS.trim text2 ≠ "" →
      prisma.fits_TEXT (JS.trim text2) = true →
      connection_fails env (tick w) = false →
      is_Some (prisma.sessions (db w) !! AudioChunkSchema.sessionId data) →
      prisma.fits_Int (AudioChunkSchema.index data2)
      && prisma.fits_Int (AudioChunkSchema.startMs data2)
      && prisma.fits_Int (AudioChunkSchema.endMs data2) = true →
      ∃ w'',
        handle env session_audioChunk socket2 payload2 w' = (Ok (), w'')
        ∧ prisma.chunks (db w'')
          = prisma.chunks (db w)
            ++ [{| Chunk_id := prisma.fresh_id (db w);
                   Chunk_sessionId := AudioChunkSchema.sessionId data;
                   Chunk_index := AudioChunkSchema.index data2;
                   Chunk_text := JS.trim text2;
                   Chunk_startMs := AudioChunkSchema.startMs data2;
                   Chunk_endMs := AudioChunkSchema.endMs data2;
                   Chunk_createdAt := clock env (tick w) |}]
        ∧ prisma.sessions (db w'') = prisma.sessions (db w)
        ∧ sent w''
          = sent w'
            ++ [transcribe_request
                  (Buffer_from_base64 env (AudioChunkSchema.audioBase64 data2))
                  (AudioChunkSchema.mimeType data2);
                io_to_emit (AudioChunkSchema.sessionId data)
                  (session_partialTranscript (AudioChunkSchema.sessionId data)
                     (AudioChunkSchema.index data2) (JS.trim text2)
                     (AudioChunkSchema.startMs data2) (AudioChunkSchema.endMs data2))].
Proof.
  intros Hparse Hmodel w'. split.
  - unfold handle, on_session_audioChunk. rewrite Hparse.
    unfold try_catch, audioChunk_try, transcribeChunk, mbind, M_bind,
      transcribe_generateContent, emit_effect.
    rewrite Hmodel. simpl. unfold w'. by rewrite <- app_assoc.
  - intros socket2 payload2 data2 text2 Hparse2 Hsame Hmodel2 Htext Hstorable Hconn
      Hsession Hfits.
    rewrite <- Hsame in Hsession |- *.
    apply (audioChunk_stored env socket2 payload2 data2 text2 w'); done.
Qed.

Lemma failed_transcription_is_tolerated_witness :
  ∃ w',
    handle sample.env session_audioChunk "socket-1" (sample.audioChunk_payload 2 "boom")
      (sample.world sample.hello_world) = (Ok (), w')
    ∧ db w' = sample.hello_world
    ∧ ∃ w'',
        handle sample.env session_audioChunk "socket-1"
          (sample.audioChunk_payload 3 "again") w' = (Ok (), w'')
        ∧ prisma.chunks (db w'')
          = prisma.chunks sample.hello_world
            ++ [{| Chunk_id := "c2"; Chunk_sessionId := sample.S1; Chunk_index := 3;
                   Chunk_text := "again"; Chunk_startMs := 0; Chunk_endMs := 10;
                   Chunk_createdAt := 1000 |}].
Proof.
  destruct (failed_transcription_is_tolerated sample.env "socket-1"
              (sample.audioChunk_payload 2 "boom")
              (AudioChunkSchema.Data sample.S1 2 "boom" "audio/webm" 0 10)
              GeminiError (sample.world sample.hello_world) eq_refl eq_refl)
    as [Hfailed Hlater].
  eexists. split; [exact Hfailed|]. split; [reflexivity|].
  destruct (Hlater "socket-1" (sample.audioChunk_payload 3 "again")
              (AudioChunkSchema.Data sample.S1 3 "again" "audio/webm" 0 10) "again")
    as (w'' & Hrun & Hchunks & _); try reflexivity.
  - vm_compute. discriminate.
  - by eexists.
  - eexists. split; [exact Hrun|]. exact Hchunks.
Defined.

(** ** Finalization *)

Lemma session_update_frame (id : string) (status : SessionStatus) (completedAt now : Z)
    (d : prisma.Db) (r : Result Session) (d' : prisma.Db) :
  prisma.session_update id status completedAt now d = (r, d') →
  prisma.chunks d' = prisma.chunks d ∧ prisma.summaries d' = prisma.summaries d
  ∧ (∀ e, r = Throw e → d' = d).
Proof.
  unfold prisma.session_update. destruct (prisma.sessions d !! id); intros [= <- <-]; by repeat split.
Qed.

Lemma completeSessionWithSummary_cases (env : Env) (sessionId : string)
    (summaryContent keyPoints actionItems decisions : JS.value)
    (status : option SessionStatus) (w : World) (r : Result SessionWithRelations)
    (w' : World) :
  completeSessionWithSummary env sessionId summaryContent keyPoints actionItems decisions
    status w = (r, w') →
  (db w' = db w ∧ ∃ e, r = Throw e)
  ∨ (∃ row d,
       prisma.session_update sessionId (default COMPLETED status) (clock env (tick w))
         (clock env (tick w)) (db w) = (Ok row, d)
       ∧ prisma.summary_upsert sessionId summaryContent (stringify_or_null keyPoints)
           (stringify_or_null actionItems) (stringify_or_null decisions)
           (clock env (S (tick w))) d = (Ok (), db w')
       ∧ r = (if connection_fails env (S (S (S (tick w)))) then Throw ConnectionError
              else prisma.session_findUniqueOrThrow sessionId (db w'))).
Proof.
  unfold completeSessionWithSummary, new_Date, transaction, sequence, query, mbind, M_bind,
    mret, M_ret, with_db. simpl.
  destruct (connection_fails env (tick w)) eqn:Hc0.
  { intros [= <- <-]. left. eauto. }
  destruct (prisma.session_update _ _ _ _ (db w)) as [[row|e] d] eqn:Hupdate; simpl.
  2:{ intros [= <- <-]. left. eauto. }
  destruct (connection_fails env (S (tick w))) eqn:Hc1.
  { intros [= <- <-]. left. eauto. }
  destruct (prisma.summary_upsert _ _ _ _ _ _ d) as [[[]|e] d'] eqn:Hupsert; simpl.
  2:{ intros [= <- <-]. left. eauto. }
  destruct (connection_fails env (S (S (tick w)))) eqn:Hc2.
  { intros [= <- <-]. left. eauto. }
  simpl. destruct (connection_fails env (S (S (S (tick w))))) eqn:Hc3.
  - intros [= <- <-]. right. eauto.
  - intros [= <- <-]. right. simpl. eauto.
Qed.

(** *** The unique index on summaries *)

Lemma summaries_of_unique (sessionId : string) (rows : list Summary) (row : Summary)
    (more : list Summary) :
  NoDup (Summary_sessionId <$> rows) →
  prisma.summaries_of sessionId rows = row :: more → more = [].
Proof.
  unfold prisma.summaries_of.
  induction rows as [|r rows IH]; intros Hnd Hf; [done|].
  rewrite fmap_cons in Hnd. apply NoDup_cons in Hnd as [Hr Hnd].
  rewrite filter_cons in Hf. case_decide as Hsid; [|by apply IH].
  injection Hf as -> Hmore. destruct more as [|r' more]; [done|]. exfalso.
  assert (r' ∈ filter (λ r0, Summary_sessionId r0 = sessionId) rows) as Hin
    by (rewrite Hmore; left).
  apply list_elem_of_filter in Hin as [Hsid' Hin].
  apply Hr. rewrite Hsid, <- Hsid'. by apply list_elem_of_fmap_2.
Qed.

Lemma summaries_of_nil (sessionId : string) (rows : list Summary) :
  prisma.summaries_of sessionId rows = [] → sessionId ∉ Summary_sessionId <$> rows.
Proof.
  unfold prisma.summaries_of. intros Hnil Hin.
  apply list_elem_of_fmap in Hin as (r & -> & Hin).
  assert (r ∈ filter (λ r0, Summary_sessionId r0 = Summary_sessionId r) rows) as Hr
    by by apply list_elem_of_filter.
  rewrite Hnil in Hr. by inv Hr.
Qed.

(** What a successful upsert leaves behind: exactly one summary row for the
    session, carrying the four columns written; the row that was there, if
    any, keeps its identifier; the index still holds and nothing else
    changes. *)
Lemma summary_upsert_Ok (sessionId : string) (content : JS.value)
    (keyPoints actionItems decisions : option string) (now : Z) (d d' : prisma.Db) :
  prisma.summary_upsert sessionId content keyPoints actionItems decisions now d
  = (Ok (), d') →
  prisma.unique_summaries d →
  ∃ text row,
    content = JS.VStr text
    ∧ prisma.summaries_of sessionId (prisma.summaries d') = [row]
    ∧ Summary_content row = text
    ∧ Summary_keyPoints row = keyPoints
    ∧ Summary_actionItems row = actionItems
    ∧ Summary_decisions row = decisions
    ∧ (∀ row0, prisma.summaries_of sessionId (prisma.summaries d) = [row0] →
         Summary_id row = Summary_id row0)
    ∧ prisma.unique_summaries d'
    ∧ prisma.chunks d' = prisma.chunks d
    ∧ prisma.sessions d' = prisma.sessions d.
Proof.
  unfold prisma.summary_upsert, prisma.unique_summaries. intros Hrun Hunique.
  destruct content as [| | |text| |]; try discriminate Hrun.
  destruct (negb _); [discriminate Hrun|].
  destruct (prisma.summaries_of sessionId (prisma.summaries d)) as [|row0 more] eqn:Hof.
  - destruct (bool_decide _); [|discriminate Hrun]. injection Hrun as <-. simpl.
    eexists text, _. split; [done|]. split.
    { unfold prisma.summaries_of in *. rewrite filter_app, Hof. simpl.
      rewrite filter_cons, filter_nil. simpl. by rewrite decide_True. }
    repeat split; try done.
    rewrite fmap_app. apply NoDup_app. split; [done|]. split; [|apply NoDup_singleton].
    intros x Hx Hx'. apply list_elem_of_singleton in Hx'. subst x.
    by apply (summaries_of_nil sessionId (prisma.summaries d)).
  - pose proof (summaries_of_unique _ _ _ _ Hunique Hof) as ->.
    injection Hrun as <-. simpl.
    set (f := λ r, if bool_decide (Summary_sessionId r = sessionId)
                   then prisma.set_summary text keyPoints actionItems decisions now r
                   else r).
    assert (Hsid : ∀ r, Summary_sessionId (f r) = Summary_sessionId r).
    { intros r. unfold f. by case_bool_decide. }
    eexists text, (prisma.set_summary text keyPoints actionItems decisions now row0).
    split; [done|]. split.
    { unfold prisma.summaries_of in *. clear Hunique. revert Hof.
      generalize (prisma.summaries d). intros rows. revert row0.
      induction rows as [|r rows IH]; intros row0 Hof; [done|].
      rewrite fmap_cons, filter_cons. rewrite filter_cons in Hof. rewrite Hsid.
      case_decide as Hr.
      - injection Hof as -> Hrest. unfold f at 1. rewrite bool_decide_eq_true_2 by done.
        f_equal. clear IH. induction rows as [|r' rows IH]; [done|].
        rewrite fmap_cons, filter_cons, Hsid. rewrite filter_cons in Hrest.
        case_decide; [done|]. by apply IH.
      - by apply IH. }
    repeat split; try done.
    + by intros ? [= <-].
    + rewrite <- list_fmap_compose.
      erewrite list_fmap_ext; [exact Hunique|]. intros ? r _. simpl. apply Hsid.
Qed.

(** *** Running the steps of a handler *)

Lemma bind_Ok_inv {A B} (m : M A) (f : A → M B) (w w' : World) (b : B) :
  (m ≫= f) w = (Ok b, w') → ∃ a w1, m w = (Ok a, w1) ∧ f a w1 = (Ok b, w').
Proof.
  unfold mbind, M_bind. destruct (m w) as [[a|e] w1]; [eauto|discriminate].
Qed.

Lemma bind_inv {A B} (m : M A) (f : A → M B) (w w' : World) (r : Result B) :
  (m ≫= f) w = (r, w') →
  (∃ a w1, m w = (Ok a, w1) ∧ f a w1 = (r, w'))
  ∨ (∃ e, m w = (Throw e, w') ∧ r = Throw e).
Proof.
  unfold mbind, M_bind. destruct (m w) as [[a|e] w1]; [eauto|].
  intros [= <- <-]. eauto.
Qed.

(** *** What finalization leaves alone

    [keeps R m]: however [m] ends, the database it leaves is related by [R]
    to the one it started from. *)

Section keeps.
Context (R : relation prisma.Db) `{!PreOrder R}.

Lemma keeps_ret {A} (a : A) : keeps R (mret a).
Proof. by intros w r w' [= <- <-]. Qed.

Lemma keeps_bind {A B} (m : M A) (f : A → M B) :
  keeps R m → (∀ a, keeps R (f a)) → keeps R (m ≫= f).
Proof.
  intros Hm Hf w r w' Hrun.
  apply bind_inv in Hrun as [(a & w1 & H1 & H2)|(e & H1 & _)].
  - etrans; [by eapply Hm|by eapply Hf].
  - by eapply Hm.
Qed.

Lemma keeps_try_catch {A} (body handler : M A) :
  keeps R body → keeps R handler → keeps R (try_catch body handler).
Proof.
  intros Hb Hh w r w'. unfold try_catch.
  destruct (body w) as [[a|e] w1] eqn:Hbody.
  - intros [= <- <-]. by eapply Hb.
  - intros Hrun. etrans; [by eapply Hb|by eapply Hh].
Qed.

Lemma keeps_emit (e : Effect) : keeps R (emit_effect e).
Proof. by intros w r w' [= <- <-]. Qed.

Lemma keeps_query {A} (env : Env) (op : Z → prisma.Db → Result A * prisma.Db) :
  (∀ now d, R d (op now d).2) → keeps R (query env op).
Proof.
  intros Hop w r w'. unfold query.
  destruct (connection_fails env (tick w)); [by intros [= <- <-]|].
  specialize (Hop (clock env (tick w)) (db w)).
  destruct (op _ _) as [r' d]. by intros [= <- <-].
Qed.

Lemma keeps_sequence (ops : list (M unit)) :
  Forall (keeps R) ops → keeps R (sequence ops).
Proof.
  induction 1 as [|op ops Hop _ IH]; simpl; [apply keeps_ret|].
  apply keeps_bind; [done|]. by intros _.
Qed.

Lemma keeps_transaction (env : Env) (ops : list (M unit)) :
  Forall (keeps R) ops → keeps R (transaction env ops).
Proof.
  intros Hops w r w'. unfold transaction.
  destruct ((sequence ops;; query env (λ _ d, (Ok (), d))) w) as [[[]|e] w1] eqn:Hrun.
  - intros [= <- <-]. revert Hrun. apply keeps_bind.
    + by apply keeps_sequence.
    + intros _. by apply keeps_query.
  - by intros [= <- <-].
Qed.

End keeps.

Global Instance untouched_preorder : PreOrder untouched.
Proof.
  split.
  - by intros d.
  - intros d1 d2 d3 [H1 H1'] [H2 H2']. split; [congruence|].
    intros id. by rewrite H2'.
Qed.

Lemma session_updateMany_untouched (id : string) (status : SessionStatus) (now : Z)
    (d : prisma.Db) :
  untouched d (prisma.session_updateMany id status now d).2.
Proof.
  unfold prisma.session_updateMany.
  destruct (prisma.sessions d !! id) as [row|] eqn:Hrow; [|done].
  split; [done|]. intros id'. simpl.
  destruct (decide (id = id')) as [<-|Hne].
  - rewrite lookup_insert_eq, Hrow. by split.
  - by rewrite lookup_insert_ne.
Qed.

Lemma session_update_untouched (id : string) (status : SessionStatus)
    (completedAt now : Z) (d : prisma.Db) :
  untouched d (prisma.session_update id status completedAt now d).2.
Proof.
  unfold prisma.session_update.
  destruct (prisma.sessions d !! id) as [row|] eqn:Hrow; [|done].
  split; [done|]. intros id'. simpl.
  destruct (decide (id = id')) as [<-|Hne].
  - rewrite lookup_insert_eq, Hrow. by split.
  - by rewrite lookup_insert_ne.
Qed.

Lemma summary_upsert_untouched (sessionId : string) (content : JS.value)
    (keyPoints actionItems decisions : option string) (now : Z) (d : prisma.Db) :
  untouched d
    (prisma.summary_upsert sessionId content keyPoints actionItems decisions now d).2.
Proof.
  unfold prisma.summary_upsert. destruct content; try done.
  destruct (negb _); [done|].
  destruct (prisma.summaries_of _ _); [|done]. by destruct (bool_decide _).
Qed.

Lemma keeps_updateSessionStatus (env : Env) (sessionId : string) (status : SessionStatus) :
  keeps untouched (updateSessionStatus env sessionId status).
Proof.
  apply (keeps_bind untouched); [|intros; by apply (keeps_ret untouched)].
  apply (keeps_query untouched). apply session_updateMany_untouched.
Qed.

Lemma keeps_summarizeTranscript (env : Env) (transcript : string) :
  keeps untouched (summarizeTranscript env transcript).
Proof.
  unfold summarizeTranscript. apply (keeps_bind untouched).
  - intros w r w'. unfold summary_generateContent. by intros [= <- <-].
  - intros text. destruct (JS.JSON_parse _); by apply (keeps_ret untouched).
Qed.

Lemma keeps_completeSessionWithSummary (env : Env) (sessionId : string)
    (summaryContent keyPoints actionItems decisions : JS.value)
    (status : option SessionStatus) :
  keeps untouched (completeSessionWithSummary env sessionId summaryContent keyPoints
                     actionItems decisions status).
Proof.
  unfold completeSessionWithSummary. apply (keeps_bind untouched).
  { by intros w r w' [= <- <-]. }
  intros completedAt. apply (keeps_bind untouched).
  - apply (keeps_transaction untouched).
    apply Forall_cons_2; [|apply Forall_cons_2; [|apply Forall_nil_2]].
    + apply (keeps_bind untouched); [|intros; by apply (keeps_ret untouched)].
      apply (keeps_query untouched). intros now d. apply session_update_untouched.
    + apply (keeps_query untouched). intros now d. apply summary_upsert_untouched.
  - intros _. by apply (keeps_query untouched).
Qed.

Lemma keeps_stop_try (env : Env) (sessionId : string) :
  keeps untouched (stop_try env sessionId).
Proof.
  unfold stop_try.
  apply (keeps_bind untouched); [apply keeps_updateSessionStatus|intros _].
  apply (keeps_bind untouched); [by apply (keeps_emit untouched)|intros _].
  apply (keeps_bind untouched); [by apply (keeps_query untouched)|intros stored].
  apply (keeps_bind untouched); [apply keeps_summarizeTranscript|intros summary].
  apply (keeps_bind untouched); [apply keeps_completeSessionWithSummary|intros ?].
  by apply (keeps_emit untouched).
Qed.

Lemma keeps_stop_catch (env : Env) (socket sessionId : string) :
  keeps untouched (stop_catch env socket sessionId).
Proof.
  unfold stop_catch.
  apply (keeps_bind untouched); [|intros _].
  { apply (keeps_try_catch untouched); [apply keeps_updateSessionStatus|by apply (keeps_ret untouched)]. }
  apply (keeps_bind untouched); [by apply (keeps_emit untouched)|intros _]. by apply (keeps_emit untouched).
Qed.

(** The [session:stop] handler never removes or alters a stored chunk, and
    neither creates nor deletes a session, whether finalization succeeds or
    fails. *)
Lemma keeps_on_session_stop (env : Env) (socket : string) (payload : JS.value) :
  keeps untouched (on_session_stop env socket payload).
Proof.
  unfold on_session_stop. destruct (SessionControlSchema.safeParse payload).
  - apply (keeps_try_catch untouched); [apply keeps_stop_try|apply keeps_stop_catch].
  - by apply (keeps_emit untouched).
Qed.

(** What both writes leave behind: the session carries the status and the
    completion time, and a summary row of the session carries the content. *)
Lemma both_written_observed (env : Env) (sessionId : string) (status : SessionStatus)
    (summaryContent keyPoints actionItems decisions : JS.value) (w : World)
    (after : prisma.Db) :
  both_written env sessionId status summaryContent keyPoints actionItems decisions w after →
  (∃ row, prisma.sessions after !! sessionId = Some row
          ∧ Session_status row = status
          ∧ Session_completedAt row = Some (clock env (tick w)))
  ∧ (∃ text row, summaryContent = JS.VStr text
                 ∧ row ∈ prisma.summaries_of sessionId (prisma.summaries after)
                 ∧ Summary_content row = text).
Proof.
  intros (row & d & Hupdate & Hupsert). split.
  - unfold prisma.session_update in Hupdate.
    destruct (prisma.sessions (db w) !! sessionId) as [row0|]; [|discriminate].
    injection Hupdate as <- <-.
    pose proof (summary_upsert_untouched sessionId summaryContent
                  (stringify_or_null keyPoints) (stringify_or_null actionItems)
                  (stringify_or_null decisions) (clock env (S (tick w)))) as Hframe.
    unfold prisma.summary_upsert in Hupsert.
    destruct summaryContent; try discriminate.
    destruct (negb _); [discriminate|].
    destruct (prisma.summaries_of _ _).
    + destruct (bool_decide _); [|discriminate]. injection Hupsert as <-. simpl.
      rewrite lookup_insert_eq. eauto.
    + injection Hupsert as <-. simpl. rewrite lookup_insert_eq. eauto.
  - unfold prisma.summary_upsert in Hupsert.
    destruct summaryContent as [| | |text| |]; try discriminate.
    destruct (negb _); [discriminate|].
    exists text.
    destruct (prisma.summaries_of sessionId (prisma.summaries d)) as [|row0 more] eqn:Hof.
    + destruct (bool_decide _); [|discriminate]. injection Hupsert as <-. simpl.
      eexists. split; [done|]. split.
      { unfold prisma.summaries_of. apply list_elem_of_filter. split; [|
          apply elem_of_app; right; by left]. done. }
      reflexivity.
    + injection Hupsert as <-. simpl.
      assert (row0 ∈ prisma.summaries_of sessionId (prisma.summaries d)) as Hin
        by (rewrite Hof; left).
      apply list_elem_of_filter in Hin as [Hsid Hin].
      exists (prisma.set_summary text (stringify_or_null keyPoints)
                (stringify_or_null actionItems) (stringify_or_null decisions)
                (clock env (S (tick w))) row0).
      split; [done|]. split; [|done].
      apply list_elem_of_filter. split; [done|].
      apply list_elem_of_fmap. exists row0. split; [|done].
      by rewrite bool_decide_eq_true_2.
Qed.

(** C3. However [completeSessionWithSummary] ends, under any failures of the
    database connection, the database it leaves is either the one it found
    (and the call has thrown), or the one in which the session update and the
    summary upsert have both been applied: never one of the two alone. *)
Theorem completeSessionWithSummary_is_atomic (env : Env) (sessionId : string)
    (summaryContent keyPoints actionItems decisions : JS.value)
    (status : option SessionStatus) (w : World) :
  let run :=
    completeSessionWithSummary env sessionId summaryContent keyPoints actionItems
      decisions status w in
  (db run.2 = db w ∧ ∃ e, run.1 = Throw e)
  ∨ both_written env sessionId (default COMPLETED status) summaryContent keyPoints
      actionItems decisions w (db run.2).
Proof.
  intros run.
  destruct run as [r w'] eqn:Hrun. unfold run in Hrun.
  apply completeSessionWithSummary_cases in Hrun as [?|(row & d & Hu & Hs & _)];
    [by left|right]. by exists row, d.
Qed.

Example completeSessionWithSummary_rolls_back :
  let env :=
    {| transcribeModel := transcribeModel sample.env;
       summaryModel := summaryModel sample.env;
       Buffer_from_base64 := Buffer_from_base64 sample.env;
       clock := clock sample.env;
       connection_fails := λ n, bool_decide (n = 1%nat) |} in
  let run :=
    completeSessionWithSummary env sample.S1 (JS.VStr "overview") JS.VNull JS.VNull JS.VNull
      (Some COMPLETED) (sample.world sample.hello_world) in
  run.1 = Throw ConnectionError ∧ db run.2 = sample.hello_world.
Proof. vm_compute. split; reflexivity. Qed.

(** *** Failure of finalization *)

(** A failure of the summary model, or of the first database round trip,
    makes finalization fail. *)
Lemma stop_try_gateway_error (env : Env) (sessionId : string) (e : Error) (w : World) :
  summaryModel env
    (summary_prompt +:+ fullTranscript (prisma.transcriptChunk_findMany sessionId (db w)))
  = Throw e →
  ∃ e' w1, stop_try env sessionId w = (Throw e', w1).
Proof.
  intros Hmodel.
  unfold stop_try, updateSessionStatus, summarizeTranscript, summary_generateContent,
    query, emit_effect, mbind, M_bind, mret, M_ret, with_db. simpl.
  destruct (connection_fails env (tick w)); [by eexists _, _|].
  assert (Hfind : ∀ d, prisma.chunks d = prisma.chunks (db w) →
            prisma.transcriptChunk_findMany sessionId d
            = prisma.transcriptChunk_findMany sessionId (db w)).
  { intros d Hd. unfold prisma.transcriptChunk_findMany. by rewrite Hd. }
  destruct (prisma.session_updateMany sessionId PROCESSING (clock env (tick w)) (db w))
    as [r d] eqn:Hupdate.
  pose proof (session_updateMany_untouched sessionId PROCESSING (clock env (tick w)) (db w))
    as [Hchunks _].
  rewrite Hupdate in Hchunks. simpl in Hchunks.
  destruct r as [n|e0]; simpl; [|by eexists _, _].
  destruct (connection_fails env (S (tick w))); [by eexists _, _|]. simpl.
  rewrite (Hfind d Hchunks), Hmodel. by eexists _, _.
Qed.

Lemma stop_try_store_error (env : Env) (sessionId : string) (w : World) :
  connection_fails env (tick w) = true →
  ∃ w1, stop_try env sessionId w = (Throw ConnectionError, w1).
Proof.
  intros Hfails.
  unfold stop_try, updateSessionStatus, query, mbind, M_bind. rewrite Hfails. by eexists.
Qed.

(** C4. When finalization fails, at whatever step and for whatever reason,
    the handler still ends normally. It tries to set the status to ERROR:
    if that write goes through, the session, when it exists, ends with status
    ERROR; if that write fails too, the failure is swallowed and the database
    stays as finalization left it. Either way the status ERROR is broadcast
    to the room of the session, the sender receives an error event, and the
    stored chunks are those stored before the handler ran. *)
Theorem failed_finalization_reports_error (env : Env) (socket : string)
    (payload : JS.value) (data : SessionControlSchema.data) (e : Error) (w w1 : World) :
  SessionControlSchema.safeParse payload = Some data →
  let sessionId := SessionControlSchema.sessionId data in
  stop_try env sessionId w = (Throw e, w1) →
  ∃ w',
    on_session_stop env socket payload w = (Ok (), w')
    ∧ sent w'
      = sent w1
        ++ [io_to_emit sessionId (session_status sessionId ERROR);
            socket_emit socket (session_error "Failed to finalize session")]
    ∧ (connection_fails env (tick w1) = false →
       is_Some (prisma.sessions (db w) !! sessionId) →
       Session_status <$> prisma.sessions (db w') !! sessionId = Some ERROR)
    ∧ (connection_fails env (tick w1) = true → db w' = db w1)
    ∧ prisma.chunks (db w') = prisma.chunks (db w).
Proof.
  intros Hparse sessionId Htry.
  destruct (on_session_stop env socket payload w) as [r w'] eqn:Hrun.
  pose proof (keeps_on_session_stop env socket payload _ _ _ Hrun) as [Hchunks _].
  pose proof (keeps_stop_try env sessionId _ _ _ Htry) as [_ Hsessions].
  unfold on_session_stop in Hrun. rewrite Hparse in Hrun. fold sessionId in Hrun.
  unfold try_catch in Hrun. rewrite Htry in Hrun.
  unfold stop_catch, try_catch, updateSessionStatus, query, emit_effect, mbind, M_bind,
    mret, M_ret, with_db in Hrun. simpl in Hrun.
  destruct (connection_fails env (tick w1)) eqn:Hfails.
  - injection Hrun as <- <-. eexists. split; [done|]. simpl.
    split; [by rewrite <- app_assoc|]. by repeat split.
  - unfold prisma.session_updateMany in Hrun.
    destruct (prisma.sessions (db w1) !! sessionId) as [row|] eqn:Hrow;
      simpl in Hrun; injection Hrun as <- <-;
      (eexists; split; [done|]); simpl;
      (split; [by rewrite <- app_assoc|]); (split; [|by split]); intros _ Hexists.
    + by rewrite lookup_insert_eq.
    + apply Hsessions in Hexists. rewrite Hrow in Hexists. by destruct Hexists.
Qed.

Lemma failed_finalization_reports_error_witness :
  ∃ w',
    on_session_stop sample.env_summary_fails "socket-1" sample.control_payload
      (sample.world sample.hello_world) = (Ok (), w')
    ∧ Session_status <$> prisma.sessions (db w') !! sample.S1 = Some ERROR
    ∧ prisma.chunks (db w') = prisma.chunks sample.hello_world.
Proof.
  destruct (stop_try_gateway_error sample.env_summary_fails sample.S1 GeminiError
              (sample.world sample.hello_world) eq_refl) as (e & w1 & Htry).
  destruct (failed_finalization_reports_error sample.env_summary_fails "socket-1"
              sample.control_payload (SessionControlSchema.Data sample.S1) e
              (sample.world sample.hello_world) w1 eq_refl Htry)
    as (w' & Hrun & _ & Hstatus & _ & Hchunks).
  exists w'. split; [exact Hrun|]. split; [|exact Hchunks].
  apply Hstatus; [reflexivity|]. by eexists.
Defined.

Example failed_finalization_events :
  sent (on_session_stop sample.env_summary_fails "socket-1" sample.control_payload
          (sample.world sample.hello_world)).2
  = [io_to_emit sample.S1 (session_status sample.S1 PROCESSING);
     summary_request (summary_prompt +:+ "hello world");
     io_to_emit sample.S1 (session_status sample.S1 ERROR);
     socket_emit "socket-1" (session_error "Failed to finalize session")].
Proof. vm_compute. reflexivity. Qed.

(** *** Idempotence of finalization *)

Lemma findMany_same_chunks (sessionId : string) (d d' : prisma.Db) :
  prisma.chunks d' = prisma.chunks d →
  prisma.transcriptChunk_findMany sessionId d' = prisma.transcriptChunk_findMany sessionId d.
Proof. intros H. unfold prisma.transcriptChunk_findMany. by rewrite H. Qed.

(** The summary depends on the world only through the answer of the model
    to the prompt. *)
Lemma summarizeTranscript_function (env : Env) (transcript : string) (w1 w2 : World) :
  (summarizeTranscript env transcript w1).1 = (summarizeTranscript env transcript w2).1.
Proof.
  unfold summarizeTranscript, summary_generateContent, mbind, M_bind.
  destruct (summaryModel env (summary_prompt +:+ transcript)) as [text|e]; [|done].
  by destruct (JS.JSON_parse _).
Qed.

Lemma summarizeTranscript_frame (env : Env) (transcript : string) (w w' : World)
    (r : Result SummarizeTranscriptResult) :
  summarizeTranscript env transcript w = (r, w') → db w' = db w ∧ tick w' = tick w.
Proof.
  unfold summarizeTranscript, summary_generateContent, mbind, M_bind.
  destruct (summaryModel env (summary_prompt +:+ transcript)) as [text|e].
  - destruct (JS.JSON_parse _); by intros [= <- <-].
  - by intros [= <- <-].
Qed.

(** A finalization that succeeds has summarized the transcript of the stored
    chunks and applied both writes to a database holding the same chunks and
    summaries as the one it started from. *)
Lemma stop_try_Ok (env : Env) (sessionId : string) (w w' : World) :
  stop_try env sessionId w = (Ok (), w') →
  ∃ summary wa,
    (summarizeTranscript env
       (fullTranscript (prisma.transcriptChunk_findMany sessionId (db w))) w).1
    = Ok summary
    ∧ prisma.chunks (db wa) = prisma.chunks (db w)
    ∧ prisma.summaries (db wa) = prisma.summaries (db w)
    ∧ both_written env sessionId COMPLETED (content summary) (keyPoints summary)
        (actionItems summary) (decisions summary) wa (db w').
Proof.
  unfold stop_try. intros Hrun.
  apply bind_Ok_inv in Hrun as ([] & w1 & Hstatus & Hrun).
  apply bind_Ok_inv in Hrun as ([] & w2 & Hemit & Hrun).
  apply bind_Ok_inv in Hrun as (stored & w3 & Hfind & Hrun).
  apply bind_Ok_inv in Hrun as (summary & w4 & Hsummary & Hrun).
  apply bind_Ok_inv in Hrun as (completed & w5 & Hcomplete & Hrun).
  injection Hrun as <-. injection Hemit as <-.
  assert (prisma.chunks (db w1) = prisma.chunks (db w)
          ∧ prisma.summaries (db w1) = prisma.summaries (db w)) as [Hc1 Hs1].
  { unfold updateSessionStatus, query, mbind, M_bind in Hstatus.
    destruct (connection_fails env (tick w)); [discriminate|].
    unfold prisma.session_updateMany in Hstatus.
    destruct (prisma.sessions (db w) !! sessionId); by injection Hstatus as <-. }
  assert (stored = prisma.transcriptChunk_findMany sessionId (db w)
          ∧ db w3 = db w1) as [-> Hd3].
  { unfold query in Hfind. simpl in Hfind.
    destruct (connection_fails env (tick w1)); [discriminate|].
    injection Hfind as <- <-. split; [|done]. by apply findMany_same_chunks. }
  pose proof (summarizeTranscript_frame _ _ _ _ _ Hsummary) as [Hd4 Ht4].
  exists summary, w4. split.
  { rewrite (summarizeTranscript_function env _ w w3). by rewrite Hsummary. }
  split; [by rewrite Hd4, Hd3|]. split; [by rewrite Hd4, Hd3|].
  apply completeSessionWithSummary_cases in Hcomplete
    as [[_ [e He]]|(row & d & Hu & Hs & _)]; [discriminate|].
  simpl. by exists row, d.
Qed.

Lemma summarizeTranscript_same_model (env1 env2 : Env) (transcript : string)
    (w1 w2 : World) :
  (∀ prompt, summaryModel env1 prompt = summaryModel env2 prompt) →
  (summarizeTranscript env1 transcript w1).1 = (summarizeTranscript env2 transcript w2).1.
Proof.
  intros Hsame. unfold summarizeTranscript, summary_generateContent, mbind, M_bind.
  rewrite Hsame.
  destruct (summaryModel env2 (summary_prompt +:+ transcript)) as [text|e]; [|done].
  by destruct (JS.JSON_parse _).
Qed.

(** What the two writes leave in the summary table. *)
Lemma both_written_summary (env : Env) (sessionId : string) (status : SessionStatus)
    (summary : SummarizeTranscriptResult) (w : World) (after : prisma.Db) :
  both_written env sessionId status (content summary) (keyPoints summary)
    (actionItems summary) (decisions summary) w after →
  prisma.unique_summaries (db w) →
  ∃ text row,
    content summary = JS.VStr text
    ∧ prisma.summaries_of sessionId (prisma.summaries after) = [row]
    ∧ Summary_content row = text
    ∧ Summary_keyPoints row = stringify_or_null (keyPoints summary)
    ∧ Summary_actionItems row = stringify_or_null (actionItems summary)
    ∧ Summary_decisions row = stringify_or_null (decisions summary)
    ∧ (∀ row0, prisma.summaries_of sessionId (prisma.summaries (db w)) = [row0] →
         Summary_id row = Summary_id row0)
    ∧ prisma.unique_summaries after
    ∧ prisma.chunks after = prisma.chunks (db w).
Proof.
  intros (row & d & Hupdate & Hupsert) Hunique.
  apply session_update_frame in Hupdate as (Hchunks & Hsummaries & _).
  apply summary_upsert_Ok in Hupsert
    as (text & srow & Hc & Hof & H1 & H2 & H3 & H4 & Hid & Hunique' & Hchunks' & _).
  2:{ unfold prisma.unique_summaries. by rewrite Hsummaries. }
  exists text, srow. rewrite Hsummaries in Hid. repeat split; try done. congruence.
Qed.

(** C2. Two finalizations in a row over the same stored chunks, the summary
    model answering as a function of its prompt: after each of them the
    session has exactly one summary row; the second run rewrites the row of
    the first (same identifier) with the same content, key points, action
    items and decisions; no session has two summary rows, and the stored
    chunks are untouched. *)
Theorem finalization_is_idempotent (env1 env2 : Env) (sessionId : string)
    (w w1 w2 : World) :
  (∀ prompt, summaryModel env1 prompt = summaryModel env2 prompt) →
  prisma.unique_summaries (db w) →
  stop_try env1 sessionId w = (Ok (), w1) →
  stop_try env2 sessionId w1 = (Ok (), w2) →
  ∃ row1 row2,
    prisma.summaries_of sessionId (prisma.summaries (db w1)) = [row1]
    ∧ prisma.summaries_of sessionId (prisma.summaries (db w2)) = [row2]
    ∧ Summary_id row2 = Summary_id row1
    ∧ Summary_content row2 = Summary_content row1
    ∧ Summary_keyPoints row2 = Summary_keyPoints row1
    ∧ Summary_actionItems row2 = Summary_actionItems row1
    ∧ Summary_decisions row2 = Summary_decisions row1
    ∧ prisma.unique_summaries (db w2)
    ∧ prisma.chunks (db w2) = prisma.chunks (db w).
Proof.
  intros Hmodel Hunique Hrun1 Hrun2.
  apply stop_try_Ok in Hrun1 as (s1 & wa & Hs1 & Hca & Hsa & Hboth1).
  apply both_written_summary in Hboth1
    as (text1 & row1 & Hc1 & Hof1 & Hr1 & Hk1 & Ha1 & Hd1 & _ & Hunique1 & Hchunks1).
  2:{ unfold prisma.unique_summaries. by rewrite Hsa. }
  apply stop_try_Ok in Hrun2 as (s2 & wb & Hs2 & Hcb & Hsb & Hboth2).
  apply both_written_summary in Hboth2
    as (text2 & row2 & Hc2 & Hof2 & Hr2 & Hk2 & Ha2 & Hd2 & Hid & Hunique2 & Hchunks2).
  2:{ unfold prisma.unique_summaries. by rewrite Hsb. }
  assert (s2 = s1) as ->.
  { rewrite (findMany_same_chunks sessionId (db w) (db w1)) in Hs2 by congruence.
    rewrite <- (summarizeTranscript_same_model env1 env2 _ w w1 Hmodel) in Hs2.
    congruence. }
  exists row1, row2. rewrite Hsb in Hid.
  repeat split; try done; try congruence.
  by apply Hid.
Qed.

Lemma finalization_is_idempotent_witness :
  ∃ row1 row2,
    prisma.summaries_of sample.S1
      (prisma.summaries
         (db (stop_try sample.env sample.S1 (sample.world sample.hello_world)).2))
    = [row1]
    ∧ prisma.summaries_of sample.S1
        (prisma.summaries
           (db (stop_try sample.env sample.S1
                  (stop_try sample.env sample.S1 (sample.world sample.hello_world)).2).2))
      = [row2]
    ∧ Summary_content row2 = Summary_content row1.
Proof.
  set (w := sample.world sample.hello_world).
  set (w1 := (stop_try sample.env sample.S1 w).2).
  set (w2 := (stop_try sample.env sample.S1 w1).2).
  assert (H1 : stop_try sample.env sample.S1 w = (Ok (), w1)) by (vm_compute; reflexivity).
  assert (H2 : stop_try sample.env sample.S1 w1 = (Ok (), w2)) by (vm_compute; reflexivity).
  destruct (finalization_is_idempotent sample.env sample.env sample.S1 w w1 w2
              (λ _, eq_refl) (NoDup_nil_2 : prisma.unique_summaries (db w)) H1 H2)
    as (row1 & row2 & Hof1 & Hof2 & _ & Hcontent & _).
  exists row1, row2. split; [exact Hof1|]. split; [exact Hof2|]. exact Hcontent.
Defined.

Example finalization_twice :
  let w1 := (on_session_stop sample.env "socket-1" sample.control_payload
               (sample.world sample.hello_world)).2 in
  let w2 := (on_session_stop sample.env "socket-1" sample.control_payload w1).2 in
  prisma.summaries (db w1)
  = [{| Summary_id := "c2"; Summary_sessionId := sample.S1;
        Summary_content := "not json"; Summary_keyPoints := None;
        Summary_actionItems := None; Summary_decisions := None;
        Summary_createdAt := 1003; Summary_updatedAt := 1003 |}]
  ∧ prisma.summaries (db w2)
    = [{| Summary_id := "c2"; Summary_sessionId := sample.S1;
          Summary_content := "not json"; Summary_keyPoints := None;
          Summary_actionItems := None; Summary_decisions := None;
          Summary_createdAt := 1003; Summary_updatedAt := 1009 |}]
  ∧ Session_status <$> prisma.sessions (db w2) !! sample.S1 = Some COMPLETED.
Proof. vm_compute. repeat split; reflexivity. Qed.

(** *** The unique index is an invariant of the pipeline *)

Global Instance index_kept_preorder : PreOrder index_kept.
Proof.
  split; [intros d H; exact H|]. intros d1 d2 d3 H12 H23 H. by apply H23, H12.
Qed.

Lemma keeps_same_db {A} (R : relation prisma.Db) `{!Reflexive R} (m : M A) :
  (∀ w r w', m w = (r, w') → db w' = db w) → keeps R m.
Proof. intros Hm w r w' Hrun. by rewrite (Hm _ _ _ Hrun). Qed.

Lemma index_kept_same_summaries (d d' : prisma.Db) :
  prisma.summaries d' = prisma.summaries d → index_kept d d'.
Proof. unfold index_kept, prisma.unique_summaries. by intros ->. Qed.

Lemma summary_upsert_index_kept (sessionId : string) (content : JS.value)
    (keyPoints actionItems decisions : option string) (now : Z) (d : prisma.Db) :
  index_kept d
    (prisma.summary_upsert sessionId content keyPoints actionItems decisions now d).2.
Proof.
  intros Hunique.
  destruct (prisma.summary_upsert sessionId content keyPoints actionItems decisions now d)
    as [[[]|e] d'] eqn:Hupsert; simpl.
  - by apply summary_upsert_Ok in Hupsert as (? & ? & _ & _ & _ & _ & _ & _ & _ & H & _).
  - assert (d' = d) as ->; [|done].
    unfold prisma.summary_upsert in Hupsert. destruct content; try by injection Hupsert.
    destruct (negb _); [by injection Hupsert|].
    destruct (prisma.summaries_of _ _); [|discriminate].
    destruct (bool_decide _); [discriminate|]. by injection Hupsert.
Qed.

Lemma keeps_index_updateSessionStatus (env : Env) (sessionId : string)
    (status : SessionStatus) :
  keeps index_kept (updateSessionStatus env sessionId status).
Proof.
  apply (keeps_bind index_kept); [|intros; by apply (keeps_ret index_kept)].
  apply (keeps_query index_kept). intros now d. apply index_kept_same_summaries.
  unfold prisma.session_updateMany. by destruct (prisma.sessions d !! sessionId).
Qed.

Lemma keeps_index_status_handler (env : Env) (socket sessionId message : string)
    (status : SessionStatus) :
  keeps index_kept
    (try_catch
       (updateSessionStatus env sessionId status;;
        emit_effect (io_to_emit sessionId (session_status sessionId status)))
       (emit_effect (socket_emit socket (session_error message)))).
Proof.
  apply (keeps_try_catch index_kept); [|by apply (keeps_emit index_kept)].
  apply (keeps_bind index_kept); [apply keeps_index_updateSessionStatus|].
  intros _. by apply (keeps_emit index_kept).
Qed.

(** No handler, on any payload and under any failures, breaks the unique
    index [Summary_sessionId_key]. *)
Lemma handle_keeps_unique_summaries (env : Env) (event : Inbound) (socket : string)
    (payload : JS.value) (w : World) :
  prisma.unique_summaries (db w) →
  prisma.unique_summaries (db (handle env event socket payload w).2).
Proof.
  assert (keeps index_kept (handle env event socket payload)) as Hkeeps.
  2:{ intros Hunique. destruct (handle env event socket payload w) as [r w'] eqn:Hrun.
      by apply (Hkeeps _ _ _ Hrun). }
  destruct event; simpl.
  - unfold on_session_start. destruct (SessionStartSchema.safeParse payload) as [data|];
      [|by apply (keeps_emit index_kept)].
    apply (keeps_try_catch index_kept); [|by apply (keeps_emit index_kept)].
    apply (keeps_bind index_kept); [|intros _].
    { apply (keeps_query index_kept). intros now d. apply index_kept_same_summaries.
      unfold prisma.session_create. destruct (negb _); [done|].
      destruct (bool_decide _); [done|]. by destruct (bool_decide _). }
    apply (keeps_bind index_kept); [|intros _; by apply (keeps_emit index_kept)].
    apply (keeps_same_db index_kept). by intros ??? [= <- <-].
  - unfold on_session_audioChunk. destruct (AudioChunkSchema.safeParse payload) as [data|];
      [|by apply (keeps_emit index_kept)].
    apply (keeps_try_catch index_kept); [|by apply (keeps_emit index_kept)].
    unfold audioChunk_try, transcribeChunk.
    apply (keeps_bind index_kept); [|intros text].
    { apply (keeps_bind index_kept); [|intros; by apply (keeps_ret index_kept)].
      apply (keeps_same_db index_kept). unfold transcribe_generateContent.
      by intros ??? [= <- <-]. }
    destruct (String.eqb text ""); [by apply (keeps_ret index_kept)|].
    apply (keeps_bind index_kept); [|intros _; by apply (keeps_emit index_kept)].
    apply (keeps_query index_kept). intros now d. apply index_kept_same_summaries.
    unfold prisma.transcriptChunk_create. destruct (negb _); [done|].
    destruct (negb _); [done|]. by destruct (bool_decide _).
  - unfold on_session_pause. destruct (SessionControlSchema.safeParse payload) as [data|];
      [apply keeps_index_status_handler|by apply (keeps_emit index_kept)].
  - unfold on_session_resume. destruct (SessionControlSchema.safeParse payload) as [data|];
      [apply keeps_index_status_handler|by apply (keeps_emit index_kept)].
  - unfold on_session_stop. destruct (SessionControlSchema.safeParse payload) as [data|];
      [|by apply (keeps_emit index_kept)].
    apply (keeps_try_catch index_kept).
    + unfold stop_try.
      apply (keeps_bind index_kept); [apply keeps_index_updateSessionStatus|intros _].
      apply (keeps_bind index_kept); [by apply (keeps_emit index_kept)|intros _].
      apply (keeps_bind index_kept); [by apply (keeps_query index_kept)|intros stored].
      apply (keeps_bind index_kept); [|intros summary].
      { apply (keeps_same_db index_kept). intros w0 r w' Hrun.
        by apply summarizeTranscript_frame in Hrun as [-> _]. }
      apply (keeps_bind index_kept); [|intros; by apply (keeps_emit index_kept)].
      unfold completeSessionWithSummary.
      apply (keeps_bind index_kept); [apply (keeps_same_db index_kept); by intros ??? [= <- <-]|].
      intros completedAt. apply (keeps_bind index_kept).
      * apply (keeps_transaction index_kept).
        apply Forall_cons_2; [|apply Forall_cons_2; [|apply Forall_nil_2]].
        -- apply (keeps_bind index_kept); [|intros; by apply (keeps_ret index_kept)].
           apply (keeps_query index_kept). intros now d. apply index_kept_same_summaries.
           destruct (prisma.session_update _ _ _ now d) as [r d'] eqn:Hu. simpl.
           by apply session_update_frame in Hu as (_ & -> & _).
        -- apply (keeps_query index_kept). intros now d. apply summary_upsert_index_kept.
      * intros _. by apply (keeps_query index_kept).
    + unfold stop_catch.
      apply (keeps_bind index_kept); [|intros _].
      { apply (keeps_try_catch index_kept);
          [apply keeps_index_updateSessionStatus|by apply (keeps_ret index_kept)]. }
      apply (keeps_bind index_kept); [by apply (keeps_emit index_kept)|intros _].
      by apply (keeps_emit index_kept).
Qed.

(** ** Events of one session that overlap *)

Lemma newly_sent_app (w w' : World) (new : list Effect) :
  sent w' = sent w ++ new → newly_sent w w' = new.
Proof. intros H. unfold newly_sent. by rewrite H, drop_app_length. Qed.

Lemma summarizeTranscript_run (env : Env) (transcript : string) (w w0 : World) :
  summarizeTranscript env transcript w
  = ((summarizeTranscript env transcript w0).1,
     {| db := db w; rooms := rooms w;
        sent := sent w ++ [summary_request (summary_prompt +:+ transcript)];
        tick := tick w |}).
Proof.
  unfold summarizeTranscript, summary_generateContent, mbind, M_bind.
  destruct (summaryModel env (summary_prompt +:+ transcript)) as [text|e]; [|done].
  by destruct (JS.JSON_parse _).
Qed.

Lemma completeSessionWithSummary_Ok (env : Env) (sessionId text : string)
    (keyPoints actionItems decisions : JS.value) (status : option SessionStatus)
    (row : Session) (w : World) :
  (∀ n, connection_fails env n = false) →
  prisma.sessions (db w) !! sessionId = Some row →
  prisma.fits_TEXT sessionId = true →
  prisma.fits_TEXT text = true →
  ∃ completed d',
    completeSessionWithSummary env sessionId (JS.VStr text) keyPoints actionItems decisions
      status w
    = (Ok completed,
       {| db := d'; rooms := rooms w; sent := sent w; tick := S (S (S (S (tick w)))) |})
    ∧ prisma.session_findUniqueOrThrow sessionId d' = Ok completed
    ∧ Session_status (session completed) = default COMPLETED status.
Proof.
  intros Hup Hrow Hid Htext.
  unfold completeSessionWithSummary, new_Date, transaction, sequence, query, mbind, M_bind,
    mret, M_ret, with_db. simpl. rewrite ?Hup.
  unfold prisma.session_update. rewrite Hrow. simpl. rewrite ?Hup.
  unfold prisma.summary_upsert. rewrite Hid, Htext, !stringify_or_null_fits. simpl.
  destruct (prisma.summaries_of sessionId (prisma.summaries (db w))) as [|found more].
  - rewrite bool_decide_eq_true_2 by (rewrite lookup_insert_eq; by eexists).
    simpl. rewrite ?Hup. simpl. rewrite ?Hup.
    unfold prisma.session_findUniqueOrThrow at 1. simpl. rewrite lookup_insert_eq.
    eexists _, _. split; [reflexivity|].
    unfold prisma.session_findUniqueOrThrow. simpl. by rewrite lookup_insert_eq.
  - simpl. rewrite ?Hup. simpl. rewrite ?Hup.
    unfold prisma.session_findUniqueOrThrow at 1. simpl. rewrite lookup_insert_eq.
    eexists _, _. split; [reflexivity|].
    unfold prisma.session_findUniqueOrThrow. simpl. by rewrite lookup_insert_eq.
Qed.

Lemma stop_try_succeeds (env : Env) (sessionId text : string) (row : Session)
    (summary : SummarizeTranscriptResult) (w : World) :
  (∀ n, connection_fails env n = false) →
  prisma.sessions (db w) !! sessionId = Some row →
  prisma.fits_TEXT sessionId = true →
  prisma.fits_TEXT text = true →
  let transcript := fullTranscript (prisma.transcriptChunk_findMany sessionId (db w)) in
  (summarizeTranscript env transcript w).1 = Ok summary →
  content summary = JS.VStr text →
  ∃ w' completed,
    stop_try env sessionId w = (Ok (), w')
    ∧ prisma.session_findUniqueOrThrow sessionId (db w') = Ok completed
    ∧ rooms w' = rooms w
    ∧ sent w'
      = sent w ++ [io_to_emit sessionId (session_status sessionId PROCESSING);
                   summary_request (summary_prompt +:+ transcript);
                   io_to_emit sessionId (session_completed sessionId completed)].
Proof.
  intros Hup Hrow Hid Htext transcript Hsummary Hcontent.
  unfold stop_try, updateSessionStatus, mbind, M_bind.
  unfold query at 1. rewrite Hup. unfold prisma.session_updateMany. rewrite Hrow.
  unfold mret, M_ret, emit_effect, with_db. simpl.
  unfold query at 1. rewrite Hup. simpl.
  set (d1 := prisma.with_sessions (db w) _).
  assert (prisma.transcriptChunk_findMany sessionId d1
          = prisma.transcriptChunk_findMany sessionId (db w)) as -> by done.
  fold transcript.
  rewrite (summarizeTranscript_run env transcript _ w), Hsummary, Hcontent.
  edestruct (completeSessionWithSummary_Ok env sessionId text (keyPoints summary)
               (actionItems summary) (decisions summary) (Some COMPLETED))
    as (completed & d' & -> & Hfind & _); [exact Hup| |exact Hid|exact Htext|].
  { simpl. subst d1. simpl. apply lookup_insert_eq. }
  simpl. eexists _, completed. split; [reflexivity|]. simpl.
  split; [exact Hfind|]. split; [done|]. by rewrite <- !app_assoc.
Qed.

(** The [try] block of [session:stop] is its two parts, one after the other,
    and the handler with nothing arriving in the meantime is the handler. *)
Lemma stop_try_split (env : Env) (sessionId : string) (w : World) :
  stop_try env sessionId w = (stop_head env sessionId ≫= stop_tail env sessionId) w.
Proof.
  unfold stop_try, stop_head, stop_tail, mbind, M_bind.
  destruct (updateSessionStatus env sessionId PROCESSING w) as [[[]|e] w1]; [|done].
  destruct (emit_effect _ w1) as [[[]|e] w2]; [|done].
  destruct (query env _ w2) as [[stored|e] w3]; [|done].
  by destruct (summarizeTranscript env _ w3) as [[summary|e] w4].
Qed.

Lemma on_session_stop_alone (env : Env) (socket : string) (payload : JS.value) (w : World) :
  on_session_stop_meanwhile env socket payload (mret ()) w
  = on_session_stop env socket payload w.
Proof.
  unfold on_session_stop_meanwhile, on_session_stop.
  destruct (SessionControlSchema.safeParse payload) as [data|]; [|done].
  unfold try_catch. rewrite stop_try_split. unfold mbind, M_bind.
  by destruct (stop_head env _ w) as [[summary|e] w1].
Qed.








(** * More properties of the code *)

(** ** Every handler, one database operation at a time *)

(** A relation kept by each database operation, as the handlers call it, is
    kept by every handler. *)
Lemma keeps_handle (R : relation prisma.Db) `{!PreOrder R} :
  (∀ id userId title sourceType status now d,
     R d (prisma.session_create id userId title sourceType status now d).2) →
  (∀ id status now d, R d (prisma.session_updateMany id status now d).2) →
  (∀ id status completedAt now d,
     R d (prisma.session_update id status completedAt now d).2) →
  (∀ sessionId index text startMs endMs now d,
     0 ≤ index → 0 ≤ startMs → 0 ≤ endMs → text ≠ "" →
     R d (prisma.transcriptChunk_create sessionId index text startMs endMs now d).2) →
  (∀ sessionId content keyPoints actionItems decisions now d,
     R d (prisma.summary_upsert sessionId content keyPoints actionItems decisions now d).2) →
  ∀ env event socket payload, keeps R (handle env event socket payload).
Proof.
  intros Hcreate HupdateMany Hupdate Hchunk Hupsert env event socket payload.
  assert (Hstatus : ∀ sessionId status,
            keeps R (updateSessionStatus env sessionId status)).
  { intros. apply (keeps_bind R); [|intros; apply (keeps_ret R)].
    apply (keeps_query R). intros. apply HupdateMany. }
  assert (Hcontrol : ∀ sessionId status message,
            keeps R
              (try_catch
                 (updateSessionStatus env sessionId status;;
                  emit_effect (io_to_emit sessionId (session_status sessionId status)))
                 (emit_effect (socket_emit socket (session_error message))))).
  { intros. apply (keeps_try_catch R); [|apply (keeps_emit R)].
    apply (keeps_bind R); [apply Hstatus|]. intros _. apply (keeps_emit R). }
  destruct event; simpl.
  - unfold on_session_start. destruct (SessionStartSchema.safeParse payload) as [data|];
      [|apply (keeps_emit R)].
    apply (keeps_try_catch R); [|apply (keeps_emit R)].
    apply (keeps_bind R); [|intros _].
    { apply (keeps_query R). intros. apply Hcreate. }
    apply (keeps_bind R); [|intros _; apply (keeps_emit R)].
    apply (keeps_same_db R). by intros ??? [= <- <-].
  - unfold on_session_audioChunk.
    destruct (AudioChunkSchema.safeParse payload) as [data|] eqn:Hdata;
      [|apply (keeps_emit R)].
    apply AudioChunkSchema_accepts in Hdata as (_ & _ & Hindex & HstartMs & HendMs & _).
    apply (keeps_try_catch R); [|apply (keeps_emit R)].
    unfold audioChunk_try, transcribeChunk.
    apply (keeps_bind R); [|intros text].
    { apply (keeps_bind R); [|intros; apply (keeps_ret R)].
      apply (keeps_same_db R). unfold transcribe_generateContent.
      by intros ??? [= <- <-]. }
    destruct (String.eqb text "") eqn:Htext; [apply (keeps_ret R)|].
    apply String.eqb_neq in Htext.
    apply (keeps_bind R); [|intros _; apply (keeps_emit R)].
    apply (keeps_query R). intros. by apply Hchunk.
  - unfold on_session_pause. destruct (SessionControlSchema.safeParse payload) as [data|];
      [apply Hcontrol|apply (keeps_emit R)].
  - unfold on_session_resume. destruct (SessionControlSchema.safeParse payload) as [data|];
      [apply Hcontrol|apply (keeps_emit R)].
  - unfold on_session_stop. destruct (SessionControlSchema.safeParse payload) as [data|];
      [|apply (keeps_emit R)].
    apply (keeps_try_catch R).
    + unfold stop_try.
      apply (keeps_bind R); [apply Hstatus|intros _].
      apply (keeps_bind R); [apply (keeps_emit R)|intros _].
      apply (keeps_bind R); [by apply (keeps_query R)|intros stored].
      apply (keeps_bind R); [|intros summary].
      { apply (keeps_same_db R). intros w0 r w' Hrun.
        by apply summarizeTranscript_frame in Hrun as [-> _]. }
      apply (keeps_bind R); [|intros; apply (keeps_emit R)].
      unfold completeSessionWithSummary.
      apply (keeps_bind R); [apply (keeps_same_db R); by intros ??? [= <- <-]|].
      intros completedAt. apply (keeps_bind R).
      * apply (keeps_transaction R).
        apply Forall_cons_2; [|apply Forall_cons_2; [|apply Forall_nil_2]].
        -- apply (keeps_bind R); [|intros; apply (keeps_ret R)].
           apply (keeps_query R). intros. apply Hupdate.
        -- apply (keeps_query R). intros. apply Hupsert.
      * intros _. by apply (keeps_query R).
    + unfold stop_catch.
      apply (keeps_bind R); [|intros _].
      { apply (keeps_try_catch R); [apply Hstatus|apply (keeps_ret R)]. }
      apply (keeps_bind R); [apply (keeps_emit R)|intros _].
      apply (keeps_emit R).
Qed.

(** ** What handlers send *)

Section sends.
Context (P : Effect → Prop).

Lemma sends_ret {A} (a : A) : sends P (mret a).
Proof. intros w r w' [= <- <-]. exists []. by rewrite app_nil_r. Qed.

Lemma sends_bind {A B} (m : M A) (f : A → M B) :
  sends P m → (∀ a, sends P (f a)) → sends P (m ≫= f).
Proof.
  intros Hm Hf w r w' Hrun.
  apply bind_inv in Hrun as [(a & w1 & H1 & H2)|(e & H1 & _)].
  - destruct (Hm _ _ _ H1) as (new1 & Hs1 & HP1).
    destruct (Hf _ _ _ _ H2) as (new2 & Hs2 & HP2).
    exists (new1 ++ new2). split; [by rewrite Hs2, Hs1, app_assoc|by apply Forall_app].
  - by eapply Hm.
Qed.

Lemma sends_try_catch {A} (body handler : M A) :
  sends P body → sends P handler → sends P (try_catch body handler).
Proof.
  intros Hb Hh w r w'. unfold try_catch.
  destruct (body w) as [[a|e] w1] eqn:Hbody.
  - intros [= <- <-]. by eapply Hb.
  - intros Hrun.
    destruct (Hb _ _ _ Hbody) as (new1 & Hs1 & HP1).
    destruct (Hh _ _ _ Hrun) as (new2 & Hs2 & HP2).
    exists (new1 ++ new2). split; [by rewrite Hs2, Hs1, app_assoc|by apply Forall_app].
Qed.

Lemma sends_emit (e : Effect) : P e → sends P (emit_effect e).
Proof. intros He w r w' [= <- <-]. exists [e]. split; [done|]. by apply Forall_singleton. Qed.

(** A computation that sends nothing. *)
Lemma sends_nothing {A} (m : M A) :
  (∀ w r w', m w = (r, w') → sent w' = sent w) → sends P m.
Proof. intros Hm w r w' Hrun. exists []. by rewrite app_nil_r, (Hm _ _ _ Hrun). Qed.

Lemma sends_query {A} (env : Env) (op : Z → prisma.Db → Result A * prisma.Db) :
  sends P (query env op).
Proof.
  apply sends_nothing. intros w r w'. unfold query.
  destruct (connection_fails env (tick w)); [by intros [= <- <-]|].
  destruct (op _ _) as [r' d]. by intros [= <- <-].
Qed.

Lemma sends_sequence (ops : list (M unit)) :
  Forall (sends P) ops → sends P (sequence ops).
Proof.
  induction 1 as [|op ops Hop _ IH]; simpl; [apply sends_ret|].
  apply sends_bind; [done|]. by intros _.
Qed.

Lemma sends_transaction (env : Env) (ops : list (M unit)) :
  Forall (sends P) ops → sends P (transaction env ops).
Proof.
  intros Hops w r w'. unfold transaction.
  assert (sends P (sequence ops;; query env (λ _ d, (Ok (), d)))) as Hseq.
  { apply sends_bind; [by apply sends_sequence|]. intros _. apply sends_query. }
  destruct ((sequence ops;; query env (λ _ d, (Ok (), d))) w) as [[[]|e] w1] eqn:Hrun;
    intros [= <- <-]; by apply (Hseq _ _ _ Hrun).
Qed.

Lemma sends_updateSessionStatus (env : Env) (sessionId : string) (status : SessionStatus) :
  sends P (updateSessionStatus env sessionId status).
Proof. apply sends_bind; [apply sends_query|intros; apply sends_ret]. Qed.

Lemma sends_completeSessionWithSummary (env : Env) (sessionId : string)
    (summaryContent keyPoints actionItems decisions : JS.value)
    (status : option SessionStatus) :
  sends P (completeSessionWithSummary env sessionId summaryContent keyPoints actionItems
             decisions status).
Proof.
  unfold completeSessionWithSummary.
  apply sends_bind; [apply sends_nothing; by intros ??? [= <- <-]|intros completedAt].
  apply sends_bind; [|intros _; apply sends_query].
  apply sends_transaction.
  apply Forall_cons_2; [|apply Forall_cons_2; [|apply Forall_nil_2]].
  - apply sends_bind; [apply sends_query|intros; apply sends_ret].
  - apply sends_query.
Qed.

End sends.

Lemma sends_newly_sent {A} (P : Effect → Prop) (m : M A) (w w' : World) (r : Result A) :
  sends P m → m w = (r, w') → Forall P (newly_sent w w').
Proof.
  intros Hm Hrun. destruct (Hm _ _ _ Hrun) as (new & Hsent & HP).
  unfold newly_sent. by rewrite Hsent, drop_app_length.
Qed.


(** ** Every handler, whatever happens *)

Lemma try_catch_never_throws (body handler : M unit) (w : World) :
  (∀ w1, (handler w1).1 = Ok ()) → (try_catch body handler w).1 = Ok ().
Proof.
  intros Hhandler. unfold try_catch. destruct (body w) as [[[]|e] w1]; [done|apply Hhandler].
Qed.

(** X1. No handler throws: whatever the payload, the answers of the models and
    the failures of the database, every handler ends normally, so no event
    can bring the server down with an unhandled rejection. *)
Theorem handle_never_throws (env : Env) (event : Inbound) (socket : string)
    (payload : JS.value) (w : World) :
  (handle env event socket payload w).1 = Ok ().
Proof.
  destruct event; simpl.
  - unfold on_session_start. destruct (SessionStartSchema.safeParse payload); [|done].
    by apply try_catch_never_throws.
  - unfold on_session_audioChunk. destruct (AudioChunkSchema.safeParse payload); [|done].
    by apply try_catch_never_throws.
  - unfold on_session_pause. destruct (SessionControlSchema.safeParse payload); [|done].
    by apply try_catch_never_throws.
  - unfold on_session_resume. destruct (SessionControlSchema.safeParse payload); [|done].
    by apply try_catch_never_throws.
  - unfold on_session_stop. destruct (SessionControlSchema.safeParse payload); [|done].
    apply try_catch_never_throws. intros w1.
    unfold stop_catch, mbind, M_bind.
    by destruct (try_catch (updateSessionStatus env _ ERROR) (mret ()) w1) as [[[]|e] w2] eqn:H;
      [|unfold try_catch in H; destruct (updateSessionStatus env _ ERROR w1) as [[[]|?] ?]].
Qed.

Lemma sends_handle (env : Env) (event : Inbound) (socket : string) (payload : JS.value) :
  sends (scoped event socket payload) (handle env event socket payload).
Proof.
  set (P := scoped event socket payload).
  assert (Herror : ∀ message, sends P (emit_effect (socket_emit socket (session_error message)))).
  { intros. by apply sends_emit. }
  destruct event; simpl.
  - unfold on_session_start.
    destruct (SessionStartSchema.safeParse payload) as [data|] eqn:Hdata; [|apply Herror].
    apply SessionStartSchema_sessionId in Hdata as [Hid _].
    apply sends_try_catch; [|apply Herror].
    apply sends_bind; [apply sends_query|intros _].
    apply sends_bind; [apply sends_nothing; by intros ??? [= <- <-]|intros _].
    by apply sends_emit.
  - unfold on_session_audioChunk.
    destruct (AudioChunkSchema.safeParse payload) as [data|] eqn:Hdata; [|apply Herror].
    apply AudioChunkSchema_accepts in Hdata as (Hid & _).
    apply sends_try_catch; [|apply Herror].
    unfold audioChunk_try, transcribeChunk.
    apply sends_bind; [|intros text].
    { apply sends_bind; [|intros; apply sends_ret].
      intros w r w' [= <- <-]. eexists [_]. split; [done|]. by apply Forall_singleton. }
    destruct (String.eqb text ""); [apply sends_ret|].
    apply sends_bind; [apply sends_query|intros _]. by apply sends_emit.
  - unfold on_session_pause.
    destruct (SessionControlSchema.safeParse payload) as [data|] eqn:Hdata; [|apply Herror].
    apply SessionControlSchema_sessionId in Hdata as [Hid _].
    apply sends_try_catch; [|apply Herror].
    apply sends_bind; [apply sends_updateSessionStatus|intros _]. by apply sends_emit.
  - unfold on_session_resume.
    destruct (SessionControlSchema.safeParse payload) as [data|] eqn:Hdata; [|apply Herror].
    apply SessionControlSchema_sessionId in Hdata as [Hid _].
    apply sends_try_catch; [|apply Herror].
    apply sends_bind; [apply sends_updateSessionStatus|intros _]. by apply sends_emit.
  - unfold on_session_stop.
    destruct (SessionControlSchema.safeParse payload) as [data|] eqn:Hdata; [|apply Herror].
    apply SessionControlSchema_sessionId in Hdata as [Hid _].
    apply sends_try_catch.
    + unfold stop_try.
      apply sends_bind; [apply sends_updateSessionStatus|intros _].
      apply sends_bind; [by apply sends_emit|intros _].
      apply sends_bind; [apply sends_query|intros stored].
      apply sends_bind; [|intros summary].
      { unfold summarizeTranscript. apply sends_bind.
        - intros w r w' [= <- <-]. eexists [_]. split; [done|]. by apply Forall_singleton.
        - intros text. destruct (JS.JSON_parse _); apply sends_ret. }
      apply sends_bind; [apply sends_completeSessionWithSummary|intros completed].
      by apply sends_emit.
    + unfold stop_catch.
      apply sends_bind; [|intros _].
      { apply sends_try_catch; [apply sends_updateSessionStatus|apply sends_ret]. }
      apply sends_bind; [by apply sends_emit|intros _]. apply Herror.
Qed.

(** X2. What a handler sends is scoped: to the socket it serves it sends errors
    and nothing else; what it broadcasts goes to the room named after the
    session of the payload, is about that session and is one of the events of
    that handler. In particular no handler broadcasts the status COMPLETED,
    and one session's events never go to another session's room. *)
Theorem handle_sends_scoped (env : Env) (event : Inbound) (socket : string)
    (payload : JS.value) (w : World) :
  Forall (scoped event socket payload)
    (newly_sent w (handle env event socket payload w).2).
Proof.
  destruct (handle env event socket payload w) as [r w'] eqn:Hrun.
  exact (sends_newly_sent _ _ _ _ _ (sends_handle env event socket payload) Hrun).
Qed.

Global Instance grows_preorder : PreOrder grows.
Proof.
  split.
  - intros d. repeat split; try done. intros id row Hrow. exists row. by repeat split.
  - intros d1 d2 d3 (Hu12 & Hc12 & Hs12 & Hm12 & Hn12) (Hu23 & Hc23 & Hs23 & Hm23 & Hn23).
    split; [congruence|]. split; [by etrans|]. split; [|split; [by etrans|lia]].
    intros id row1 Hrow1.
    destruct (Hs12 _ _ Hrow1) as (row2 & Hrow2 & H2).
    destruct (Hs23 _ _ Hrow2) as (row3 & Hrow3 & H3).
    exists row3. split; [done|].
    destruct H2 as (?&?&?&?&?&?), H3 as (?&?&?&?&?&?). repeat split; congruence.
Qed.

Lemma insert_same_origin (d : prisma.Db) (key : string) (new : Session) :
  (∀ old, prisma.sessions d !! key = Some old → same_origin old new) →
  ∀ id row, prisma.sessions d !! id = Some row →
    ∃ row', <[key := new]> (prisma.sessions d) !! id = Some row' ∧ same_origin row row'.
Proof.
  intros Hnew id row Hrow. destruct (decide (id = key)) as [->|Hne].
  - exists new. rewrite lookup_insert_eq. split; [done|]. by apply Hnew.
  - exists row. rewrite lookup_insert_ne by done. split; [done|]. by repeat split.
Qed.

(** X3. No handler discards or rewrites what is stored: after any handler the
    chunks stored before are still stored, unchanged; every session still
    exists with its owner, title, source and start time; every summary row
    is still there for its session; no user row is touched. *)
Theorem handle_grows (env : Env) (event : Inbound) (socket : string)
    (payload : JS.value) (w : World) :
  grows (db w) (db (handle env event socket payload w).2).
Proof.
  assert (keeps grows (handle env event socket payload)) as Hkeeps.
  2:{ destruct (handle env event socket payload w) as [r w'] eqn:Hrun.
      exact (Hkeeps _ _ _ Hrun). }
  apply (keeps_handle grows).
  - intros id userId title sourceType status now d. unfold prisma.session_create.
    destruct (negb _); [reflexivity|].
    destruct (decide (is_Some (prisma.sessions d !! default (prisma.fresh_id d) id)))
      as [Hexists|Hexists];
      [rewrite (bool_decide_eq_true_2 _ Hexists); reflexivity|].
    rewrite (bool_decide_eq_false_2 _ Hexists).
    destruct (bool_decide (userId ∈ prisma.users d)); [|reflexivity]. simpl.
    repeat split; simpl; try done; [|destruct id; lia].
    apply insert_same_origin. intros old Hold. destruct Hexists. by exists old.
  - intros id status now d. unfold prisma.session_updateMany.
    destruct (prisma.sessions d !! id) as [row|] eqn:Hrow; [|reflexivity]. simpl.
    repeat split; simpl; try done.
    apply insert_same_origin. intros old Hold. assert (old = row) as -> by congruence.
    by repeat split.
  - intros id status completedAt now d. unfold prisma.session_update.
    destruct (prisma.sessions d !! id) as [row|] eqn:Hrow; [|reflexivity]. simpl.
    repeat split; simpl; try done.
    apply insert_same_origin. intros old Hold. assert (old = row) as -> by congruence.
    by repeat split.
  - intros sessionId index text startMs endMs now d _ _ _ _.
    unfold prisma.transcriptChunk_create.
    destruct (negb _); [reflexivity|]. destruct (negb _); [reflexivity|].
    destruct (bool_decide _); [|reflexivity]. simpl.
    repeat split; simpl; try done; [by apply prefix_app_r| |lia].
    intros id row Hrow. exists row. by repeat split.
  - intros sessionId text keyPoints actionItems decisions now d.
    unfold prisma.summary_upsert. destruct text; try reflexivity.
    destruct (negb _); [reflexivity|].
    destruct (prisma.summaries_of _ _) as [|found rest].
    + destruct (bool_decide _); [|reflexivity]. simpl.
      repeat split; simpl; try done; [| |lia].
      * intros id row Hrow. exists row. by repeat split.
      * rewrite fmap_app. by apply prefix_app_r.
    + simpl. repeat split; simpl; try done.
      * intros id row Hrow. exists row. by repeat split.
      * rewrite <- list_fmap_compose.
        erewrite (list_fmap_ext (summary_key ∘ _) summary_key); [done|].
        intros i r _. simpl. by destruct (bool_decide _).
Qed.

Global Instance chunks_well_formed_preorder : PreOrder chunks_well_formed.
Proof.
  split; [intros d H; exact H|]. intros d1 d2 d3 H12 H23 H. by apply H23, H12.
Qed.

Lemma same_chunks_well_formed (d d' : prisma.Db) :
  prisma.chunks d' = prisma.chunks d → chunks_well_formed d d'.
Proof. unfold chunks_well_formed. by intros ->. Qed.

(** X4. No handler stores a chunk the schema should have stopped: if every
    stored chunk has a non-negative index, non-negative offsets and a text
    that is not empty, the same holds after any handler. *)
Theorem handle_stores_well_formed (env : Env) (event : Inbound) (socket : string)
    (payload : JS.value) (w : World) :
  Forall well_formed (prisma.chunks (db w)) →
  Forall well_formed (prisma.chunks (db (handle env event socket payload w).2)).
Proof.
  assert (keeps chunks_well_formed (handle env event socket payload)) as Hkeeps.
  2:{ destruct (handle env event socket payload w) as [r w'] eqn:Hrun.
      exact (Hkeeps _ _ _ Hrun). }
  apply (keeps_handle chunks_well_formed).
  - intros. apply same_chunks_well_formed. unfold prisma.session_create.
    destruct (negb _); [done|].
    destruct (bool_decide _); [done|]. by destruct (bool_decide _).
  - intros. apply same_chunks_well_formed. unfold prisma.session_updateMany.
    by destruct (prisma.sessions d !! id).
  - intros. apply same_chunks_well_formed. unfold prisma.session_update.
    by destruct (prisma.sessions d !! id).
  - intros sessionId index text startMs endMs now d Hindex HstartMs HendMs Htext Hd.
    unfold prisma.transcriptChunk_create.
    destruct (negb _); [done|]. destruct (negb _); [done|].
    destruct (bool_decide _); [|done]. simpl.
    apply Forall_app. split; [done|]. by apply Forall_singleton.
  - intros sessionId text keyPoints actionItems decisions now d.
    apply same_chunks_well_formed. unfold prisma.summary_upsert.
    destruct text; try reflexivity. destruct (negb _); [reflexivity|].
    destruct (prisma.summaries_of _ _); [|reflexivity].
    by destruct (bool_decide _).
Qed.

Lemma handle_stores_well_formed_witness :
  Forall well_formed
    (prisma.chunks
       (db (handle sample.env session_audioChunk "socket-1"
              (sample.audioChunk_payload 2 "again") (sample.world sample.hello_world)).2)).
Proof.
  apply handle_stores_well_formed. simpl.
  apply Forall_cons_2; [|apply Forall_cons_2; [|apply Forall_nil_2]];
    (split; [simpl; lia|split; [simpl; lia|split; [simpl; lia|discriminate]]]).
Defined.

(** X5. The unique index of the summaries is kept by every handler: see
    [handle_keeps_unique_summaries]. Here on the sample data. *)
Lemma handle_keeps_unique_summaries_witness :
  prisma.unique_summaries
    (db (handle sample.env session_stop "socket-1" sample.control_payload
           (sample.world sample.hello_world)).2).
Proof.
  apply handle_keeps_unique_summaries. apply NoDup_nil_2.
Defined.

(** ** Starting a session *)

(** X6. [session:start] is all or nothing. When the database answers, no
    session of that identifier exists, the user is known and the user
    identifier and the title are texts the database can store (well-formed,
    without U+0000), the session is created with status RECORDING, the
    socket joins its room and the room is told.
    Otherwise (a second start for the same identifier, an unknown user, a
    text the database refuses, a database failure) nothing is stored, the
    socket joins no room, and the sender alone is told that the creation
    failed. *)
Theorem session_start_creates_or_reports (env : Env) (socket : string) (payload : JS.value)
    (data : SessionStartSchema.data) (w : World) :
  SessionStartSchema.safeParse payload = Some data →
  let sessionId := SessionStartSchema.sessionId data in
  let now := clock env (tick w) in
  let w' := (handle env session_start socket payload w).2 in
  let accepted :=
    connection_fails env (tick w) = false
    ∧ prisma.sessions (db w) !! sessionId = None
    ∧ SessionStartSchema.userId data ∈ prisma.users (db w)
    ∧ prisma.fits_TEXT (SessionStartSchema.userId data)
      && prisma.fits_TEXT_or_null (SessionStartSchema.title data) = true in
  (accepted →
     prisma.sessions (db w')
     = <[sessionId :=
           {| Session_id := sessionId; Session_userId := SessionStartSchema.userId data;
              Session_title := SessionStartSchema.title data;
              Session_sourceType := SessionStartSchema.sourceType data;
              Session_status := RECORDING; Session_startedAt := now;
              Session_completedAt := None; Session_createdAt := now;
              Session_updatedAt := now |}]> (prisma.sessions (db w))
     ∧ prisma.chunks (db w') = prisma.chunks (db w)
     ∧ prisma.summaries (db w') = prisma.summaries (db w)
     ∧ rooms w' = <[sessionId := {[socket]} ∪ default ∅ (rooms w !! sessionId)]> (rooms w)
     ∧ newly_sent w w' = [io_to_emit sessionId (session_status sessionId RECORDING)])
  ∧ (¬ accepted →
     db w' = db w
     ∧ rooms w' = rooms w
     ∧ newly_sent w w' = [socket_emit socket (session_error "Failed to create session")]).
Proof.
  intros Hdata sessionId now w' accepted.
  pose proof (SessionStartSchema_sessionId _ _ Hdata) as [_ Huuid].
  assert (Hid : match sessionId with EmptyString => None | _ => Some sessionId end
                = Some sessionId).
  { fold sessionId in Huuid. by destruct sessionId. }
  subst w'. simpl. unfold on_session_start. rewrite Hdata. fold sessionId.
  unfold try_catch, createSession, query, mbind, M_bind. rewrite Hid.
  unfold prisma.session_create. simpl. fold sessionId in Huuid.
  rewrite (uuid_fits _ Huuid). simpl.
  destruct (connection_fails env (tick w)) eqn:Hfails; simpl.
  { split; [by intros [? _]|]. intros _. repeat split. by apply newly_sent_app. }
  destruct (prisma.fits_TEXT (SessionStartSchema.userId data)
            && prisma.fits_TEXT_or_null (SessionStartSchema.title data)) eqn:Hstorable;
    simpl.
  2:{ split; [by intros (_ & _ & _ & ?)|]. intros _. split; [by destruct w as [[]]|].
      repeat split. by apply newly_sent_app. }
  destruct (prisma.sessions (db w) !! sessionId) as [row|] eqn:Hrow.
  { rewrite bool_decide_eq_true_2 by by exists row. simpl.
    split; [by intros (_ & ? & _)|]. intros _. split; [by destruct w as [[]]|].
    repeat split. by apply newly_sent_app. }
  rewrite bool_decide_eq_false_2 by by intros [? ?].
  destruct (decide (SessionStartSchema.userId data ∈ prisma.users (db w))) as [Huser|Huser].
  - rewrite (bool_decide_eq_true_2 _ Huser). simpl. split; [|by intros []].
    intros _. repeat split. by apply newly_sent_app.
  - rewrite (bool_decide_eq_false_2 _ Huser). simpl.
    split; [by intros (_ & _ & ? & _)|]. intros _. split; [by destruct w as [[]]|].
    repeat split. by apply newly_sent_app.
Qed.

Lemma session_start_creates_or_reports_witness :
  let w' := (handle sample.env session_start "socket-1" scenario.start_payload
               scenario.lobby).2 in
  newly_sent scenario.lobby w'
  = [io_to_emit sample.S1 (session_status sample.S1 RECORDING)].
Proof.
  destruct (session_start_creates_or_reports sample.env "socket-1" scenario.start_payload
              (SessionStartSchema.Data sample.S1 "u1" None MIC) scenario.lobby eq_refl)
    as [Hcreated _].
  destruct Hcreated as (_ & _ & _ & _ & Hsent).
  { split; [reflexivity|split; [reflexivity|split; [|reflexivity]]].
    apply (bool_decide_unpack _). vm_compute. exact I. }
  exact Hsent.
Defined.

(** ** Pausing and resuming *)

(** X7. [session:pause] and [session:resume] write their status whatever the
    current one is, also over COMPLETED or ERROR, and touch nothing else: the
    other columns but [updatedAt], the other sessions, the chunks and the
    summaries stay. They broadcast the status even when no session of that
    identifier exists, in which case nothing is written. No socket joins or
    leaves a room. When the database fails, nothing is written and the sender
    alone is told. *)
Theorem status_is_set_whatever_it_was (env : Env) (event : Inbound)
    (status : SessionStatus) (socket : string) (payload : JS.value)
    (data : SessionControlSchema.data) (w : World) :
  control_status event = Some status →
  SessionControlSchema.safeParse payload = Some data →
  let sessionId := SessionControlSchema.sessionId data in
  let w' := (handle env event socket payload w).2 in
  rooms w' = rooms w
  ∧ prisma.chunks (db w') = prisma.chunks (db w)
  ∧ prisma.summaries (db w') = prisma.summaries (db w)
  ∧ (∀ id, id ≠ sessionId → prisma.sessions (db w') !! id = prisma.sessions (db w) !! id)
  ∧ (connection_fails env (tick w) = false →
       prisma.sessions (db w') !! sessionId
       = prisma.set_status status (clock env (tick w)) <$> prisma.sessions (db w) !! sessionId
       ∧ newly_sent w w' = [io_to_emit sessionId (session_status sessionId status)])
  ∧ (connection_fails env (tick w) = true →
       db w' = db w
       ∧ ∃ message, newly_sent w w' = [socket_emit socket (session_error message)]).
Proof.
  intros Hstatus Hdata sessionId w'.
  assert (Hrun : w' = (try_catch
                         (updateSessionStatus env sessionId status;;
                          emit_effect (io_to_emit sessionId (session_status sessionId status)))
                         (emit_effect
                            (socket_emit socket
                               (session_error
                                  (match event with
                                   | session_pause => "Failed to pause session"
                                   | _ => "Failed to resume session"
                                   end)))) w).2).
  { subst w'. destruct event; try discriminate Hstatus; injection Hstatus as <-; simpl.
    - unfold on_session_pause. by rewrite Hdata.
    - unfold on_session_resume. by rewrite Hdata. }
  clearbody w'. subst w'.
  unfold try_catch, updateSessionStatus, query, mbind, M_bind, prisma.session_updateMany.
  destruct (connection_fails env (tick w)) eqn:Hfails; simpl.
  { repeat split; try done. eexists. by apply newly_sent_app. }
  destruct (prisma.sessions (db w) !! sessionId) as [row|] eqn:Hrow; simpl.
  - repeat split; try done.
    + intros id Hid. by rewrite lookup_insert_ne.
    + by rewrite lookup_insert_eq.
    + by apply newly_sent_app.
  - repeat split; try done. by apply newly_sent_app.
Qed.

Lemma status_is_set_whatever_it_was_witness :
  let w' := (handle sample.env session_pause "socket-1" sample.control_payload
               (sample.world sample.hello_world)).2 in
  Session_status <$> prisma.sessions (db w') !! sample.S1 = Some PAUSED.
Proof.
  destruct (status_is_set_whatever_it_was sample.env session_pause PAUSED "socket-1"
              sample.control_payload (SessionControlSchema.Data sample.S1)
              (sample.world sample.hello_world) eq_refl eq_refl)
    as (_ & _ & _ & _ & Hup & _).
  destruct (Hup eq_refl) as [Hrow _]. simpl in Hrow |- *. rewrite Hrow. reflexivity.
Defined.

(** ** Chunks that are not stored, chunks stored twice *)

(** X8. A chunk the model transcribes to nothing but white space is dropped in
    silence: nothing is stored and no event is emitted. A chunk with some
    text that cannot be stored (the database fails, the session does not
    exist, or the index or an offset exceeds the 32 bits of its column) is
    dropped too, after the model was called, and the sender alone is told. *)
Theorem chunk_without_text_or_session_is_dropped (env : Env) (socket : string)
    (payload : JS.value) (data : AudioChunkSchema.data) (text : string) (w : World) :
  AudioChunkSchema.safeParse payload = Some data →
  let audioBytes := Buffer_from_base64 env (AudioChunkSchema.audioBase64 data) in
  let mimeType := AudioChunkSchema.mimeType data in
  transcribeModel env audioBytes mimeType = Ok text →
  let w' := (handle env session_audioChunk socket payload w).2 in
  let storable :=
    connection_fails env (tick w) = false
    ∧ is_Some (prisma.sessions (db w) !! AudioChunkSchema.sessionId data)
    ∧ prisma.fits_Int (AudioChunkSchema.index data)
      && prisma.fits_Int (AudioChunkSchema.startMs data)
      && prisma.fits_Int (AudioChunkSchema.endMs data) = true in
  (JS.trim text = "" →
     db w' = db w ∧ newly_sent w w' = [transcribe_request audioBytes mimeType])
  ∧ (JS.trim text ≠ "" → ¬ storable →
     db w' = db w
     ∧ newly_sent w w'
       = [transcribe_request audioBytes mimeType;
          socket_emit socket (session_error "Failed to process audio chunk")]).
Proof.
  intros Hdata audioBytes mimeType Hmodel w' storable. subst w'. simpl.
  unfold on_session_audioChunk. rewrite Hdata.
  unfold try_catch, audioChunk_try, transcribeChunk, mbind, M_bind,
    transcribe_generateContent, mret, M_ret.
  fold audioBytes mimeType. rewrite Hmodel.
  destruct (String.eqb (JS.trim text) "") eqn:Hempty.
  { apply String.eqb_eq in Hempty. split; [|done]. intros _. simpl.
    split; [done|]. by apply newly_sent_app. }
  apply String.eqb_neq in Hempty. split; [done|]. intros _ Hno.
  unfold appendTranscriptChunk, query, emit_effect. simpl.
  destruct (connection_fails env (tick w)) eqn:Hfails; simpl.
  { split; [done|]. apply newly_sent_app. simpl. by rewrite <- app_assoc. }
  unfold prisma.transcriptChunk_create.
  destruct (prisma.fits_Int (AudioChunkSchema.index data)
            && prisma.fits_Int (AudioChunkSchema.startMs data)
            && prisma.fits_Int (AudioChunkSchema.endMs data)) eqn:Hfits; simpl.
  2:{ split; [by destruct w as [[]]|]. apply newly_sent_app. simpl. by rewrite <- app_assoc. }
  destruct (negb _); simpl.
  { split; [by destruct w as [[]]|]. apply newly_sent_app. simpl. by rewrite <- app_assoc. }
  destruct (decide (is_Some (prisma.sessions (db w) !! AudioChunkSchema.sessionId data)))
    as [Hsession|Hsession].
  { destruct Hno. by repeat split. }
  rewrite (bool_decide_eq_false_2 _ Hsession). simpl.
  split; [by destruct w as [[]]|]. apply newly_sent_app. simpl. by rewrite <- app_assoc.
Qed.

Lemma chunk_without_text_or_session_is_dropped_witness :
  let w := sample.world sample.hello_world in
  let w' := (handle sample.env session_audioChunk "socket-1"
               (sample.audioChunk_payload 2 "   ") w).2 in
  db w' = db w.
Proof.
  destruct (chunk_without_text_or_session_is_dropped sample.env "socket-1"
              (sample.audioChunk_payload 2 "   ")
              (AudioChunkSchema.Data sample.S1 2 "   " "audio/webm" 0 10) "   "
              (sample.world sample.hello_world) eq_refl eq_refl)
    as [Hblank _].
  destruct (Hblank eq_refl) as [Hdb _]. exact Hdb.
Defined.

(** X9. The server keys nothing on the index of a chunk: a chunk received twice
    under the same index (a retransmission, say), each time transcribed to
    some text the database can store (well-formed, without U+0000), is
    stored twice, under two rows of that
    index, and both rows are part of what the session's transcript is built
    from. *)
Theorem same_index_is_stored_twice (env : Env) (socket : string)
    (payload1 payload2 : JS.value) (data1 data2 : AudioChunkSchema.data)
    (text1 text2 : string) (w : World) :
  AudioChunkSchema.safeParse payload1 = Some data1 →
  AudioChunkSchema.safeParse payload2 = Some data2 →
  AudioChunkSchema.sessionId data2 = AudioChunkSchema.sessionId data1 →
  AudioChunkSchema.index data2 = AudioChunkSchema.index data1 →
  transcribeModel env (Buffer_from_base64 env (AudioChunkSchema.audioBase64 data1))
    (AudioChunkSchema.mimeType data1) = Ok text1 →
  transcribeModel env (Buffer_from_base64 env (AudioChunkSchema.audioBase64 data2))
    (AudioChunkSchema.mimeType data2) = Ok text2 →
  JS.trim text1 ≠ "" →
  JS.trim text2 ≠ "" →
  prisma.fits_TEXT (JS.trim text1) = true →
  prisma.fits_TEXT (JS.trim text2) = true →
  connection_fails env (tick w) = false →
  connection_fails env (S (tick w)) = false →
  is_Some (prisma.sessions (db w) !! AudioChunkSchema.sessionId data1) →
  prisma.fits_Int (AudioChunkSchema.index data1)
  && prisma.fits_Int (AudioChunkSchema.startMs data1)
  && prisma.fits_Int (AudioChunkSchema.endMs data1) = true →
  prisma.fits_Int (AudioChunkSchema.index data2)
  && prisma.fits_Int (AudioChunkSchema.startMs data2)
  && prisma.fits_Int (AudioChunkSchema.endMs data2) = true →
  let sessionId := AudioChunkSchema.sessionId data1 in
  let w1 := (handle env session_audioChunk socket payload1 w).2 in
  let w2 := (handle env session_audioChunk socket payload2 w1).2 in
  ∃ row1 row2,
    prisma.chunks (db w2) = prisma.chunks (db w) ++ [row1; row2]
    ∧ Chunk_index row1 = AudioChunkSchema.index data1
    ∧ Chunk_index row2 = AudioChunkSchema.index data1
    ∧ Chunk_text row1 = JS.trim text1
    ∧ Chunk_text row2 = JS.trim text2
    ∧ prisma.transcriptChunk_findMany sessionId (db w2)
      ≡ₚ prisma.transcriptChunk_findMany sessionId (db w) ++ [row1; row2].
Proof.
  intros Hdata1 Hdata2 Hsame Hindex Hmodel1 Hmodel2 Htext1 Htext2 Hstorable1 Hstorable2
    Hup1 Hup2 Hsession Hfits1 Hfits2 sessionId w1 w2.
  destruct (audioChunk_stored env socket payload1 data1 text1 w)
    as (w1' & Hrun1 & Hchunks1 & Hsessions1 & Hsent1); try done.
  assert (w1 = w1') as Hw1 by (subst w1; by rewrite Hrun1).
  assert (tick w1 = S (tick w)) as Htick.
  { rewrite Hw1. clear -Hrun1 Hdata1 Hmodel1 Htext1 Hup1. simpl in Hrun1.
    unfold on_session_audioChunk in Hrun1. rewrite Hdata1 in Hrun1.
    unfold try_catch, audioChunk_try, transcribeChunk, mbind, M_bind,
      transcribe_generateContent, mret, M_ret in Hrun1.
    rewrite Hmodel1 in Hrun1. apply String.eqb_neq in Htext1. rewrite Htext1 in Hrun1.
    unfold appendTranscriptChunk, query, emit_effect in Hrun1. simpl in Hrun1.
    rewrite Hup1 in Hrun1.
    destruct (prisma.transcriptChunk_create _ _ _ _ _ _ _) as [[row|e] d];
      simpl in Hrun1; [by injection Hrun1 as <-|].
    by injection Hrun1 as <-. }
  destruct (audioChunk_stored env socket payload2 data2 text2 w1)
    as (w2' & Hrun2 & Hchunks2 & _); try done.
  { by rewrite Htick. }
  { rewrite Hw1, Hsessions1, Hsame. exact Hsession. }
  assert (w2 = w2') as Hw2 by (subst w2; by rewrite Hrun2).
  eexists _, _. split.
  { rewrite Hw2, Hchunks2, Hw1, Hchunks1, <- app_assoc. reflexivity. }
  simpl. repeat split; try done.
  unfold prisma.transcriptChunk_findMany.
  rewrite !merge_sort_Permutation. rewrite Hw2, Hchunks2, Hw1, Hchunks1, <- app_assoc.
  unfold prisma.chunks_of. rewrite filter_app. simpl.
  rewrite !filter_cons. simpl. rewrite filter_nil.
  rewrite decide_True by done. rewrite decide_True by done. done.
Qed.

Lemma same_index_is_stored_twice_witness :
  let w := sample.world sample.hello_world in
  let w1 := (handle sample.env session_audioChunk "socket-1"
               (sample.audioChunk_payload 2 "again") w).2 in
  let w2 := (handle sample.env session_audioChunk "socket-1"
               (sample.audioChunk_payload 2 "once more") w1).2 in
  ∃ row1 row2,
    prisma.chunks (db w2) = prisma.chunks (db w) ++ [row1; row2]
    ∧ Chunk_index row1 = 2 ∧ Chunk_index row2 = 2.
Proof.
  destruct (same_index_is_stored_twice sample.env "socket-1"
              (sample.audioChunk_payload 2 "again")
              (sample.audioChunk_payload 2 "once more")
              (AudioChunkSchema.Data sample.S1 2 "again" "audio/webm" 0 10)
              (AudioChunkSchema.Data sample.S1 2 "once more" "audio/webm" 0 10)
              "again" "once more" (sample.world sample.hello_world))
    as (row1 & row2 & Hchunks & Hindex1 & Hindex2 & _); try reflexivity.
  - vm_compute. discriminate.
  - vm_compute. discriminate.
  - exists sample.recording_session. vm_compute. reflexivity.
  - exists row1, row2. split; [exact Hchunks|]. split; [exact Hindex1|exact Hindex2].
Defined.

(** ** Finalization that succeeds *)



(** ** Finalization that cannot succeed *)

(** X11. [session:stop] for a session that does not exist: the handler does not
    look the session up first. The room is told PROCESSING and the summary
    model is asked for a summary all the same; whatever the model answers,
    the room is then told ERROR and the sender that finalization failed.
    Nothing is written. *)
Theorem stop_of_unknown_session (env : Env) (socket : string) (payload : JS.value)
    (data : SessionControlSchema.data) (w : World) :
  SessionControlSchema.safeParse payload = Some data →
  let sessionId := SessionControlSchema.sessionId data in
  let transcript := fullTranscript (prisma.transcriptChunk_findMany sessionId (db w)) in
  (∀ n, connection_fails env n = false) →
  prisma.sessions (db w) !! sessionId = None →
  let w' := (handle env session_stop socket payload w).2 in
  db w' = db w
  ∧ newly_sent w w'
    = [io_to_emit sessionId (session_status sessionId PROCESSING);
       summary_request (summary_prompt +:+ transcript);
       io_to_emit sessionId (session_status sessionId ERROR);
       socket_emit socket (session_error "Failed to finalize session")].
Proof.
  intros Hdata sessionId transcript Hup Hrow w'. subst w'.
  destruct (handle env session_stop socket payload w) as [r w'] eqn:Hrun.
  simpl in Hrun. unfold on_session_stop in Hrun. rewrite Hdata in Hrun. fold sessionId in Hrun.
  unfold try_catch, stop_try, stop_catch, updateSessionStatus, mbind, M_bind in Hrun.
  unfold query at 1 in Hrun. rewrite Hup in Hrun.
  unfold prisma.session_updateMany at 1 in Hrun. rewrite Hrow in Hrun.
  unfold mret, M_ret, emit_effect, with_db in Hrun. simpl in Hrun.
  unfold query at 1 in Hrun. rewrite Hup in Hrun. simpl in Hrun. fold transcript in Hrun.
  rewrite (summarizeTranscript_run env transcript _ w) in Hrun.
  destruct (summarizeTranscript env transcript w).1 as [result|e]; simpl in Hrun.
  - unfold completeSessionWithSummary, new_Date, transaction, sequence, query, mbind,
      M_bind, mret, M_ret, with_db, try_catch in Hrun. simpl in Hrun. rewrite ?Hup in Hrun.
    unfold prisma.session_update, prisma.session_updateMany in Hrun.
    rewrite Hrow in Hrun. simpl in Hrun. rewrite ?Hup in Hrun. rewrite Hrow in Hrun.
    simpl in Hrun. injection Hrun as <- <-. simpl.
    split; [done|]. apply newly_sent_app. simpl. by rewrite <- ?app_assoc.
  - unfold try_catch, query in Hrun. simpl in Hrun. rewrite ?Hup in Hrun.
    unfold prisma.session_updateMany in Hrun. rewrite Hrow in Hrun. simpl in Hrun.
    injection Hrun as <- <-. simpl.
    split; [done|]. apply newly_sent_app. simpl. by rewrite <- ?app_assoc.
Qed.

Lemma stop_of_unknown_session_witness :
  db (handle sample.env session_stop "socket-1" sample.control_payload scenario.lobby).2
  = db scenario.lobby.
Proof.
  destruct (stop_of_unknown_session sample.env "socket-1" sample.control_payload
              (SessionControlSchema.Data sample.S1) scenario.lobby eq_refl
              (λ _, eq_refl) eq_refl) as [Hdb _].
  exact Hdb.
Defined.

(** X12. What the summary model answers is not checked against the shape the
    prompt asks for. When its JSON carries a [summary] that is not a string,
    the summary cannot be stored and finalization fails as a whole: the
    session ends with status ERROR, no summary row is written or changed, the
    room is told ERROR and the sender that finalization failed. *)
Theorem summary_of_wrong_type_fails_finalization (env : Env) (socket : string)
    (payload : JS.value) (data : SessionControlSchema.data) (row : Session)
    (result : SummarizeTranscriptResult) (w : World) :
  SessionControlSchema.safeParse payload = Some data →
  let sessionId := SessionControlSchema.sessionId data in
  let transcript := fullTranscript (prisma.transcriptChunk_findMany sessionId (db w)) in
  (∀ n, connection_fails env n = false) →
  prisma.sessions (db w) !! sessionId = Some row →
  (summarizeTranscript env transcript w).1 = Ok result →
  (∀ text, content result ≠ JS.VStr text) →
  let w' := (handle env session_stop socket payload w).2 in
  Session_status <$> prisma.sessions (db w') !! sessionId = Some ERROR
  ∧ Session_completedAt <$> prisma.sessions (db w') !! sessionId
    = Some (Session_completedAt row)
  ∧ prisma.summaries (db w') = prisma.summaries (db w)
  ∧ prisma.chunks (db w') = prisma.chunks (db w)
  ∧ newly_sent w w'
    = [io_to_emit sessionId (session_status sessionId PROCESSING);
       summary_request (summary_prompt +:+ transcript);
       io_to_emit sessionId (session_status sessionId ERROR);
       socket_emit socket (session_error "Failed to finalize session")].
Proof.
  intros Hdata sessionId transcript Hup Hrow Hsummary Hcontent w'. subst w'.
  destruct (handle env session_stop socket payload w) as [r w'] eqn:Hrun.
  simpl in Hrun. unfold on_session_stop in Hrun. rewrite Hdata in Hrun. fold sessionId in Hrun.
  unfold try_catch, stop_try, stop_catch, updateSessionStatus, mbind, M_bind in Hrun.
  unfold query at 1 in Hrun. rewrite Hup in Hrun.
  unfold prisma.session_updateMany at 1 in Hrun. rewrite Hrow in Hrun.
  unfold mret, M_ret, emit_effect, with_db in Hrun. simpl in Hrun.
  unfold query at 1 in Hrun. rewrite Hup in Hrun. simpl in Hrun.
  set (d1 := prisma.with_sessions (db w) _) in Hrun.
  assert (prisma.transcriptChunk_findMany sessionId d1
          = prisma.transcriptChunk_findMany sessionId (db w)) as Hsame by done.
  rewrite Hsame in Hrun. fold transcript in Hrun.
  rewrite (summarizeTranscript_run env transcript _ w), Hsummary in Hrun.
  unfold completeSessionWithSummary, new_Date, transaction, sequence, query, mbind,
    M_bind, mret, M_ret, with_db, try_catch in Hrun. simpl in Hrun. rewrite ?Hup in Hrun.
  unfold prisma.session_update in Hrun. subst d1. simpl in Hrun.
  rewrite lookup_insert_eq in Hrun. simpl in Hrun. rewrite ?Hup in Hrun.
  assert (∀ k a d now d0,
            prisma.summary_upsert sessionId (content result) k a d now d0
            = (Throw PrismaValidationError, d0)) as Hupsert.
  { intros. unfold prisma.summary_upsert.
    destruct (content result) as [| | |text| |] eqn:Hc; try done. by destruct (Hcontent text). }
  rewrite Hupsert in Hrun. simpl in Hrun. rewrite ?Hup in Hrun.
  unfold prisma.session_updateMany in Hrun. simpl in Hrun.
  rewrite lookup_insert_eq in Hrun. simpl in Hrun.
  injection Hrun as <- <-. simpl. rewrite lookup_insert_eq. simpl.
  repeat split; try done. apply newly_sent_app. simpl. by rewrite <- ?app_assoc.
Qed.

Lemma summary_of_wrong_type_fails_finalization_witness :
  let w' := (handle scenario.env_summary_number session_stop "socket-1"
               sample.control_payload (sample.world sample.hello_world)).2 in
  Session_status <$> prisma.sessions (db w') !! sample.S1 = Some ERROR
  ∧ prisma.summaries (db w') = [].
Proof.
  destruct (summary_of_wrong_type_fails_finalization scenario.env_summary_number
              "socket-1" sample.control_payload (SessionControlSchema.Data sample.S1)
              sample.recording_session
              {| content := JS.VNum (JS.Number 42 0); keyPoints := JS.VNull;
                 actionItems := JS.VNull; decisions := JS.VNull |}
              (sample.world sample.hello_world) eq_refl (λ _, eq_refl))
    as (Hstatus & _ & Hsummaries & _).
  - vm_compute. reflexivity.
  - vm_compute. reflexivity.
  - intros text. discriminate.
  - split; [exact Hstatus|exact Hsummaries].
Defined.

(** ** Reading sessions back *)

(** X13. [listUserSessions] returns the sessions of the user and no other, newest
    first, and writes nothing. *)
Theorem listUserSessions_newest_first (env : Env) (userId : string) (w : World) :
  connection_fails env (tick w) = false →
  ∃ rows,
    (listUserSessions env userId w).1 = Ok rows
    ∧ (∀ row, row ∈ rows ↔
         Session_userId row = userId ∧ ∃ id, prisma.sessions (db w) !! id = Some row)
    ∧ StronglySorted (λ newer older, Session_createdAt older ≤ Session_createdAt newer) rows
    ∧ db (listUserSessions env userId w).2 = db w.
Proof.
  intros Hup. exists (session_findMany userId (db w)).
  unfold listUserSessions, query. rewrite Hup. simpl. split; [done|]. split; [|split; [|done]].
  - intros row. unfold session_findMany. rewrite merge_sort_Permutation.
    rewrite list_elem_of_filter, list_elem_of_fmap. split.
    + intros [Huser ([id row'] & -> & Hin)]. split; [done|].
      exists id. by apply elem_of_map_to_list in Hin.
    + intros [Huser [id Hrow]]. split; [done|]. exists (id, row). split; [done|].
      by apply elem_of_map_to_list.
  - apply (StronglySorted_merge_sort createdAt_ge).
Qed.

Lemma listUserSessions_newest_first_witness :
  ∃ rows,
    (listUserSessions sample.env "u1" (sample.world sample.hello_world)).1 = Ok rows
    ∧ sample.recording_session ∈ rows.
Proof.
  destruct (listUserSessions_newest_first sample.env "u1" (sample.world sample.hello_world)
              eq_refl) as (rows & Hrows & Hin & _).
  exists rows. split; [exact Hrows|]. apply Hin. split; [reflexivity|].
  exists sample.S1. vm_compute. reflexivity.
Defined.






(** ** Rooms *)

Lemma same_rooms_ret {A} (a : A) : same_rooms (mret a : M A).
Proof. by intros w. Qed.

Lemma same_rooms_bind {A B} (m : M A) (f : A → M B) :
  same_rooms m → (∀ a, same_rooms (f a)) → same_rooms (m ≫= f).
Proof.
  intros Hm Hf w. unfold mbind, M_bind. specialize (Hm w).
  destruct (m w) as [[a|e] w1]; simpl in *; [|done]. by rewrite Hf.
Qed.

Lemma same_rooms_try_catch {A} (body handler : M A) :
  same_rooms body → same_rooms handler → same_rooms (try_catch body handler).
Proof.
  intros Hbody Hhandler w. unfold try_catch. specialize (Hbody w).
  destruct (body w) as [[a|e] w1]; simpl in *; [done|]. by rewrite Hhandler.
Qed.

Lemma same_rooms_emit (e : Effect) : same_rooms (emit_effect e).
Proof. by intros w. Qed.

Lemma same_rooms_query {A} (env : Env) (op : Z → prisma.Db → Result A * prisma.Db) :
  same_rooms (query env op).
Proof.
  intros w. unfold query. destruct (connection_fails env (tick w)); [done|].
  by destruct (op _ _).
Qed.

Lemma same_rooms_updateSessionStatus (env : Env) (sessionId : string)
    (status : SessionStatus) :
  same_rooms (updateSessionStatus env sessionId status).
Proof. apply same_rooms_bind; [apply same_rooms_query|intros; apply same_rooms_ret]. Qed.

Lemma same_rooms_control (env : Env) (socket sessionId message : string)
    (status : SessionStatus) :
  same_rooms
    (try_catch
       (updateSessionStatus env sessionId status;;
        emit_effect (io_to_emit sessionId (session_status sessionId status)))
       (emit_effect (socket_emit socket (session_error message)))).
Proof.
  apply same_rooms_try_catch; [|apply same_rooms_emit].
  apply same_rooms_bind; [apply same_rooms_updateSessionStatus|].
  intros _. apply same_rooms_emit.
Qed.

Lemma same_rooms_transaction (env : Env) (ops : list (M unit)) :
  Forall same_rooms ops → same_rooms (transaction env ops).
Proof.
  intros Hops w. unfold transaction.
  assert (same_rooms (sequence ops;; query env (λ _ d, (Ok (), d)))) as Hseq.
  { apply same_rooms_bind; [|intros _; apply same_rooms_query].
    induction Hops as [|op ops Hop _ IH]; simpl; [apply same_rooms_ret|].
    apply same_rooms_bind; [done|]. by intros _. }
  specialize (Hseq w).
  by destruct ((sequence ops;; query env (λ _ d, (Ok (), d))) w) as [[[]|e] w1].
Qed.

Lemma same_rooms_completeSessionWithSummary (env : Env) (sessionId : string)
    (summaryContent keyPoints actionItems decisions : JS.value)
    (status : option SessionStatus) :
  same_rooms (completeSessionWithSummary env sessionId summaryContent keyPoints actionItems
                decisions status).
Proof.
  unfold completeSessionWithSummary.
  apply same_rooms_bind; [by intros w|intros completedAt].
  apply same_rooms_bind; [|intros _; apply same_rooms_query].
  apply same_rooms_transaction.
  apply Forall_cons_2; [|apply Forall_cons_2; [|apply Forall_nil_2]].
  - apply same_rooms_bind; [apply same_rooms_query|intros; apply same_rooms_ret].
  - apply same_rooms_query.
Qed.

(** X15. A socket is in the room of a session only for having created it: the
    one way into a room is a [session:start] that creates the session, and
    it puts the sender in the room of that session; no handler lets a socket
    join the room of a session that exists already, and none takes a socket
    out of a room. *)
Theorem rooms_change_only_on_creation (env : Env) (event : Inbound) (socket : string)
    (payload : JS.value) (w : World) (room member : string) :
  let w' := (handle env event socket payload w).2 in
  member ∈ default ∅ (rooms w' !! room)
  ↔ member ∈ default ∅ (rooms w !! room)
    ∨ (event = session_start ∧ member = socket
       ∧ JS.get payload "sessionId" = Some (JS.VStr room)
       ∧ prisma.sessions (db w) !! room = None
       ∧ is_Some (prisma.sessions (db w') !! room)).
Proof.
  intros w'.
  assert (event ≠ session_start → rooms w' = rooms w) as Hsame.
  { intros Hevent. subst w'. destruct event; try done; simpl.
    - unfold on_session_audioChunk. destruct (AudioChunkSchema.safeParse payload); [|done].
      apply same_rooms_try_catch; [|apply same_rooms_emit].
      unfold audioChunk_try, transcribeChunk.
      apply same_rooms_bind; [|intros text].
      { apply same_rooms_bind; [by intros w0|intros; apply same_rooms_ret]. }
      destruct (String.eqb text ""); [apply same_rooms_ret|].
      apply same_rooms_bind; [apply same_rooms_query|intros; apply same_rooms_emit].
    - unfold on_session_pause. destruct (SessionControlSchema.safeParse payload); [|done].
      apply same_rooms_control.
    - unfold on_session_resume. destruct (SessionControlSchema.safeParse payload); [|done].
      apply same_rooms_control.
    - unfold on_session_stop. destruct (SessionControlSchema.safeParse payload); [|done].
      apply same_rooms_try_catch.
      + unfold stop_try.
        apply same_rooms_bind; [apply same_rooms_updateSessionStatus|intros _].
        apply same_rooms_bind; [apply same_rooms_emit|intros _].
        apply same_rooms_bind; [apply same_rooms_query|intros stored].
        apply same_rooms_bind; [|intros result].
        { intros w0. by rewrite (summarizeTranscript_run env _ w0 w0). }
        apply same_rooms_bind; [apply same_rooms_completeSessionWithSummary|].
        intros; apply same_rooms_emit.
      + unfold stop_catch.
        apply same_rooms_bind; [|intros _].
        { apply same_rooms_try_catch;
            [apply same_rooms_updateSessionStatus|apply same_rooms_ret]. }
        apply same_rooms_bind; [apply same_rooms_emit|intros; apply same_rooms_emit]. }
  destruct event;
    try (rewrite Hsame by done; split; [by left|]; by intros [?|[? _]]).
  clear Hsame. subst w'. simpl. unfold on_session_start.
  destruct (SessionStartSchema.safeParse payload) as [data|] eqn:Hdata.
  2:{ simpl. split; [by left|]. intros [?|(_ & _ & _ & Hnone & Hsession)]; [done|].
      rewrite Hnone in Hsession. by destruct Hsession. }
  pose proof (SessionStartSchema_sessionId _ _ Hdata) as [Hid Huuid].
  set (sessionId := SessionStartSchema.sessionId data) in *.
  assert (Hsome : match sessionId with EmptyString => None | _ => Some sessionId end
                  = Some sessionId) by by destruct sessionId.
  unfold try_catch, createSession, query, mbind, M_bind. rewrite Hsome.
  unfold prisma.session_create. simpl.
  destruct (connection_fails env (tick w)) eqn:Hfails; simpl.
  { split; [by left|]. intros [?|(_ & _ & Hroom & Hnone & Hsession)]; [done|].
    rewrite Hnone in Hsession. by destruct Hsession. }
  destruct (negb _); simpl.
  { split; [by left|]. intros [?|(_ & _ & Hroom & Hnone & Hsession)]; [done|].
    rewrite Hnone in Hsession. by destruct Hsession. }
  destruct (prisma.sessions (db w) !! sessionId) as [row|] eqn:Hrow.
  { rewrite bool_decide_eq_true_2 by by exists row. simpl.
    split; [by left|]. intros [?|(_ & _ & Hroom & Hnone & Hsession)]; [done|].
    rewrite Hnone in Hsession. by destruct Hsession. }
  rewrite bool_decide_eq_false_2 by by intros [? ?].
  destruct (decide (SessionStartSchema.userId data ∈ prisma.users (db w))) as [Huser|Huser].
  - rewrite (bool_decide_eq_true_2 _ Huser). simpl.
    destruct (decide (room = sessionId)) as [->|Hroom].
    + rewrite lookup_insert_eq. simpl. rewrite elem_of_union, elem_of_singleton.
      split.
      * intros [->|?]; [right|by left]. repeat split; try done.
        rewrite lookup_insert_eq. by eexists.
      * intros [?|(_ & -> & _)]; [by right|by left].
    + rewrite lookup_insert_ne by done. split; [by left|].
      intros [?|(_ & _ & Hroom' & _)]; [done|]. congruence.
  - rewrite (bool_decide_eq_false_2 _ Huser). simpl.
    split; [by left|]. intros [?|(_ & _ & Hroom & Hnone & Hsession)]; [done|].
    rewrite Hnone in Hsession. by destruct Hsession.
Qed.

(** ** The recorder machine, state by state *)

Lemma transition_coherent (previous : option recorderMachine.State)
    (current next : recorderMachine.State * recorderMachine.RecorderContext)
    (event : recorderMachine.RecorderEvent) :
  coherent previous current →
  recorderMachine.transition current event = Some next →
  coherent (match recorderMachine.on (fst current) event with
            | Some _ => Some (fst current)
            | None => previous
            end) next.
Proof.
  destruct current as [state c]. unfold recorderMachine.transition, coherent. simpl.
  destruct state, event; simpl; intros Hc [= <-]; simpl; try exact Hc;
    try (destruct Hc as (? & ? & ?); by repeat split).
  - destruct Hc as (Hid & _ & _). destruct message as [|a message]; simpl.
    + split; [done|]. split; [|done]. eexists; by split.
    + split; [done|]. split; [|done]. eexists; by split.
  - destruct Hc as (Hid & _ & _). destruct message as [|a message]; simpl.
    + split; [done|]. split; [|done]. eexists; by split.
    + split; [done|]. split; [|done]. eexists; by split.
Qed.

(** X16. Whatever events the machine is sent, its context agrees with its state:
    the status message is the one of the state, an error message is set
    exactly in [error], where it is not empty, and the session is known in
    every state but [idle], where it is known exactly when the machine has
    left [idle] before. The status message of [idle] is Completed exactly
    when [idle] was entered from [completed] (by RESET, a transition without
    action), and Idle otherwise: at the start and after RESET from [error]. *)
Theorem recorder_context_agrees_with_state (events : list recorderMachine.RecorderEvent) :
  coherent (fst (recorder_history events)) (recorder_run events).
Proof.
  unfold recorder_run, recorder_history.
  assert (Hinitial : coherent None (recorderMachine.initial, recorderMachine.context)).
  { split; [|done]. split; intros [? ?]; done. }
  revert Hinitial.
  generalize (@None recorderMachine.State)
    (recorderMachine.initial, recorderMachine.context).
  induction events as [|event events IH]; intros previous current Hcurrent; [done|].
  simpl. apply IH.
  destruct (recorderMachine.transition current event) as [next|] eqn:Hnext.
  - simpl. by eapply transition_coherent.
  - unfold recorderMachine.transition in Hnext.
    by destruct (recorderMachine.on (fst current) event) as [[]|].
Qed.

Example idle_says_Completed :
  recorder_run [recorderMachine.START "s" recorderMachine.MIC; recorderMachine.STOP;
                recorderMachine.COMPLETED; recorderMachine.RESET]
  = (recorderMachine.idle,
     {| recorderMachine.sessionId := Some "s"; recorderMachine.sourceType := recorderMachine.MIC;
        recorderMachine.statusMessage := "Completed";
        recorderMachine.errorMessage := None |}).
Proof. reflexivity. Qed.

(** ** The recorder and the server *)

Lemma send_completed (event : recorderMachine.RecorderEvent) (c : Recorder.Client) :
  fst (Recorder.state (Recorder.send event c)) = recorderMachine.completed →
  fst (Recorder.state c) = recorderMachine.completed
  ∨ event = recorderMachine.COMPLETED.
Proof.
  unfold Recorder.send, recorderMachine.transition.
  destruct (Recorder.state c) as [state ctx]. simpl.
  destruct state, event; simpl; intros H; try discriminate H; auto.
Qed.

Lemma on_completed (event : Emitted) (c : Recorder.Client) :
  fst (Recorder.state (Recorder.on event c)) = recorderMachine.completed →
  fst (Recorder.state c) = recorderMachine.completed
  ∨ ∃ sessionId, event = session_status sessionId COMPLETED.
Proof.
  destruct event as [message|sessionId status| |]; simpl; auto.
  - intros H. by apply send_completed in H as [?|?]; [left|].
  - unfold Recorder.handleStatus.
    destruct status; simpl; eauto; intros H; by apply send_completed in H as [?|?]; [left|].
Qed.

Lemma received_by_scoped (event : Inbound) (socket : string) (payload : JS.value)
    (rooms : gmap string (gset string)) (client : string) (effects : list Effect) :
  Forall (scoped event socket payload) effects →
  Forall (λ e, ∀ sessionId, e ≠ session_status sessionId COMPLETED)
    (received_by rooms client effects).
Proof.
  induction 1 as [|effect effects Heffect _ IH]; [constructor|].
  unfold received_by. simpl. fold (received_by rooms client effects).
  destruct effect as [s e|room e| |]; simpl; try done.
  - destruct (decide (s = client)); [|done]. constructor; [|done].
    by destruct e.
  - destruct (decide _); [|done]. constructor; [|done].
    destruct Heffect as (_ & _ & Hbroadcast). intros sessionId ->.
    by destruct event.
Qed.

(** X17. No recorder ever reaches [completed] through the server. Whatever a
    handler sends, to whatever socket: a recorder that is not in [completed]
    is not in [completed] after the events that reach it, since no handler
    broadcasts the status COMPLETED, the only event on which the component
    sends COMPLETED to its machine. *)
Theorem recorder_never_completes (env : Env) (event : Inbound) (socket : string)
    (payload : JS.value) (w : World) (client : string) (c : Recorder.Client) :
  fst (Recorder.state c) ≠ recorderMachine.completed →
  let w' := (handle env event socket payload w).2 in
  let c' := deliver (received_by (rooms w') client (newly_sent w w')) c in
  fst (Recorder.state c') ≠ recorderMachine.completed.
Proof.
  intros Hc w' c'. subst c'. revert Hc.
  assert (Forall (λ e, ∀ sessionId, e ≠ session_status sessionId COMPLETED)
            (received_by (rooms w') client (newly_sent w w'))) as Hreceived.
  { eapply received_by_scoped. destruct (handle env event socket payload w) as [r w1] eqn:Hrun.
    exact (sends_newly_sent _ _ _ _ _ (sends_handle env event socket payload) Hrun). }
  revert c. induction Hreceived as [|e events He _ IH]; intros c Hc; [done|].
  unfold deliver. simpl. apply IH. intros H.
  apply on_completed in H as [H|[sessionId ->]]; [done|]. by destruct (He sessionId).
Qed.

Lemma recorder_never_completes_witness :
  let w := sample.world sample.hello_world in
  let w' := (handle sample.env session_stop "socket-1" sample.control_payload w).2 in
  fst (Recorder.state scenario.processing) = recorderMachine.processing
  ∧ fst (Recorder.state
           (deliver (received_by (rooms w') "socket-1" (newly_sent w w'))
              scenario.processing))
    ≠ recorderMachine.completed.
Proof.
  split; [reflexivity|].
  apply (recorder_never_completes sample.env session_stop "socket-1" sample.control_payload
           (sample.world sample.hello_world) "socket-1" scenario.processing).
  discriminate.
Defined.

(** X18. A finalization that succeeds (the database answers, the session
    exists, the summary model answers with a text the database can store, a
    well-formed string without U+0000) leaves the recorder that asked for it
    behind:
    having sent STOP the recorder is in [processing]; the events of the
    finalization reach it, it takes the summary from the completed
    session it is sent, and it stays in [processing], where its summary
    panel shows the notice that the summary is being generated, not the
    summary. *)
Theorem finalized_but_still_processing (env : Env) (socket : string) (payload : JS.value)
    (data : SessionControlSchema.data) (row : Session)
    (result : SummarizeTranscriptResult) (text : string) (w : World)
    (client : string) (c : Recorder.Client) :
  SessionControlSchema.safeParse payload = Some data →
  let sessionId := SessionControlSchema.sessionId data in
  let transcript := fullTranscript (prisma.transcriptChunk_findMany sessionId (db w)) in
  (∀ n, connection_fails env n = false) →
  prisma.sessions (db w) !! sessionId = Some row →
  (summarizeTranscript env transcript w).1 = Ok result →
  content result = JS.VStr text →
  prisma.fits_TEXT text = true →
  client ∈ default ∅ (rooms w !! sessionId) →
  fst (Recorder.state c) = recorderMachine.processing →
  let w' := (handle env session_stop socket payload w).2 in
  let c' := deliver (received_by (rooms w') client (newly_sent w w')) c in
  ∃ completed,
    prisma.session_findUniqueOrThrow sessionId (db w') = Ok completed
    ∧ Session_status (session completed) = COMPLETED
    ∧ Recorder.summaryText c' = Summary_content <$> summary completed
    ∧ Recorder.state c' = Recorder.state c
    ∧ Recorder.summaryPanel c' = Recorder.generating_summary.
Proof.
  intros Hdata sessionId transcript Hup Hrow Hsummary Hcontent Htext Hclient Hstate w' c'.
  assert (prisma.fits_TEXT sessionId = true) as Hid
    by (apply uuid_fits; exact (proj2 (SessionControlSchema_sessionId _ _ Hdata))).
  destruct (stop_try_succeeds env sessionId text row result w Hup Hrow Hid Htext Hsummary
              Hcontent)
    as (w1 & completed & Hrun & Hfind & Hrooms & Hsent).
  assert (w' = w1) as Hw'.
  { subst w'. simpl. unfold on_session_stop. rewrite Hdata. fold sessionId.
    unfold try_catch. by rewrite Hrun. }
  exists completed. rewrite Hw'. split; [exact Hfind|].
  destruct (stop_try_Ok env sessionId w w1 Hrun) as (result' & wa & _ & _ & _ & Hboth).
  apply both_written_observed in Hboth as [(row' & Hrow' & Hstatus & _) _].
  split.
  { unfold prisma.session_findUniqueOrThrow in Hfind. rewrite Hrow' in Hfind.
    by injection Hfind as <-. }
  subst c'. rewrite Hw', (newly_sent_app w w1 _ Hsent), Hrooms.
  unfold received_by. simpl. rewrite !decide_True by done. unfold deliver. simpl.
  unfold Recorder.handleStatus. simpl.
  assert (Recorder.send recorderMachine.PROCESSING c = c) as ->.
  { unfold Recorder.send, recorderMachine.transition. destruct c as [[state ctx] ? ?].
    simpl in *. by subst state. }
  unfold Recorder.summaryPanel, Recorder.isProcessing. simpl. by rewrite Hstate.
Qed.

Lemma finalized_but_still_processing_witness :
  let w := sample.world sample.hello_world in
  let w' := (handle sample.env session_stop "socket-1" sample.control_payload w).2 in
  let c' := deliver (received_by (rooms w') "socket-1" (newly_sent w w'))
              scenario.processing in
  Recorder.summaryPanel c' = Recorder.generating_summary.
Proof.
  destruct (finalized_but_still_processing sample.env "socket-1" sample.control_payload
              (SessionControlSchema.Data sample.S1) sample.recording_session
              {| content := JS.VStr "not json"; keyPoints := JS.VNull;
                 actionItems := JS.VNull; decisions := JS.VNull |}
              "not json" (sample.world sample.hello_world) "socket-1" scenario.processing
              eq_refl (λ _, eq_refl))
    as (completed & _ & _ & _ & _ & Hpanel).
  - vm_compute. reflexivity.
  - vm_compute. reflexivity.
  - reflexivity.
  - reflexivity.
  - apply (bool_decide_unpack _). vm_compute. exact I.
  - reflexivity.
  - exact Hpanel.
Defined.

(** X19. A chunk whose transcription fails ends the recording as the recorder
    sees it: the error event the handler sends to the socket takes a
    recorder that is recording into [error], with the message of the server,
    while the server keeps accepting the chunks of the session. *)
Theorem failed_chunk_stops_the_recorder (env : Env) (socket : string) (payload : JS.value)
    (data : AudioChunkSchema.data) (e : Error) (w : World) (c : Recorder.Client) :
  AudioChunkSchema.safeParse payload = Some data →
  transcribeModel env (Buffer_from_base64 env (AudioChunkSchema.audioBase64 data))
    (AudioChunkSchema.mimeType data) = Throw e →
  fst (Recorder.state c) = recorderMachine.recording →
  let w' := (handle env session_audioChunk socket payload w).2 in
  let c' := deliver (received_by (rooms w') socket (newly_sent w w')) c in
  fst (Recorder.state c') = recorderMachine.error
  ∧ recorderMachine.errorMessage (snd (Recorder.state c'))
    = Some "Failed to process audio chunk"
  ∧ recorderMachine.statusMessage (snd (Recorder.state c')) = "Error".
Proof.
  intros Hdata Hmodel Hstate w' c'. subst c' w'. simpl.
  unfold on_session_audioChunk. rewrite Hdata.
  unfold try_catch, audioChunk_try, transcribeChunk, mbind, M_bind,
    transcribe_generateContent. rewrite Hmodel. simpl.
  rewrite (newly_sent_app w _ [_; _]) by (simpl; by rewrite <- app_assoc).
  unfold received_by. simpl. rewrite decide_True by done. unfold deliver. simpl.
  unfold Recorder.handleError, Recorder.send, recorderMachine.transition.
  destruct c as [[state ctx] ? ?]. simpl in *. subst state. simpl. done.
Qed.

Lemma failed_chunk_stops_the_recorder_witness :
  let w := sample.world sample.hello_world in
  let w' := (handle sample.env session_audioChunk "socket-1"
               (sample.audioChunk_payload 2 "boom") w).2 in
  fst (Recorder.state
         (deliver (received_by (rooms w') "socket-1" (newly_sent w w')) scenario.recording))
  = recorderMachine.error.
Proof.
  destruct (failed_chunk_stops_the_recorder sample.env "socket-1"
              (sample.audioChunk_payload 2 "boom")
              (AudioChunkSchema.Data sample.S1 2 "boom" "audio/webm" 0 10) GeminiError
              (sample.world sample.hello_world) scenario.recording eq_refl eq_refl eq_refl)
    as [Hstate _].
  exact Hstate.
Defined.

(** ** The live transcript *)

Lemma array_set_length {A} (i : nat) (x : A) (l : list (option A)) :
  length (Recorder.array_set i x l) = (length l `max` S i)%nat.
Proof.
  unfold Recorder.array_set. destruct (decide (i < length l)%nat).
  - rewrite length_insert. lia.
  - rewrite !length_app, length_replicate. simpl. lia.
Qed.

Lemma array_set_lookup_eq {A} (i : nat) (x : A) (l : list (option A)) :
  Recorder.array_set i x l !! i = Some (Some x).
Proof.
  unfold Recorder.array_set. destruct (decide (i < length l)%nat).
  - by apply list_lookup_insert_eq.
  - rewrite lookup_app_r by lia. rewrite lookup_app_r by (rewrite length_replicate; lia).
    rewrite length_replicate. by replace (i - length l - (i - length l))%nat with 0%nat by lia.
Qed.

Lemma array_set_lookup_ne {A} (i k : nat) (x : A) (l : list (option A)) :
  k ≠ i → (k < length l)%nat → Recorder.array_set i x l !! k = l !! k.
Proof.
  intros Hne Hlt. unfold Recorder.array_set. destruct (decide (i < length l)%nat).
  - by apply list_lookup_insert_ne.
  - by apply lookup_app_l.
Qed.

Lemma deliver_partials (arrived : list TranscriptChunk) (c : Recorder.Client) :
  Recorder.transcriptChunks (deliver (partial_of <$> arrived) c)
  = foldl (λ l row, Recorder.array_set (slot_of row) (shown_of row) l)
      (Recorder.transcriptChunks c) arrived.
Proof.
  revert c. induction arrived as [|row arrived IH]; intros c; [done|].
  unfold deliver in *. simpl. by rewrite IH.
Qed.

Lemma slots_filled (arrived : list TranscriptChunk) :
  NoDup (slot_of <$> arrived) →
  let l := foldl (λ l row, Recorder.array_set (slot_of row) (shown_of row) l) [] arrived in
  (∀ row, row ∈ arrived → l !! slot_of row = Some (Some (shown_of row)))
  ∧ (∀ k, (k < length l)%nat → ∃ row, row ∈ arrived ∧ (k ≤ slot_of row)%nat).
Proof.
  induction arrived as [|row arrived IH] using rev_ind; intros Hnodup l.
  { split; [by intros row Hrow; inv Hrow|]. simpl. lia. }
  subst l. rewrite foldl_app. simpl.
  rewrite fmap_app in Hnodup. apply NoDup_app in Hnodup as (Hnodup & Hfresh & _).
  destruct (IH Hnodup) as [Hfilled Hlength]. split.
  - intros row' [Hrow'|Hrow']%elem_of_app.
    + rewrite array_set_lookup_ne; [by apply Hfilled| |].
      * intros Heq. apply (Hfresh (slot_of row')); [by apply list_elem_of_fmap_2|].
        rewrite Heq. apply list_elem_of_fmap_2. by left.
      * apply lookup_lt_is_Some. rewrite (Hfilled _ Hrow'). by eexists.
    + apply list_elem_of_singleton in Hrow' as ->. apply array_set_lookup_eq.
  - intros k. rewrite array_set_length. intros Hk.
    destruct (decide (k < length
                (foldl (λ l row, Recorder.array_set (slot_of row) (shown_of row) l) []
                   arrived))%nat) as [Hlt|Hge].
    + destruct (Hlength k Hlt) as (row' & Hrow' & Hle). exists row'.
      split; [|done]. apply elem_of_app. by left.
    + exists row. split; [|lia]. apply elem_of_app. right. by left.
Qed.

Lemma StronglySorted_seq (start n : nat) :
  StronglySorted Z.le (Z.of_nat <$> seq start n).
Proof.
  revert start. induction n as [|n IH]; intros start; simpl; constructor; [apply IH|].
  apply Forall_fmap, Forall_forall. intros k Hk%elem_of_seq. simpl. lia.
Qed.

(** X20. The live transcript is the stored one. Once the events of the stored
    chunks of a session have reached a recorder whose live transcript was
    empty, in whatever order they came, the text the recorder shows is the
    transcript the summary is made from, provided the chunks are numbered
    0, 1, 2, ... without gap or repetition. *)
Theorem live_transcript_is_the_stored_one (sessionId : string) (d : prisma.Db)
    (arrived : list TranscriptChunk) (c : Recorder.Client) :
  Recorder.transcriptChunks c = [] →
  arrived ≡ₚ prisma.chunks_of sessionId (prisma.chunks d) →
  Chunk_index <$> arrived ≡ₚ Z.of_nat <$> seq 0 (length arrived) →
  Recorder.transcriptText (deliver (partial_of <$> arrived) c)
  = fullTranscript (prisma.transcriptChunk_findMany sessionId d).
Proof.
  intros Hempty Harrived Hindices.
  set (stored := prisma.transcriptChunk_findMany sessionId d).
  assert (Hperm : stored ≡ₚ arrived).
  { subst stored. by rewrite findMany_Permutation. }
  assert (Hsorted : Chunk_index <$> stored = Z.of_nat <$> seq 0 (length arrived)).
  { apply (StronglySorted_unique Z.le).
    - eapply StronglySorted_fmap; [|apply findMany_sorted]. intros x y Hxy. exact Hxy.
    - apply StronglySorted_seq.
    - by rewrite Hperm. }
  assert (Hnodup : NoDup (slot_of <$> arrived)).
  { unfold slot_of. rewrite (list_fmap_compose Chunk_index Z.to_nat), Hindices.
    rewrite <- list_fmap_compose.
    erewrite (list_fmap_ext _ id); [|intros ? ? _; simpl; lia].
    rewrite list_fmap_id. apply NoDup_seq. }
  destruct (slots_filled arrived Hnodup) as [Hfilled Hlength].
  assert (Hslots : Recorder.transcriptChunks (deliver (partial_of <$> arrived) c)
                   = (Some ∘ shown_of) <$> stored).
  { rewrite deliver_partials, Hempty. apply list_eq. intros k.
    rewrite list_lookup_fmap.
    destruct (stored !! k) as [row|] eqn:Hrow; simpl.
    - assert (Chunk_index row = Z.of_nat k) as Hk.
      { assert ((Chunk_index <$> stored) !! k = Some (Chunk_index row)) as H
          by by rewrite list_lookup_fmap, Hrow.
        rewrite Hsorted, list_lookup_fmap in H.
        destruct (seq 0 (length arrived) !! k) as [k'|] eqn:Hseq; [|done].
        apply lookup_seq in Hseq as [-> _]. simpl in H. by injection H as <-. }
      assert (row ∈ arrived) as Hin.
      { rewrite <- Hperm. by eapply list_elem_of_lookup_2. }
      rewrite <- (Hfilled row Hin). unfold slot_of. rewrite Hk. by rewrite Nat2Z.id.
    - apply lookup_ge_None in Hrow. apply lookup_ge_None.
      apply Nat.le_ngt. intros Hlt. destruct (Hlength k Hlt) as (row & Hin & Hle).
      assert (Chunk_index row ∈ Z.of_nat <$> seq 0 (length arrived)) as Hrange.
      { rewrite <- Hindices. by apply list_elem_of_fmap_2. }
      apply list_elem_of_fmap in Hrange as (k' & Hk' & Hseq%elem_of_seq).
      unfold slot_of in Hle. rewrite Hk', Nat2Z.id in Hle.
      rewrite (Permutation_length Hperm) in Hrow. lia. }
  unfold Recorder.transcriptText. rewrite Hslots. unfold fullTranscript.
  by rewrite <- list_fmap_compose.
Qed.

Lemma live_transcript_is_the_stored_one_witness :
  Recorder.transcriptText
    (deliver (partial_of <$> [sample.chunk "c0" 1 "world"; sample.chunk "c1" 0 "hello"])
       Recorder.initial)
  = fullTranscript (prisma.transcriptChunk_findMany sample.S1 sample.world_hello).
Proof.
  apply live_transcript_is_the_stored_one; [reflexivity|reflexivity|].
  simpl. apply perm_swap.
Defined.

Example live_transcript_with_a_gap :
  Recorder.transcriptText
    (deliver [session_partialTranscript "s" 2 "world" 20 30;
              session_partialTranscript "s" 0 "hello" 0 10] Recorder.initial)
  = "hello  world".
Proof. reflexivity. Qed.

(** ** Every event is answered *)

Lemma answered_emit (e : Effect) (w w' : World) (r : Result unit) :
  is_event e = true → emit_effect e w = (r, w') → answered w w'.
Proof. intros He [= <- <-]. by exists [], e. Qed.

Lemma answered_after (w w1 w' : World) (new : list Effect) :
  sent w1 = sent w ++ new → answered w1 w' → answered w w'.
Proof.
  intros Hnew (rest & e & Hsent & He). exists (new ++ rest), e.
  split; [|done]. by rewrite Hsent, Hnew, <- !app_assoc.
Qed.

Lemma answered_then {A} (m : M A) (f : A → M unit) (w w' : World) :
  sends (λ _, True) m →
  (∀ a w1 w2, f a w1 = (Ok (), w2) → answered w1 w2) →
  (m ≫= f) w = (Ok (), w') → answered w w'.
Proof.
  intros Hm Hf Hrun. apply bind_Ok_inv in Hrun as (a & w1 & Hrun1 & Hrun2).
  destruct (Hm _ _ _ Hrun1) as (new & Hnew & _).
  eapply answered_after; [exact Hnew|]. by eapply Hf.
Qed.

Lemma answered_try_catch (body handler : M unit) (w w' : World) (r : Result unit) :
  sends (λ _, True) body →
  (∀ w1, body w = (Ok (), w1) → answered w w1) →
  (∀ w1 w2 r, handler w1 = (r, w2) → answered w1 w2) →
  try_catch body handler w = (r, w') → answered w w'.
Proof.
  intros Hsends Hbody Hhandler. unfold try_catch.
  destruct (body w) as [[[]|e] w1] eqn:Hrun.
  - intros [= <- <-]. by apply Hbody.
  - intros Hcatch. destruct (Hsends _ _ _ Hrun) as (new & Hnew & _).
    eapply answered_after; [exact Hnew|]. by eapply Hhandler.
Qed.

Lemma sends_summarizeTranscript (P : Effect → Prop) (env : Env) (transcript : string) :
  P (summary_request (summary_prompt +:+ transcript)) →
  sends P (summarizeTranscript env transcript).
Proof.
  intros HP w r w' Hrun. rewrite (summarizeTranscript_run env transcript w w) in Hrun.
  injection Hrun as <- <-. eexists [_]. split; [done|]. by apply Forall_singleton.
Qed.

Lemma sends_control (P : Effect → Prop) (env : Env) (sessionId : string)
    (status : SessionStatus) :
  P (io_to_emit sessionId (session_status sessionId status)) →
  sends P (updateSessionStatus env sessionId status;;
           emit_effect (io_to_emit sessionId (session_status sessionId status))).
Proof.
  intros HP. apply sends_bind; [apply sends_updateSessionStatus|]. intros _.
  by apply sends_emit.
Qed.

Lemma answered_control (env : Env) (socket sessionId message : string)
    (status : SessionStatus) (w w' : World) (r : Result unit) :
  try_catch
    (updateSessionStatus env sessionId status;;
     emit_effect (io_to_emit sessionId (session_status sessionId status)))
    (emit_effect (socket_emit socket (session_error message))) w = (r, w') →
  answered w w'.
Proof.
  apply answered_try_catch.
  - by apply sends_control.
  - intros w1. apply answered_then; [apply sends_updateSessionStatus|].
    intros _ ? ?. by apply answered_emit.
  - intros ? ? ?. by apply answered_emit.
Qed.

(** X21. No event goes unanswered, one case apart. Whatever happens, the last
    thing a handler does is to emit an event, to the room of the session or
    to the sender; the exception is an audio chunk that the model transcribes
    to nothing but white space, which is dropped without a word. *)
Theorem every_event_is_answered (env : Env) (event : Inbound) (socket : string)
    (payload : JS.value) (w : World) :
  let w' := (handle env event socket payload w).2 in
  answered w w'
  ∨ (event = session_audioChunk
     ∧ ∃ data text,
         AudioChunkSchema.safeParse payload = Some data
         ∧ transcribeModel env (Buffer_from_base64 env (AudioChunkSchema.audioBase64 data))
             (AudioChunkSchema.mimeType data) = Ok text
         ∧ JS.trim text = ""
         ∧ newly_sent w w'
           = [transcribe_request
                (Buffer_from_base64 env (AudioChunkSchema.audioBase64 data))
                (AudioChunkSchema.mimeType data)]).
Proof.
  intros w'. subst w'.
  destruct (handle env event socket payload w) as [r w'] eqn:Hrun. simpl.
  destruct event; simpl in Hrun.
  - left. unfold on_session_start in Hrun.
    destruct (SessionStartSchema.safeParse payload) as [data|];
      [|by apply answered_emit in Hrun].
    revert Hrun. apply answered_try_catch.
    + apply sends_bind; [apply sends_query|intros _].
      apply sends_bind; [apply sends_nothing; by intros ??? [= <- <-]|intros _].
      by apply sends_emit.
    + intros w1. apply answered_then; [apply sends_query|]. intros _ w2 w3.
      apply answered_then; [apply sends_nothing; by intros ??? [= <- <-]|].
      intros _ ? ?. by apply answered_emit.
    + intros ? ? ?. by apply answered_emit.
  - unfold on_session_audioChunk in Hrun.
    destruct (AudioChunkSchema.safeParse payload) as [data|] eqn:Hdata;
      [|left; by apply answered_emit in Hrun].
    unfold try_catch, audioChunk_try, transcribeChunk, mbind, M_bind,
      transcribe_generateContent, mret, M_ret in Hrun.
    destruct (transcribeModel env _ _) as [text|e] eqn:Hmodel.
    2:{ left. injection Hrun as <- <-. simpl. eexists [_], _.
        split; [by rewrite <- app_assoc|done]. }
    destruct (String.eqb (JS.trim text) "") eqn:Hblank.
    { right. split; [done|]. exists data, text. apply String.eqb_eq in Hblank.
      injection Hrun as <- <-. repeat split; try done. by apply newly_sent_app. }
    left. unfold appendTranscriptChunk, query, emit_effect in Hrun. simpl in Hrun.
    destruct (connection_fails env (tick w)).
    { injection Hrun as <- <-. simpl. eexists [_], _.
      split; [by rewrite <- app_assoc|done]. }
    destruct (prisma.transcriptChunk_create _ _ _ _ _ _ _) as [[row|e] d];
      simpl in Hrun; injection Hrun as <- <-; simpl; eexists [_], _;
      (split; [by rewrite <- app_assoc|done]).
  - left. unfold on_session_pause in Hrun.
    destruct (SessionControlSchema.safeParse payload) as [data|];
      [by eapply answered_control|by apply answered_emit in Hrun].
  - left. unfold on_session_resume in Hrun.
    destruct (SessionControlSchema.safeParse payload) as [data|];
      [by eapply answered_control|by apply answered_emit in Hrun].
  - left. unfold on_session_stop in Hrun.
    destruct (SessionControlSchema.safeParse payload) as [data|];
      [|by apply answered_emit in Hrun].
    set (sessionId := SessionControlSchema.sessionId data) in *.
    assert (Hsummary : ∀ stored, sends (λ _, True)
                         (summarizeTranscript env (fullTranscript stored)))
      by (intros; by apply sends_summarizeTranscript).
    revert Hrun. apply answered_try_catch.
    + unfold stop_try.
      apply sends_bind; [apply sends_updateSessionStatus|intros _].
      apply sends_bind; [by apply sends_emit|intros _].
      apply sends_bind; [apply sends_query|intros stored].
      apply sends_bind; [apply Hsummary|intros result].
      apply sends_bind; [apply sends_completeSessionWithSummary|intros completed].
      by apply sends_emit.
    + intros w1. unfold stop_try.
      apply answered_then; [apply sends_updateSessionStatus|intros _ wa wb].
      apply answered_then; [by apply sends_emit|intros _ wc wd].
      apply answered_then; [apply sends_query|intros stored we wf].
      apply answered_then; [apply Hsummary|intros result wg wh].
      apply answered_then; [apply sends_completeSessionWithSummary|intros completed wi wj].
      by apply answered_emit.
    + intros w1 w2 r'. unfold stop_catch, mbind, M_bind, try_catch.
      destruct (updateSessionStatus env sessionId ERROR w1) as [[[]|e] w3] eqn:Hstatus;
        destruct (sends_updateSessionStatus (λ _, True) env sessionId ERROR _ _ _ Hstatus)
          as (new & Hnew & _);
        simpl; intros [= <- <-]; simpl; eexists (new ++ [_]), _;
        (split; [by rewrite Hnew, <- !app_assoc|done]).
Qed.

(** ** The sender plays no part *)

Lemma alike_ret {A} (a : A) : alike (mret a : M A) (mret a).
Proof. by intros w1 w2 H. Qed.

Lemma alike_bind {A B} (m1 m2 : M A) (f1 f2 : A → M B) :
  alike m1 m2 → (∀ a, alike (f1 a) (f2 a)) → alike (m1 ≫= f1) (m2 ≫= f2).
Proof.
  intros Hm Hf w1 w2 Hsame. unfold mbind, M_bind.
  destruct (Hm w1 w2 Hsame) as [Hr Hw].
  destruct (m1 w1) as [[a|e] w1'], (m2 w2) as [[a'|e'] w2']; simpl in *; try done.
  - injection Hr as <-. by apply Hf.
  - by injection Hr as <-.
Qed.

Lemma alike_try_catch {A} (body1 body2 handler1 handler2 : M A) :
  alike body1 body2 → alike handler1 handler2 →
  alike (try_catch body1 handler1) (try_catch body2 handler2).
Proof.
  intros Hbody Hhandler w1 w2 Hsame. unfold try_catch.
  destruct (Hbody w1 w2 Hsame) as [Hr Hw].
  destruct (body1 w1) as [[a|e] w1'], (body2 w2) as [[a'|e'] w2']; simpl in *; try done.
  by apply Hhandler.
Qed.

Lemma alike_emit (e1 e2 : Effect) : alike (emit_effect e1) (emit_effect e2).
Proof. by intros w1 w2 H. Qed.

Lemma alike_query {A} (env : Env) (op : Z → prisma.Db → Result A * prisma.Db) :
  alike (query env op) (query env op).
Proof.
  intros w1 w2 [Hdb Htick]. unfold query. rewrite Hdb, Htick.
  destruct (connection_fails env (tick w2)); [by split; [|split; simpl; congruence]|].
  destruct (op _ _) as [r d]. by split; [|split; simpl; congruence].
Qed.

Lemma alike_sequence (ops : list (M unit)) :
  Forall (λ op, alike op op) ops → alike (sequence ops) (sequence ops).
Proof.
  induction 1 as [|op ops Hop _ IH]; simpl; [apply alike_ret|].
  apply alike_bind; [done|]. by intros _.
Qed.

Lemma alike_transaction (env : Env) (ops : list (M unit)) :
  Forall (λ op, alike op op) ops → alike (transaction env ops) (transaction env ops).
Proof.
  intros Hops w1 w2 Hsame. unfold transaction.
  assert (alike (sequence ops;; query env (λ _ d, (Ok (), d)))
            (sequence ops;; query env (λ _ d, (Ok (), d)))) as Hseq.
  { apply alike_bind; [by apply alike_sequence|]. intros _. apply alike_query. }
  destruct (Hseq w1 w2 Hsame) as [Hr [Hdb Htick]]. destruct Hsame as [Hdb0 Htick0].
  destruct ((sequence ops;; query env (λ _ d, (Ok (), d))) w1) as [[[]|e] w1'],
    ((sequence ops;; query env (λ _ d, (Ok (), d))) w2) as [[[]|e'] w2'];
    simpl in *; done.
Qed.

Lemma alike_updateSessionStatus (env : Env) (sessionId : string) (status : SessionStatus) :
  alike (updateSessionStatus env sessionId status) (updateSessionStatus env sessionId status).
Proof. apply alike_bind; [apply alike_query|intros; apply alike_ret]. Qed.

Lemma alike_control (env : Env) (socket1 socket2 sessionId message : string)
    (status : SessionStatus) :
  alike
    (try_catch
       (updateSessionStatus env sessionId status;;
        emit_effect (io_to_emit sessionId (session_status sessionId status)))
       (emit_effect (socket_emit socket1 (session_error message))))
    (try_catch
       (updateSessionStatus env sessionId status;;
        emit_effect (io_to_emit sessionId (session_status sessionId status)))
       (emit_effect (socket_emit socket2 (session_error message)))).
Proof.
  apply alike_try_catch; [|apply alike_emit].
  apply alike_bind; [apply alike_updateSessionStatus|intros; apply alike_emit].
Qed.

(** X22. What a handler writes does not depend on the socket the event came
    from. The handlers identify no sender and check no ownership: any socket
    that knows the identifier of a session can pause, resume, stop or feed
    it, with the effect on the database the owner's socket would have. *)
Theorem database_ignores_the_sender (env : Env) (event : Inbound)
    (socket1 socket2 : string) (payload : JS.value) (w : World) :
  db (handle env event socket1 payload w).2 = db (handle env event socket2 payload w).2.
Proof.
  assert (alike (handle env event socket1 payload) (handle env event socket2 payload))
    as Halike.
  2:{ by destruct (Halike w w) as [_ [Hdb _]]. }
  destruct event; simpl.
  - unfold on_session_start. destruct (SessionStartSchema.safeParse payload) as [data|];
      [|apply alike_emit].
    apply alike_try_catch; [|apply alike_emit].
    apply alike_bind; [apply alike_query|intros _].
    apply alike_bind; [by intros w1 w2 H|intros _]. apply alike_emit.
  - unfold on_session_audioChunk. destruct (AudioChunkSchema.safeParse payload) as [data|];
      [|apply alike_emit].
    apply alike_try_catch; [|apply alike_emit].
    unfold audioChunk_try, transcribeChunk.
    apply alike_bind; [|intros text].
    { apply alike_bind; [by intros w1 w2 H|intros; apply alike_ret]. }
    destruct (String.eqb text ""); [apply alike_ret|].
    apply alike_bind; [apply alike_query|intros; apply alike_emit].
  - unfold on_session_pause. destruct (SessionControlSchema.safeParse payload) as [data|];
      [apply alike_control|apply alike_emit].
  - unfold on_session_resume. destruct (SessionControlSchema.safeParse payload) as [data|];
      [apply alike_control|apply alike_emit].
  - unfold on_session_stop. destruct (SessionControlSchema.safeParse payload) as [data|];
      [|apply alike_emit].
    apply alike_try_catch.
    + unfold stop_try.
      apply alike_bind; [apply alike_updateSessionStatus|intros _].
      apply alike_bind; [apply alike_emit|intros _].
      apply alike_bind; [apply alike_query|intros stored].
      apply alike_bind; [|intros result].
      { intros w1 w2 H.
        rewrite (summarizeTranscript_run env _ w1 w2), (summarizeTranscript_run env _ w2 w2).
        by split. }
      apply alike_bind; [|intros; apply alike_emit].
      unfold completeSessionWithSummary.
      apply alike_bind; [|intros completedAt].
      { intros w1 w2 [Hdb Htick]. unfold new_Date. simpl. by rewrite Htick. }
      apply alike_bind; [|intros _; apply alike_query].
      apply alike_transaction.
      apply Forall_cons_2; [|apply Forall_cons_2; [|apply Forall_nil_2]].
      * apply alike_bind; [apply alike_query|intros; apply alike_ret].
      * apply alike_query.
    + unfold stop_catch.
      apply alike_bind; [|intros _].
      { apply alike_try_catch; [apply alike_updateSessionStatus|apply alike_ret]. }
      apply alike_bind; [apply alike_emit|intros; apply alike_emit].
Qed.
